(** * An in-memory environment (util/memenv/memenv.cc): model and properties

    The development follows the layout of the C++ source:
    - [FileState]: block storage of one file, its reference count, and the
      content operations [Read], [AppendRaw], [Append], [PreAllocate];
    - the three file views ([SequentialFileImpl], [RandomAccessFileImpl],
      [WritableFileImpl]);
    - [InMemoryEnv]: the ordered map from file names to [FileState] objects.

    Conventions.
    - [uint64_t] and [size_t] values are integers in [Z]; arithmetic that can
      leave the range is written with [wrap64].
    - A byte of memory is a [cell]: [Some b] for a byte holding [b], [None] for
      a byte whose value is indeterminate (storage obtained from [new] and not
      written yet).
    - Undefined behaviour (indexing a vector or copying memory out of range,
      using a pointer to a destroyed object, copying through or deleting a
      pointer that [new] did not return, a failed [assert] or [CHECK]) and a
      loop that makes no progress are [None] in the [option] monad. *)

From Stdlib Require Import ZArith Lia String Ascii.
From Equations Require Import Equations.
From Equations.Prop Require Import Logic.
From stdpp Require Import base option list sorting gmap strings.
Local Open Scope Z_scope.

(** ** Machine integers, memory cells, status values *)

Definition wrap64 (z : Z) : Z := z mod 2 ^ 64.

Definition cell : Type := option Byte.byte.

(** [memcpy(dst + off, src, length src)] on a buffer [dst]. *)
Definition memcpy (dst : list cell) (off : Z) (src : list cell) : option (list cell) :=
  if decide (0 ≤ off ∧ off + Z.of_nat (length src) ≤ Z.of_nat (length dst))
  then Some (take (Z.to_nat off) dst ++ src ++ drop (Z.to_nat off + length src) dst)
  else None.

(** The [len] bytes found at [buf + off]. *)
Definition peek (buf : list cell) (off len : Z) : option (list cell) :=
  if decide (0 ≤ off ∧ 0 ≤ len ∧ off + len ≤ Z.of_nat (length buf))
  then Some (take (Z.to_nat len) (drop (Z.to_nat off) buf))
  else None.

(** Modelled from the spec: the [Status] class of [util/status.h], which is
    missing.  Every operation returns an explicit status, OK or an error kind
    with its message; the environment builds [Status::OK()] and
    [Status::IOError(msg, msg2)] ([msg2] is empty when it is left out) and
    tests a status with [ok()]. *)
Inductive Status : Type :=
| OK
| IOError (msg msg2 : string).

Definition ok (s : Status) : bool :=
  match s with OK => true | IOError _ _ => false end.

(** Modelled from the spec: the [Slice] class of [util/slice.h], which is
    missing: a view of bytes, that is a pointer and a length.  The pointers
    that [FileState::Read] stores in a slice are the empty string of
    [Slice()], an address inside a block of the file, or the caller's scratch
    buffer. *)
Inductive SliceData : Type :=
| SliceEmpty
| SliceInBlock (block block_offset : Z)
| SliceScratch.

Record Slice : Type := mkSlice { data_ : SliceData; slice_size : Z }.

(** ** FileState *)

Definition kBlockSize : Z := 8 * 1024.
Arguments kBlockSize : simpl never.

(** [refs_] is an [int]: it would take 2^31 holders to overflow it, and the
    overflow of a signed integer is undefined; it is an integer without a
    bound here.  [size_] is a [uint64_t]. *)
Record FileState : Type := mkFileState {
  refs_ : Z;
  blocks_ : list (list cell);
  size_ : Z
}.

(** [FileState() : refs_(0), size_(0) {}] *)
Definition FileState_new : FileState :=
  {| refs_ := 0; blocks_ := []; size_ := 0 |}.

Definition Size (st : FileState) : Z := size_ st.

(** [new uint8_t[kBlockSize]]: a block of indeterminate bytes. *)
Definition new_block : list cell := replicate (Z.to_nat kBlockSize) None.
Arguments new_block : simpl never.

(** Replace the block [blocks_.back()] points to. *)
Definition set_back (blocks : list (list cell)) (blk : list cell) : list (list cell) :=
  <[pred (length blocks) := blk]> blocks.

(** One turn of the [while (src_len > 0)] loop of [AppendRaw]: the new state
    and the bytes of [src] still to be written. *)
Definition AppendRaw_iter (st : FileState) (src : list cell)
  : option (FileState * list cell) :=
  let src_len := Z.of_nat (length src) in
  let offset := size_ st `mod` kBlockSize in
  let '(blocks, avail) :=
    if decide (offset ≠ 0)
    then (blocks_ st, kBlockSize - offset)
    else (blocks_ st ++ [new_block], kBlockSize) in
  let avail := if decide (avail > src_len) then src_len else avail in
  back ← last blocks;
  back' ← memcpy back offset (take (Z.to_nat avail) src);
  Some ({| refs_ := refs_ st;
           blocks_ := set_back blocks back';
           size_ := wrap64 (size_ st + avail) |},
        drop (Z.to_nat avail) src).

Equations? AppendRaw_loop (st : FileState) (src : list cell) : option FileState
  by wf (length src) lt :=
  AppendRaw_loop st [] := Some st;
  AppendRaw_loop st (c :: cs) with inspect (AppendRaw_iter st (c :: cs)) := {
    | exist _ None _ := None
    | exist _ (Some (st', src')) Hit := AppendRaw_loop st' src' }.
Proof.
  clear AppendRaw_loop. revert Hit. unfold AppendRaw_iter.
  pose proof (Z.mod_pos_bound (size_ st) kBlockSize eq_refl) as Hm.
  destruct (decide (size_ st `mod` kBlockSize ≠ 0));
    (destruct (last _); [|done]); cbn [mbind option_bind];
    (destruct (memcpy _ _ _); [|done]); cbn [mbind option_bind];
    intros [= <- <-]; rewrite length_drop; case_decide;
    cbn [length] in *; lia.
Qed.

(** [Status AppendRaw(const uint8_t *src, size_t src_len)] *)
Definition AppendRaw (st : FileState) (src : list cell) : option (Status * FileState) :=
  st' ← AppendRaw_loop st src; Some (OK, st').

(** [Status Append(const Slice& data)]: the slice views [data]. *)
Definition Append (st : FileState) (data : list Byte.byte) : option (Status * FileState) :=
  AppendRaw st (Some <$> data).

(** A pointer variable after [memset(&p, 0, sizeof(uint8_t))]: the first
    byte of the object that holds the pointer is set to zero.  A pointer is a
    64-bit address stored least significant byte first (x86-64), so the byte
    set is bits 0 to 7 of the address. *)
Definition memset_first_byte (p : Z) : Z := Z.ldiff p 255.

(** [Status PreAllocate(uint64_t size)].  [padding] is the address that
    [new uint8_t[size]] returns; the array there is not initialised.
    [memset(&padding, 0, sizeof(uint8_t))] writes no byte of the array: it
    sets the first byte of the pointer variable.  When this changes the
    address, [AppendRaw] copies from outside the array and [delete []] is
    given a pointer that [new] did not return: the call is undefined.  When
    the address ends in a zero byte the pointer is as it was, and [AppendRaw]
    copies the [size] indeterminate bytes of the array. *)
Definition PreAllocate (st : FileState) (size : Z) (padding : Z)
  : option (Status * FileState) :=
  let array : list cell := replicate (Z.to_nat size) None in
  let padding' := memset_first_byte padding in
  if decide (padding' = padding) then
    '(s, st') ← AppendRaw st array;
    Some (s, {| refs_ := refs_ st';
                blocks_ := blocks_ st';
                size_ := wrap64 (size_ st' - size) |})
  else None.

(** [v[i]] for a [size_t] index: out of range is undefined. *)
Definition index {A : Type} (v : list A) (i : Z) : option A :=
  if decide (0 ≤ i) then v !! Z.to_nat i else None.

(** One turn of the [while (bytes_to_copy > 0)] loop of [Read]: the scratch
    buffer after the [memcpy], and the number of bytes copied. *)
Definition Read_iter (blocks : list (list cell)) (scratch : list cell)
    (bytes_to_copy dst block block_offset : Z) : option (list cell * Z) :=
  let avail := wrap64 (kBlockSize - block_offset) in
  let avail := if decide (avail > bytes_to_copy) then bytes_to_copy else avail in
  blk ← index blocks block;
  chunk ← peek blk block_offset avail;
  scratch' ← memcpy scratch dst chunk;
  Some (scratch', avail).

(** The copy loop; [dst] is the offset of the write pointer in [scratch].  A
    turn that copies nothing would repeat forever: [None]. *)
Equations? Read_loop (blocks : list (list cell)) (scratch : list cell)
    (bytes_to_copy dst block block_offset : Z) : option (list cell)
  by wf (Z.to_nat bytes_to_copy) lt :=
  Read_loop blocks scratch bytes_to_copy dst block block_offset
    with decide (bytes_to_copy > 0) := {
    | right _ := Some scratch
    | left Hgt
        with inspect (Read_iter blocks scratch bytes_to_copy dst block block_offset) := {
        | exist _ None _ := None
        | exist _ (Some (scratch', avail)) Hit with decide (0 < avail) := {
            | left Hpos :=
                Read_loop blocks scratch' (bytes_to_copy - avail) (dst + avail)
                          (block + 1) 0
            | right _ := None } } }.
Proof. lia. Qed.

(** [Status Read(uint64_t offset, size_t n, Slice* result, uint8_t* scratch) const].
    [result] and [scratch] are passed in and returned: an error leaves both as
    they were. *)
Definition Read (st : FileState) (offset n : Z) (result : Slice) (scratch : list cell)
  : option (Status * Slice * list cell) :=
  if decide (offset > size_ st)
  then Some (IOError "Offset greater than file size." "", result, scratch)
  else
    let available := wrap64 (size_ st - offset) in
    let n := if decide (n > available) then available else n in
    if decide (n = 0) then Some (OK, mkSlice SliceEmpty 0, scratch)
    else
      let block := offset `div` kBlockSize in
      let block_offset := offset `mod` kBlockSize in
      if decide (n ≤ kBlockSize - block_offset)
      then
        _ ← index (blocks_ st) block;
        Some (OK, mkSlice (SliceInBlock block block_offset) n, scratch)
      else
        scratch' ← Read_loop (blocks_ st) scratch n 0 block block_offset;
        Some (OK, mkSlice SliceScratch n, scratch').

(** The bytes a slice returned by [Read] views. *)
Definition slice_bytes (st : FileState) (scratch : list cell) (s : Slice)
  : option (list cell) :=
  match data_ s with
  | SliceEmpty => peek [] 0 (slice_size s)
  | SliceInBlock block block_offset =>
      blk ← index (blocks_ st) block; peek blk block_offset (slice_size s)
  | SliceScratch => peek scratch 0 (slice_size s)
  end.

(** ** File views over one [FileState] *)

(** [SequentialFileImpl::Read]: the status, the new [pos_], the slice and the
    scratch buffer. *)
Definition SequentialFileImpl_Read (file : FileState) (pos n : Z)
    (result : Slice) (scratch : list cell) : option (Status * Z * Slice * list cell) :=
  '(s, result', scratch') ← Read file pos n result scratch;
  Some (s, if ok s then wrap64 (pos + slice_size result') else pos, result', scratch').

(** [SequentialFileImpl::Skip]: the status and the new [pos_]. *)
Definition SequentialFileImpl_Skip (file : FileState) (pos n : Z) : Status * Z :=
  if decide (pos > Size file)
  then (IOError "pos_ > file_->Size()" "", pos)
  else
    let available := wrap64 (Size file - pos) in
    let n := if decide (n > available) then available else n in
    (OK, wrap64 (pos + n)).

(** [WritableFileImpl::AppendVector].  [RETURN_NOT_OK] (a macro of
    [util/status.h]) returns the status of an item that is not OK, leaving
    the items before it appended. *)
Fixpoint AppendVector (st : FileState) (data_vector : list (list Byte.byte))
  : option (Status * FileState) :=
  match data_vector with
  | [] => Some (OK, st)
  | data :: rest =>
      '(s, st') ← Append st data;
      if ok s then AppendVector st' rest else Some (s, st')
  end.

(** ** The heap of FileState objects and the file map *)

(** Addresses of [FileState] objects. *)
Abbreviation ptr := nat.
Definition NULL : ptr := 0%nat.

(** [std::map<std::string, FileState*>]: the entries in increasing key order. *)
Definition FileSystem : Type := list (string * ptr).

(** [find(k)]: the mapped pointer, [None] for [end()]. *)
Fixpoint fm_find (k : string) (m : FileSystem) : option ptr :=
  match m with
  | [] => None
  | (k', v) :: m' => if decide (k = k') then Some v else fm_find k m'
  end.

(** [m[k] = v] *)
Fixpoint fm_insert (k : string) (v : ptr) (m : FileSystem) : FileSystem :=
  match m with
  | [] => [(k, v)]
  | (k', v') :: m' =>
      match String.compare k k' with
      | Lt => (k, v) :: m
      | Eq => (k, v) :: m'
      | Gt => (k', v') :: fm_insert k v m'
      end
  end.

(** [erase(k)] *)
Fixpoint fm_erase (k : string) (m : FileSystem) : FileSystem :=
  match m with
  | [] => []
  | (k', v') :: m' => if decide (k = k') then m' else (k', v') :: fm_erase k m'
  end.

(** Reading [m[k]]: an absent key is first inserted with a null pointer. *)
Definition fm_index (k : string) (m : FileSystem) : ptr * FileSystem :=
  match fm_find k m with
  | Some v => (v, m)
  | None => (NULL, fm_insert k NULL m)
  end.

(** The memory the environment lives in: the live [FileState] objects, the
    address the next [new FileState()] returns, and the map [file_map_]. *)
Record World : Type := mkWorld {
  heap : gmap ptr FileState;
  brk : ptr;
  file_map_ : FileSystem
}.

Definition set_heap (h : gmap ptr FileState) (w : World) : World :=
  {| heap := h; brk := brk w; file_map_ := file_map_ w |}.

Definition set_file_map (m : FileSystem) (w : World) : World :=
  {| heap := heap w; brk := brk w; file_map_ := m |}.

(** The environment after construction: no file.  Address 0 is the null
    pointer, so allocation starts at 1. *)
Definition InMemoryEnv_new : World :=
  {| heap := ∅; brk := 1%nat; file_map_ := [] |}.

(** [new FileState()] *)
Definition FileState_alloc (w : World) : ptr * World :=
  (brk w, {| heap := <[brk w := FileState_new]> (heap w);
             brk := S (brk w);
             file_map_ := file_map_ w |}).

(** The object [st] with its reference count set to [refs]. *)
Definition with_refs (refs : Z) (st : FileState) : FileState :=
  {| refs_ := refs; blocks_ := blocks_ st; size_ := size_ st |}.

(** [void Ref()] *)
Definition Ref (p : ptr) (w : World) : option World :=
  st ← heap w !! p;
  Some (set_heap (<[p := with_refs (refs_ st + 1) st]> (heap w)) w).

(** [void Unref()]: [delete this] removes the object from the heap. *)
Definition Unref (p : ptr) (w : World) : option World :=
  st ← heap w !! p;
  let refs := refs_ st - 1 in
  if decide (0 ≤ refs) then
    let do_delete := bool_decide (refs ≤ 0) in
    if do_delete
    then Some (set_heap (delete p (heap w)) w)
    else Some (set_heap (<[p := with_refs refs st]> (heap w)) w)
  else None.

(** ** The file views *)

Record SequentialFileImpl : Type := mkSequentialFileImpl {
  seq_file_ : ptr;
  pos_ : Z
}.

Record RandomAccessFileImpl : Type := mkRandomAccessFileImpl { rand_file_ : ptr }.

Record WritableFileImpl : Type := mkWritableFileImpl { wr_file_ : ptr }.

(** Constructors: [file_(file)] and [file_->Ref()]. *)
Definition SequentialFileImpl_new (file : ptr) (w : World)
  : option (SequentialFileImpl * World) :=
  w' ← Ref file w; Some ({| seq_file_ := file; pos_ := 0 |}, w').

Definition RandomAccessFileImpl_new (file : ptr) (w : World)
  : option (RandomAccessFileImpl * World) :=
  w' ← Ref file w; Some ({| rand_file_ := file |}, w').

Definition WritableFileImpl_new (file : ptr) (w : World)
  : option (WritableFileImpl * World) :=
  w' ← Ref file w; Some ({| wr_file_ := file |}, w').

(** Destructors: [file_->Unref()]. *)
Definition SequentialFileImpl_delete (v : SequentialFileImpl) (w : World) : option World :=
  Unref (seq_file_ v) w.

Definition RandomAccessFileImpl_delete (v : RandomAccessFileImpl) (w : World) : option World :=
  Unref (rand_file_ v) w.

Definition WritableFileImpl_delete (v : WritableFileImpl) (w : World) : option World :=
  Unref (wr_file_ v) w.

(** Methods of the views, on the object [file_] points to. *)
Definition Sequential_Read (v : SequentialFileImpl) (n : Z) (result : Slice)
    (scratch : list cell) (w : World)
  : option (Status * SequentialFileImpl * Slice * list cell) :=
  file ← heap w !! seq_file_ v;
  '(s, pos', result', scratch') ←
    SequentialFileImpl_Read file (pos_ v) n result scratch;
  Some (s, {| seq_file_ := seq_file_ v; pos_ := pos' |}, result', scratch').

Definition Sequential_Skip (v : SequentialFileImpl) (n : Z) (w : World)
  : option (Status * SequentialFileImpl) :=
  file ← heap w !! seq_file_ v;
  let '(s, pos') := SequentialFileImpl_Skip file (pos_ v) n in
  Some (s, {| seq_file_ := seq_file_ v; pos_ := pos' |}).

Definition RandomAccess_Read (v : RandomAccessFileImpl) (offset n : Z)
    (result : Slice) (scratch : list cell) (w : World)
  : option (Status * Slice * list cell) :=
  file ← heap w !! rand_file_ v;
  Read file offset n result scratch.

Definition RandomAccess_Size (v : RandomAccessFileImpl) (w : World) : option (Status * Z) :=
  file ← heap w !! rand_file_ v;
  Some (OK, Size file).

(** Run a mutating method of the [FileState] at [p]. *)
Definition on_file (p : ptr) (f : FileState → option (Status * FileState)) (w : World)
  : option (Status * World) :=
  file ← heap w !! p;
  '(s, file') ← f file;
  Some (s, set_heap (<[p := file']> (heap w)) w).

Definition Writable_PreAllocate (v : WritableFileImpl) (size : Z) (padding : Z)
    (w : World) : option (Status * World) :=
  on_file (wr_file_ v) (λ file, PreAllocate file size padding) w.

Definition Writable_Append (v : WritableFileImpl) (data : list Byte.byte) (w : World)
  : option (Status * World) :=
  on_file (wr_file_ v) (λ file, Append file data) w.

Definition Writable_AppendVector (v : WritableFileImpl)
    (data_vector : list (list Byte.byte)) (w : World) : option (Status * World) :=
  on_file (wr_file_ v) (λ file, AppendVector file data_vector) w.

Definition Writable_Size (v : WritableFileImpl) (w : World) : option Z :=
  file ← heap w !! wr_file_ v;
  Some (Size file).

(** ** InMemoryEnv *)

(** Modelled from the spec: [Slice::starts_with] of [util/slice.h], which is
    missing.  [Slice(filename).starts_with(Slice(dir))] is the test that
    [filename] has the prefix [dir]. *)
Definition starts_with (filename dir : string) : bool := String.prefix dir filename.

(** [s.substr(pos)] for [pos <= s.size()]. *)
Definition substr (s : string) (pos : nat) : string :=
  String.substring pos (String.length s - pos) s.

Definition NewSequentialFile (fname : string) (w : World)
  : option (Status * option SequentialFileImpl * World) :=
  match fm_find fname (file_map_ w) with
  | None => Some (IOError fname "File not found", None, w)
  | Some _ =>
      let '(file, m) := fm_index fname (file_map_ w) in
      '(v, w') ← SequentialFileImpl_new file (set_file_map m w);
      Some (OK, Some v, w')
  end.

Definition NewRandomAccessFile (fname : string) (w : World)
  : option (Status * option RandomAccessFileImpl * World) :=
  match fm_find fname (file_map_ w) with
  | None => Some (IOError fname "File not found", None, w)
  | Some _ =>
      let '(file, m) := fm_index fname (file_map_ w) in
      '(v, w') ← RandomAccessFileImpl_new file (set_file_map m w);
      Some (OK, Some v, w')
  end.

Definition DeleteFileInternal (fname : string) (w : World) : option World :=
  match fm_find fname (file_map_ w) with
  | None => Some w
  | Some _ =>
      let '(file, m) := fm_index fname (file_map_ w) in
      w' ← Unref file (set_file_map m w);
      Some (set_file_map (fm_erase fname (file_map_ w')) w')
  end.

Definition NewWritableFile (fname : string) (w : World)
  : option (Status * WritableFileImpl * World) :=
  w1 ← (if fm_find fname (file_map_ w) is Some _
        then DeleteFileInternal fname w else Some w);
  let '(file, w2) := FileState_alloc w1 in
  w3 ← Ref file w2;
  let w4 := set_file_map (fm_insert fname file (file_map_ w3)) w3 in
  '(v, w5) ← WritableFileImpl_new file w4;
  Some (OK, v, w5).

Definition FileExists (fname : string) (w : World) : bool :=
  bool_decide (fm_find fname (file_map_ w) ≠ None).

(** The [for] loop of [GetChildren], over the entries in key order. *)
Fixpoint GetChildren_loop (dir : string) (m : FileSystem) (result : list string)
  : list string :=
  match m with
  | [] => result
  | (filename, _) :: m' =>
      GetChildren_loop dir m'
        (if bool_decide (String.length dir + 1 ≤ String.length filename)%nat
            && bool_decide (String.get (String.length dir) filename = Some "/"%char)
            && starts_with filename dir
         then result ++ [substr filename (String.length dir + 1)]
         else result)
  end.

(** [result->clear()], then the loop. *)
Definition GetChildren (dir : string) (w : World) : Status * list string :=
  (OK, GetChildren_loop dir (file_map_ w) []).

Definition DeleteFile (fname : string) (w : World) : option (Status * World) :=
  match fm_find fname (file_map_ w) with
  | None => Some (IOError fname "File not found", w)
  | Some _ => w' ← DeleteFileInternal fname w; Some (OK, w')
  end.

Definition CreateDir (dirname : string) (w : World) : Status * World := (OK, w).
Definition DeleteDir (dirname : string) (w : World) : Status * World := (OK, w).
Definition SyncDir (dirname : string) (w : World) : Status * World := (OK, w).

(** The [for] loop of [DeleteRecursively]: [file_map_.erase(i++)] or [++i]. *)
Fixpoint DeleteRecursively_loop (dir : string) (m : FileSystem) : FileSystem :=
  match m with
  | [] => []
  | (filename, file) :: m' =>
      if bool_decide (String.length dir ≤ String.length filename)%nat
         && starts_with filename dir
      then DeleteRecursively_loop dir m'
      else (filename, file) :: DeleteRecursively_loop dir m'
  end.

(** [string dir(dirname); if (dir[dir.size() - 1] != '/') dir.push_back('/');] *)
Definition normalize_dir (dirname : string) : string :=
  if bool_decide (String.get (String.length dirname - 1) dirname ≠ Some "/"%char)
  then dirname +:+ "/"
  else dirname.

(** [CHECK(!dirname.empty())] aborts the process on an empty name. *)
Definition DeleteRecursively (dirname : string) (w : World) : option (Status * World) :=
  if decide (dirname = "") then None
  else
    let dir := normalize_dir dirname in
    Some (OK, set_file_map (DeleteRecursively_loop dir (file_map_ w)) w).

Definition GetFileSize (fname : string) (w : World) : option (Status * option Z) :=
  match fm_find fname (file_map_ w) with
  | None => Some (IOError fname "File not found", None)
  | Some _ =>
      let '(file, _) := fm_index fname (file_map_ w) in
      st ← heap w !! file;
      Some (OK, Some (Size st))
  end.

Definition RenameFile (src target : string) (w : World) : option (Status * World) :=
  match fm_find src (file_map_ w) with
  | None => Some (IOError src "File not found", w)
  | Some _ =>
      w1 ← DeleteFileInternal target w;
      (* file_map_[target] = file_map_[src]; *)
      let '(file, m1) := fm_index src (file_map_ w1) in
      let m2 := fm_insert target file m1 in
      (* file_map_.erase(src); *)
      Some (OK, set_file_map (fm_erase src m2) w1)
  end.

Definition GetTestDirectory (w : World) : Status * string := (OK, "/test").

(** ** Serial runs of a client *)

(** The views a client holds. *)
Inductive View : Type :=
| VSequential (v : SequentialFileImpl)
| VRandomAccess (v : RandomAccessFileImpl)
| VWritable (v : WritableFileImpl).

Definition view_file (v : View) : ptr :=
  match v with
  | VSequential v => seq_file_ v
  | VRandomAccess v => rand_file_ v
  | VWritable v => wr_file_ v
  end.

Record System : Type := mkSystem {
  world : World;
  views : list View
}.

Definition System_new : System := {| world := InMemoryEnv_new; views := [] |}.

(** The calls a client makes that can change the state.  A view is named by
    its position in [views].  [OpPreAllocate] carries, after the argument of
    the call, the address that [new uint8_t[size]] returns during it. *)
Inductive Op : Type :=
| OpNewSequentialFile (fname : string)
| OpNewRandomAccessFile (fname : string)
| OpNewWritableFile (fname : string)
| OpDeleteView (h : nat)
| OpRead (h : nat) (n : Z) (result : Slice) (scratch : list cell)
| OpSkip (h : nat) (n : Z)
| OpPreAllocate (h : nat) (size : Z) (padding : Z)
| OpAppend (h : nat) (data : list Byte.byte)
| OpAppendVector (h : nat) (data_vector : list (list Byte.byte))
| OpDeleteFile (fname : string)
| OpDeleteRecursively (dirname : string)
| OpRenameFile (src target : string).

(** Total number of bytes a call hands to [Append]. *)
Definition op_bytes (op : Op) : Z :=
  match op with
  | OpPreAllocate _ size _ => size
  | OpAppend _ data => Z.of_nat (length data)
  | OpAppendVector _ data_vector => Z.of_nat (length (concat data_vector))
  | _ => 0
  end.

(** The file a view named by [h] is bound to. *)
Definition file_of (h : nat) (s : System) : option FileState :=
  v ← views s !! h; heap (world s) !! view_file v.

(** One call.  [None]: the call is outside the contract of the interface (a
    view that is not held, or of the wrong kind; a length that is not a
    [size_t] or [uint64_t]; content that would not fit the 64-bit address
    space) or the call has undefined behaviour. *)
Definition exec (op : Op) (s : System) : option System :=
  match op with
  | OpNewSequentialFile fname =>
      '(_, v, w) ← NewSequentialFile fname (world s);
      Some {| world := w;
              views := views s ++ (if v is Some v then [VSequential v] else []) |}
  | OpNewRandomAccessFile fname =>
      '(_, v, w) ← NewRandomAccessFile fname (world s);
      Some {| world := w;
              views := views s ++ (if v is Some v then [VRandomAccess v] else []) |}
  | OpNewWritableFile fname =>
      '(_, v, w) ← NewWritableFile fname (world s);
      Some {| world := w; views := views s ++ [VWritable v] |}
  | OpDeleteView h =>
      v ← views s !! h;
      w ← Unref (view_file v) (world s);
      Some {| world := w; views := delete h (views s) |}
  | OpRead h n result scratch =>
      v ← views s !! h;
      match v with
      | VSequential v =>
          if decide (0 ≤ n) then
            '(_, v', _, _) ← Sequential_Read v n result scratch (world s);
            Some {| world := world s; views := <[h := VSequential v']> (views s) |}
          else None
      | _ => None
      end
  | OpSkip h n =>
      v ← views s !! h;
      match v with
      | VSequential v =>
          if decide (0 ≤ n) then
            '(_, v') ← Sequential_Skip v n (world s);
            Some {| world := world s; views := <[h := VSequential v']> (views s) |}
          else None
      | _ => None
      end
  | OpPreAllocate h size padding =>
      v ← views s !! h;
      file ← file_of h s;
      match v with
      | VWritable v =>
          if decide (0 ≤ size ∧ size_ file + size < 2 ^ 64) then
            '(_, w) ← Writable_PreAllocate v size padding (world s);
            Some {| world := w; views := views s |}
          else None
      | _ => None
      end
  | OpAppend h data =>
      v ← views s !! h;
      file ← file_of h s;
      match v with
      | VWritable v =>
          if decide (size_ file + op_bytes op < 2 ^ 64) then
            '(_, w) ← Writable_Append v data (world s);
            Some {| world := w; views := views s |}
          else None
      | _ => None
      end
  | OpAppendVector h data_vector =>
      v ← views s !! h;
      file ← file_of h s;
      match v with
      | VWritable v =>
          if decide (size_ file + op_bytes op < 2 ^ 64) then
            '(_, w) ← Writable_AppendVector v data_vector (world s);
            Some {| world := w; views := views s |}
          else None
      | _ => None
      end
  | OpDeleteFile fname =>
      '(_, w) ← DeleteFile fname (world s);
      Some {| world := w; views := views s |}
  | OpDeleteRecursively dirname =>
      '(_, w) ← DeleteRecursively dirname (world s);
      Some {| world := w; views := views s |}
  | OpRenameFile src target =>
      '(_, w) ← RenameFile src target (world s);
      Some {| world := w; views := views s |}
  end.

(** A serial run: the calls one after the other. *)
Fixpoint run (ops : list Op) (s : System) : option System :=
  match ops with
  | [] => Some s
  | op :: ops' => s' ← exec op s; run ops' s'
  end.

(** States a client can reach from a fresh environment. *)
Definition reachable (s : System) : Prop :=
  ∃ ops, run ops System_new = Some s.

(** ** Invariants of a FileState *)

(** Every block is an array of [kBlockSize] bytes and [size_] is not
    negative. *)
Definition fs_rep (st : FileState) : Prop :=
  Forall (λ blk : list cell, length blk = Z.to_nat kBlockSize) (blocks_ st) ∧
  0 ≤ size_ st.

(** [size <= blocks.length * blockSize] *)
Definition fs_upper (st : FileState) : Prop :=
  size_ st ≤ Z.of_nat (length (blocks_ st)) * kBlockSize.

(** [size > (blocks.length - 1) * blockSize] whenever [blocks] is non-empty. *)
Definition fs_lower (st : FileState) : Prop :=
  blocks_ st ≠ [] → size_ st > (Z.of_nat (length (blocks_ st)) - 1) * kBlockSize.

(** All bytes in the blocks, and the bytes below [size_]. *)
Definition flat (st : FileState) : list cell := concat (blocks_ st).

Definition content (st : FileState) : list cell :=
  take (Z.to_nat (size_ st)) (flat st).

(** Where [Read] puts a result of [n] bytes (after clamping) read at
    [offset]: nowhere, in the block that holds [offset], or in [scratch]. *)
Definition Read_data (offset n : Z) : SliceData :=
  if decide (n = 0) then SliceEmpty
  else if decide (n ≤ kBlockSize - offset `mod` kBlockSize)
       then SliceInBlock (offset `div` kBlockSize) (offset `mod` kBlockSize)
       else SliceScratch.

(** ** Sequences of appends *)

Inductive AppendOp : Type :=
| OneAppend (data : list Byte.byte)
| BatchAppend (data_vector : list (list Byte.byte)).

Definition append_op (op : AppendOp) (st : FileState) : option (Status * FileState) :=
  match op with
  | OneAppend data => Append st data
  | BatchAppend data_vector => AppendVector st data_vector
  end.

(** The bytes a call appends. *)
Definition appended (op : AppendOp) : list Byte.byte :=
  match op with
  | OneAppend data => data
  | BatchAppend data_vector => concat data_vector
  end.

(** The calls in order: the status of each, and the final state. *)
Fixpoint append_ops (ops : list AppendOp) (st : FileState)
  : option (list Status * FileState) :=
  match ops with
  | [] => Some ([], st)
  | op :: ops' =>
      '(s, st1) ← append_op op st;
      '(ss, st2) ← append_ops ops' st1;
      Some (s :: ss, st2)
  end.

(** Appending each item of a batch in order, one [Append] call per item. *)
Fixpoint append_each (st : FileState) (items : list (list Byte.byte))
  : option FileState :=
  match items with
  | [] => Some st
  | data :: rest => '(_, st') ← Append st data; append_each st' rest
  end.

(** Sum of the lengths of the inputs of the calls. *)
Definition appended_length (ops : list AppendOp) : Z :=
  foldr (λ op acc, Z.of_nat (length (appended op)) + acc) 0 ops.

(** A file right after its creation, whatever references are held. *)
Definition created (refs : Z) : FileState :=
  {| refs_ := refs; blocks_ := []; size_ := 0 |}.

(** A sequence of appends used to run the theorems on: 16396 bytes, over
    three blocks. *)
Definition sample_ops : list AppendOp :=
  [OneAppend (replicate (Z.to_nat 8190) Byte.x61);
   BatchAppend [replicate 5 Byte.x62; []; replicate (Z.to_nat 8200) Byte.x63];
   OneAppend [Byte.x64]].

(** ** Invariants of the file map and of the heap *)

(** The order of [std::map<std::string, _>]: lexicographic, on bytes. *)
Definition key_lt (k k' : string) : Prop := String.compare k k' = Lt.

Definition fm_sorted (m : FileSystem) : Prop := StronglySorted key_lt m.*1.

(** Number of occurrences of [p] among the pointers [l]. *)
Definition occ (p : ptr) (l : list ptr) : Z :=
  Z.of_nat (length (filter (λ q, q = p) l)).

(** The pointers held by the file map and by the open views, one entry per
    reference taken. *)
Definition holders (s : System) : list ptr :=
  (file_map_ (world s)).*2 ++ (view_file <$> views s).

(** ** The directory listing, as the specification words it *)

(** [p] is a prefix of [s] and differs from it. *)
Definition strict_prefix (p s : string) : Prop :=
  String.prefix p s = true ∧ p ≠ s.

(** The child names for [dir]: for each path with prefix [dir + "/"], in the
    order of [paths], what follows that prefix. *)
Definition listChildren_spec (dir : string) (paths : list string) : list string :=
  omap (λ path,
          if String.prefix (dir +:+ "/") path
          then Some (substr path (String.length (dir +:+ "/")))
          else None) paths.

(** Reference counts against the pointers held.  A live object has at least
    one reference and at least as many as it has holders; an address that is
    not live has no holder.  With [exact], every reference is one held by the
    map or by a view. *)
Definition refs_ok (exact : bool) (h : gmap ptr FileState) (held : list ptr) : Prop :=
  ∀ p, match h !! p with
       | Some st =>
           1 ≤ refs_ st ∧ occ p held ≤ refs_ st ∧
           (exact = true → refs_ st = occ p held)
       | None => occ p held = 0
       end.

Definition files_ok (h : gmap ptr FileState) : Prop :=
  ∀ p st, h !! p = Some st → fs_rep st ∧ fs_upper st ∧ size_ st < 2 ^ 64.

(** The cursor of a sequential view is within its file. *)
Definition view_ok (h : gmap ptr FileState) (v : View) : Prop :=
  match v with
  | VSequential v => ∀ st, h !! seq_file_ v = Some st → 0 ≤ pos_ v ≤ size_ st
  | _ => True
  end.

Definition views_ok (s : System) : Prop :=
  Forall (view_ok (heap (world s))) (views s).

Definition is_DeleteRecursively (op : Op) : bool :=
  match op with OpDeleteRecursively _ => true | _ => false end.

(** A run used to apply the theorems to: three files, content in two of
    them, views of each kind, a rename and a deletion. *)
Definition sample_run : list Op :=
  [OpNewWritableFile "/b/z"; OpNewWritableFile "/a/y"; OpNewWritableFile "/a/x";
   OpAppend 1 (replicate (Z.to_nat 8190) Byte.x61);
   OpAppendVector 1 [[Byte.x62; Byte.x63]; [Byte.x64; Byte.x65]];
   OpAppend 0 [Byte.x7a];
   OpNewSequentialFile "/a/y"; OpNewRandomAccessFile "/a/y";
   OpRead 3 8191 (mkSlice SliceEmpty 0) (replicate (Z.to_nat 8191) None);
   OpSkip 3 1;
   OpDeleteView 2;
   OpRenameFile "/b/z" "/a/w"].

Definition sample_system : System := default System_new (run sample_run System_new).

(** The invariant of the memory alone, against the pointers [held] by views. *)
Definition world_inv (exact : bool) (w : World) (held : list ptr) : Prop :=
  fm_sorted (file_map_ w) ∧
  NoDup (file_map_ w).*2 ∧
  (∀ p, (brk w ≤ p)%nat → heap w !! p = None) ∧
  refs_ok exact (heap w) ((file_map_ w).*2 ++ held) ∧
  files_ok (heap w).

(** The invariant of a system: the memory against the pointers the views
    hold, and the cursors. *)
Definition sys_inv (exact : bool) (s : System) : Prop :=
  world_inv exact (world s) (view_file <$> views s) ∧ views_ok s.

(** Objects live in both heaps have the same content in both. *)
Definition heap_same (h h' : gmap ptr FileState) : Prop :=
  ∀ p st st', h !! p = Some st → h' !! p = Some st' →
              blocks_ st' = blocks_ st ∧ size_ st' = size_ st.

(** Objects live in both heaps have not shrunk. *)
Definition heap_le (h h' : gmap ptr FileState) : Prop :=
  ∀ p st st', h !! p = Some st → h' !! p = Some st' → size_ st ≤ size_ st'.

(** The heap after [Unref] of the live object [st] at [p]. *)
Definition heap_unref (p : ptr) (st : FileState) (h : gmap ptr FileState)
  : gmap ptr FileState :=
  if bool_decide (refs_ st - 1 ≤ 0) then delete p h
  else <[p := with_refs (refs_ st - 1) st]> h.

(** ** Destruction of the environment *)

(** The [for] loop of [~InMemoryEnv()]: [i->second->Unref()] for every entry
    of [file_map_], in key order. *)
Fixpoint InMemoryEnv_delete_loop (m : FileSystem) (w : World) : option World :=
  match m with
  | [] => Some w
  | (_, file) :: m' => w' ← Unref file w; InMemoryEnv_delete_loop m' w'
  end.

(** [~InMemoryEnv()]: the objects that are still live once the environment,
    and [file_map_] with it, is gone. *)
Definition InMemoryEnv_delete (w : World) : option (gmap ptr FileState) :=
  w' ← InMemoryEnv_delete_loop (file_map_ w) w; Some (heap w').

(** ** Calls within the contract of the interface *)

(** What the interface asks of the caller of [op]: the view named is held and
    is of the kind the method belongs to; lengths are not negative; the
    scratch buffer of a read holds the length asked for; the content written
    fits the 64-bit address space; the name given to [DeleteRecursively] is
    not empty. *)
Definition in_contract (op : Op) (s : System) : Prop :=
  match op with
  | OpNewSequentialFile _ | OpNewRandomAccessFile _ | OpNewWritableFile _
  | OpDeleteFile _ | OpRenameFile _ _ => True
  | OpDeleteView h => is_Some (views s !! h)
  | OpRead h n _ scratch =>
      (∃ v, views s !! h = Some (VSequential v)) ∧ 0 ≤ n ≤ Z.of_nat (length scratch)
  | OpSkip h n => (∃ v, views s !! h = Some (VSequential v)) ∧ 0 ≤ n
  | OpPreAllocate h size _ =>
      (∃ v, views s !! h = Some (VWritable v)) ∧ 0 ≤ size ∧
      ∀ file, file_of h s = Some file → size_ file + size < 2 ^ 64
  | OpAppend h _ | OpAppendVector h _ =>
      (∃ v, views s !! h = Some (VWritable v)) ∧
      ∀ file, file_of h s = Some file → size_ file + op_bytes op < 2 ^ 64
  | OpDeleteRecursively dirname => dirname ≠ ""
  end.

(** Objects live in both heaps have kept, in the second, the bytes they hold
    in the first. *)
Definition heap_prefix (h h' : gmap ptr FileState) : Prop :=
  ∀ p st st', h !! p = Some st → h' !! p = Some st' →
              size_ st ≤ size_ st' ∧
              take (Z.to_nat (size_ st)) (content st') = content st.

(** A file holding the 16396 bytes of [sample_ops], in three blocks. *)
Definition sample_file : FileState :=
  default FileState_new (snd <$> append_ops sample_ops (created 1)).

(** A continuation of [sample_run]: more content for "/a/y", space reserved
    after it, and the name deleted while views of the file are open. *)
Definition sample_more : list Op :=
  [OpAppend 1 [Byte.x66; Byte.x67];
   OpPreAllocate 1 9000 4096;
   OpDeleteFile "/a/y";
   OpNewWritableFile "/a/y"].

Definition sample_later : System :=
  default System_new (run sample_more sample_system).

(** Where the next turn of the loop of [AppendRaw] writes, as a position in
    the concatenated blocks: [size_ % kBlockSize] bytes into [blocks_.back()],
    or the end of the blocks when a block is pushed first. *)
Definition write_pos (st : FileState) : Z :=
  if decide (size_ st `mod` kBlockSize ≠ 0)
  then (Z.of_nat (length (blocks_ st)) - 1) * kBlockSize + size_ st `mod` kBlockSize
  else Z.of_nat (length (blocks_ st)) * kBlockSize.

Definition is_PreAllocate (op : Op) : bool :=
  match op with OpPreAllocate _ _ _ => true | _ => false end.

(** What a call that writes does to the object of its view. *)
Definition write_of (op : Op) (st : FileState) : option (Status * FileState) :=
  match op with
  | OpPreAllocate _ size padding => PreAllocate st size padding
  | OpAppend _ data => Append st data
  | OpAppendVector _ data_vector => AppendVector st data_vector
  | _ => None
  end.

(** The view a call writes through. *)
Definition written_view (op : Op) : option nat :=
  match op with
  | OpPreAllocate h _ _ | OpAppend h _ | OpAppendVector h _ => Some h
  | _ => None
  end.

(** The object of "/a/y" in [sample_system], and the system and that object
    after two more bytes are appended through the writable view of the file. *)
Definition sample_y : FileState :=
  default FileState_new (heap (world sample_system) !! 2%nat).

Definition sample_appended : System :=
  default System_new (exec (OpAppend 1 [Byte.x66; Byte.x67]) sample_system).

Definition sample_y_appended : FileState :=
  default FileState_new (heap (world sample_appended) !! 2%nat).

(** The same object at the end of [sample_more]. *)
Definition sample_y_later : FileState :=
  default FileState_new (heap (world sample_later) !! 2%nat).

(** * Properties of FileState *)

Lemma kBlockSize_eq : kBlockSize = 8192.
Proof. reflexivity. Qed.

Lemma wrap64_small z : 0 ≤ z < 2 ^ 64 → wrap64 z = z.
Proof. intros. unfold wrap64. by apply Z.mod_small. Qed.

Lemma length_new_block : length new_block = Z.to_nat kBlockSize.
Proof. unfold new_block. by rewrite length_replicate. Qed.

Section uniform_blocks.
Context {A : Type} (b : nat).
Implicit Types (bs : list (list A)) (blk : list A).

Lemma length_concat_uniform bs :
  Forall (λ blk, length blk = b) bs → length (concat bs) = (length bs * b)%nat.
Proof.
  induction 1 as [|blk bs Hb _ IH]; [done|].
  cbn [concat length]. rewrite length_app, IH, Hb. lia.
Qed.

Lemma drop_concat_uniform bs k :
  Forall (λ blk, length blk = b) bs →
  drop (k * b) (concat bs) = concat (drop k bs).
Proof.
  intros Hbs. revert k. induction Hbs as [|blk bs Hb _ IH]; intros k.
  - cbn [concat]. by rewrite !drop_nil.
  - destruct k as [|k]; [done|].
    cbn [concat drop]. rewrite <- IH.
    replace (S k * b)%nat with (length blk + k * b)%nat by lia.
    by rewrite drop_app_add.
Qed.

(** The bytes of one block, found in the concatenation of all blocks. *)
Lemma take_drop_concat_uniform bs k blk r n :
  Forall (λ blk, length blk = b) bs → bs !! k = Some blk → (r + n ≤ b)%nat →
  take n (drop (k * b + r) (concat bs)) = take n (drop r blk).
Proof.
  intros Hbs Hk Hrn.
  assert (length blk = b) as Hb by apply (Forall_lookup_1 _ _ _ _ Hbs Hk).
  rewrite <- drop_drop, drop_concat_uniform by done.
  rewrite (drop_S _ _ _ Hk). cbn [concat].
  rewrite drop_app_le by lia. rewrite take_app_le; [done|].
  rewrite length_drop. lia.
Qed.
End uniform_blocks.

Lemma length_concat_blocks (bs : list (list cell)) :
  Forall (λ blk : list cell, length blk = Z.to_nat kBlockSize) bs →
  Z.of_nat (length (concat bs)) = Z.of_nat (length bs) * 8192.
Proof.
  intros Hbs. rewrite (length_concat_uniform _ _ Hbs), Nat2Z.inj_mul.
  by rewrite Z2Nat.id.
Qed.

Lemma set_back_snoc (bs : list (list cell)) blk blk' :
  set_back (bs ++ [blk]) blk' = bs ++ [blk'].
Proof.
  unfold set_back. rewrite length_app. cbn [length].
  replace (pred (length bs + 1)) with (length bs + 0)%nat by lia.
  by rewrite insert_app_r.
Qed.

(** One turn of the append loop writes the next bytes of [src] at or after
    position [size_] of the concatenated blocks, and exactly at [size_] when
    the last block is the one that holds position [size_]. *)
Lemma AppendRaw_iter_shape st src :
  fs_rep st → fs_upper st → src ≠ [] →
  size_ st + Z.of_nat (length src) < 2 ^ 64 →
  ∃ (n : nat) bs' pre suf rest,
    AppendRaw_iter st src =
      Some ({| refs_ := refs_ st; blocks_ := bs'; size_ := size_ st + Z.of_nat n |},
            drop n src) ∧
    (0 < n ≤ length src)%nat ∧
    Forall (λ blk : list cell, length blk = Z.to_nat kBlockSize) bs' ∧
    (length (blocks_ st) ≤ length bs')%nat ∧
    size_ st + Z.of_nat n ≤ Z.of_nat (length bs') * kBlockSize ∧
    flat st = pre ++ suf ∧
    concat bs' = pre ++ take n src ++ rest ∧
    (Z.to_nat (size_ st) ≤ length pre)%nat ∧
    (fs_lower st →
       Z.to_nat (size_ st) = length pre ∧
       size_ st + Z.of_nat n > (Z.of_nat (length bs') - 1) * kBlockSize).
Proof.
  intros [Hblk Hsz] Hup Hne Hov. unfold fs_upper, fs_lower, flat in *.
  assert (0 < length src)%nat as Hlen by (destruct src; [done | cbn [length]; lia]).
  pose proof (Z.mod_pos_bound (size_ st) kBlockSize eq_refl) as Hoff.
  pose proof (Z.div_mod (size_ st) kBlockSize) as Hdm.
  unfold AppendRaw_iter.
  set (off := size_ st `mod` kBlockSize) in *.
  set (q := size_ st `div` kBlockSize) in *.
  rewrite kBlockSize_eq in *. specialize (Hdm ltac:(done)).
  clearbody off q.
  destruct (decide (off ≠ 0)) as [Hnz|Hz].
  - destruct (blocks_ st) as [|back bs _] using rev_ind.
    { cbn [length] in Hup. lia. }
    apply Forall_app in Hblk as [Hbs' Hback].
    rewrite Forall_singleton in Hback.
    rewrite length_app in *. cbn [length] in *.
    pose proof (length_concat_blocks _ Hbs') as Hcat.
    set (avail := if decide (8192 - off > Z.of_nat (length src))
                  then Z.of_nat (length src) else 8192 - off).
    assert (0 < avail ≤ Z.of_nat (length src) ∧ avail ≤ 8192 - off) as Hav
      by (unfold avail; clear avail; case_decide; lia).
    clearbody avail.
    rewrite last_snoc. cbn [mbind option_bind].
    assert (length (take (Z.to_nat avail) src) = Z.to_nat avail) as Htk
      by (rewrite length_take; lia).
    unfold memcpy. rewrite Htk, decide_True by lia.
    cbn [mbind option_bind]. rewrite set_back_snoc.
    exists (Z.to_nat avail), (bs ++ [take (Z.to_nat off) back ++ take (Z.to_nat avail) src ++
                                 drop (Z.to_nat off + Z.to_nat avail) back]),
      (concat bs ++ take (Z.to_nat off) back), (drop (Z.to_nat off) back),
      (drop (Z.to_nat off + Z.to_nat avail) back).
    rewrite Z2Nat.id, wrap64_small by lia.
    split_and!.
    + done.
    + lia.
    + lia.
    + apply Forall_app. split; [done|]. apply Forall_singleton.
      rewrite !length_app, Htk, length_take, length_drop. lia.
    + rewrite length_app. cbn [length]. lia.
    + rewrite length_app. cbn [length]. lia.
    + rewrite concat_app. cbn [concat]. rewrite app_nil_r, <- app_assoc.
      by rewrite take_drop.
    + rewrite concat_app. cbn [concat]. by rewrite app_nil_r, <- !app_assoc.
    + rewrite length_app, length_take. lia.
    + intros Hlow. specialize (Hlow ltac:(by destruct bs)).
      rewrite !length_app, length_take. cbn [length]. lia.
  - assert (off = 0) as Hoff0 by lia.
    pose proof (length_concat_blocks _ Hblk) as Hcat.
    set (avail := if decide (8192 > Z.of_nat (length src))
                  then Z.of_nat (length src) else 8192).
    assert (0 < avail ≤ Z.of_nat (length src) ∧ avail ≤ 8192) as Hav
      by (unfold avail; clear avail; case_decide; lia).
    clearbody avail.
    rewrite last_snoc. cbn [mbind option_bind].
    assert (length (take (Z.to_nat avail) src) = Z.to_nat avail) as Htk
      by (rewrite length_take; lia).
    unfold memcpy. rewrite Htk, length_new_block, kBlockSize_eq, decide_True by lia.
    cbn [mbind option_bind]. rewrite set_back_snoc.
    exists (Z.to_nat avail), (blocks_ st ++ [take (Z.to_nat off) new_block ++ take (Z.to_nat avail) src ++
                                 drop (Z.to_nat off + Z.to_nat avail) new_block]),
      (concat (blocks_ st)), [],
      (drop (Z.to_nat off + Z.to_nat avail) new_block).
    rewrite Z2Nat.id, wrap64_small by lia.
    split_and!.
    + done.
    + lia.
    + lia.
    + apply Forall_app. split; [done|]. apply Forall_singleton.
      rewrite !length_app, Htk, length_take, length_drop, length_new_block, kBlockSize_eq. lia.
    + rewrite length_app. cbn [length]. lia.
    + rewrite length_app. cbn [length]. lia.
    + by rewrite app_nil_r.
    + rewrite concat_app. cbn [concat]. by rewrite app_nil_r, Hoff0.
    + lia.
    + intros Hlow. rewrite length_app. cbn [length].
      destruct (blocks_ st) as [|b0 bs0] eqn:Hbs; [cbn [length] in *; lia|].
      specialize (Hlow ltac:(done)). cbn [length] in *. lia.
Qed.

Lemma AppendRaw_loop_eq st src :
  AppendRaw_loop st src =
  match src with
  | [] => Some st
  | _ => '(st', src') ← AppendRaw_iter st src; AppendRaw_loop st' src'
  end.
Proof.
  destruct src as [|c cs]; simp AppendRaw_loop; [done|].
  destruct (inspect _) as [[[st' src']|] Heq]; simp AppendRaw_loop; by rewrite Heq.
Qed.

(** The append loop consumes all of [src]: it never writes below the old
    [size_], and from a state with no unused trailing block it extends the
    content by [src]. *)
Lemma AppendRaw_loop_spec src : ∀ st,
  fs_rep st → fs_upper st → size_ st + Z.of_nat (length src) < 2 ^ 64 →
  ∃ st', AppendRaw_loop st src = Some st' ∧
    refs_ st' = refs_ st ∧
    size_ st' = size_ st + Z.of_nat (length src) ∧
    fs_rep st' ∧ fs_upper st' ∧
    (length (blocks_ st) ≤ length (blocks_ st'))%nat ∧
    take (Z.to_nat (size_ st)) (flat st') = content st ∧
    (fs_lower st → fs_lower st' ∧ content st' = content st ++ src).
Proof.
  induction src as [src IH] using (induction_ltof1 _ (@length cell)).
  unfold ltof in IH. intros st Hrep Hup Hov. rewrite AppendRaw_loop_eq.
  destruct (decide (src = [])) as [->|Hne].
  { exists st. split_and!; try done; try (cbn [length]; lia).
    intros Hlow. by rewrite app_nil_r. }
  destruct (AppendRaw_iter_shape st src Hrep Hup Hne Hov)
    as (n & bs' & pre & suf & rest & Hit & Hn & Hbs' & Hlen & Hup' & Hflat & Hcat & Hpre & Hlow').
  destruct src as [|c cs]; [done|]. rewrite Hit. cbn [mbind option_bind].
  set (src := c :: cs) in *. clearbody src.
  destruct Hrep as [_ Hsz].
  assert (length (drop n src) = length src - n)%nat as Hdrop by apply length_drop.
  assert (length (drop n src) < length src)%nat as Hlt by lia.
  remember {| refs_ := refs_ st; blocks_ := bs'; size_ := size_ st + Z.of_nat n |}
    as st1 eqn:Hst1.
  assert (refs_ st1 = refs_ st ∧ blocks_ st1 = bs' ∧ size_ st1 = size_ st + Z.of_nat n)
    as (Hr1 & Hb1 & Hs1) by by subst st1.
  clear Hst1.
  destruct (IH (drop n src) Hlt st1) as
    (st' & Hloop & Hrefs & Hsize & Hrep' & Hup'' & Hlen' & Hbelow & Hlow'').
  { split; [by rewrite Hb1 | lia]. }
  { unfold fs_upper. by rewrite Hb1, Hs1. }
  { lia. }
  assert (content st1 = take (Z.to_nat (size_ st) + n) (pre ++ take n src ++ rest)) as Hc1.
  { unfold content, flat. rewrite Hb1, Hs1, Hcat. f_equal. lia. }
  assert (content st = take (Z.to_nat (size_ st)) pre) as Hc.
  { unfold content. rewrite Hflat. by rewrite take_app_le. }
  exists st'. split_and!.
  - done.
  - congruence.
  - lia.
  - done.
  - done.
  - rewrite Hb1 in Hlen'. lia.
  - rewrite Hc. rewrite Hs1 in Hbelow.
    replace (Z.to_nat (size_ st)) with (Z.to_nat (size_ st) `min` Z.to_nat (size_ st + Z.of_nat n))%nat
      at 1 by lia.
    rewrite <- take_take, Hbelow, Hc1, take_take.
    replace (Z.to_nat (size_ st) `min` (Z.to_nat (size_ st) + n))%nat
      with (Z.to_nat (size_ st)) by lia.
    by rewrite take_app_le.
  - intros Hlow. destruct (Hlow' Hlow) as [Heq Hlow1].
    destruct Hlow'' as [Hlow2 Hcont]; [unfold fs_lower; rewrite Hb1, Hs1; by intros _|].
    split; [done|]. rewrite Hcont, Hc, Hc1, Heq.
    rewrite firstn_all, take_app_add', <- app_assoc by done.
    rewrite take_app_length' by (rewrite length_take; lia).
    by rewrite take_drop.
Qed.

Lemma Read_loop_eq blocks scratch bytes_to_copy dst block block_offset :
  Read_loop blocks scratch bytes_to_copy dst block block_offset =
  if decide (bytes_to_copy > 0) then
    '(scratch', avail) ← Read_iter blocks scratch bytes_to_copy dst block block_offset;
    if decide (0 < avail)
    then Read_loop blocks scratch' (bytes_to_copy - avail) (dst + avail) (block + 1) 0
    else None
  else Some scratch.
Proof.
  simp Read_loop. destruct (decide (bytes_to_copy > 0)); simp Read_loop; [|done].
  destruct (inspect _) as [[[scratch' avail]|] Heq]; simp Read_loop; [|by rewrite Heq].
  destruct (decide (0 < avail)) as [Hp|Hp]; simp Read_loop; rewrite Heq;
    cbn [mbind option_bind];
    [rewrite decide_True by done; by simp Read_loop | by rewrite decide_False].
Qed.

Lemma index_Some {A} (v : list A) (i : Z) :
  0 ≤ i < Z.of_nat (length v) → ∃ x, index v i = Some x ∧ v !! Z.to_nat i = Some x.
Proof.
  intros Hi. unfold index. rewrite decide_True by lia.
  destruct (lookup_lt_is_Some_2 v (Z.to_nat i)) as [x Hx]; [lia|]. eauto.
Qed.

(** The copy loop moves [bytes_to_copy] consecutive bytes of the concatenated
    blocks into [scratch] at [dst]. *)
Lemma Read_loop_spec (k : nat) : ∀ blocks scratch bytes_to_copy dst block block_offset,
  (Z.to_nat bytes_to_copy ≤ k)%nat →
  Forall (λ blk : list cell, length blk = Z.to_nat kBlockSize) blocks →
  0 ≤ block_offset < kBlockSize → 0 ≤ block → 0 ≤ dst → 0 ≤ bytes_to_copy →
  block * kBlockSize + block_offset + bytes_to_copy
    ≤ Z.of_nat (length blocks) * kBlockSize →
  dst + bytes_to_copy ≤ Z.of_nat (length scratch) →
  Read_loop blocks scratch bytes_to_copy dst block block_offset =
  Some (take (Z.to_nat dst) scratch ++
        take (Z.to_nat bytes_to_copy)
             (drop (Z.to_nat (block * kBlockSize + block_offset)) (concat blocks)) ++
        drop (Z.to_nat (dst + bytes_to_copy)) scratch).
Proof.
  induction k as [|k IH]; intros blocks scratch bytes dst block bo Hk Hblk Hbo Hblock
    Hdst Hbytes Hin Hcap; rewrite Read_loop_eq.
  { rewrite decide_False by lia. replace bytes with 0 by lia.
    rewrite Z.add_0_r, Z2Nat.inj_0, take_0. cbn [app]. by rewrite take_drop. }
  destruct (decide (bytes > 0)) as [Hgt|Hle].
  2:{ replace bytes with 0 by lia.
      rewrite Z.add_0_r, Z2Nat.inj_0, take_0. cbn [app]. by rewrite take_drop. }
  rewrite kBlockSize_eq in *.
  destruct (index_Some blocks block) as (blk & Hidx & Hlk); [lia|].
  assert (length blk = Z.to_nat 8192) as Hlen by apply (Forall_lookup_1 _ _ _ _ Hblk Hlk).
  unfold Read_iter. rewrite kBlockSize_eq, wrap64_small by lia.
  remember (if decide (8192 - bo > bytes) then bytes else 8192 - bo) as avail eqn:Hav.
  assert (0 < avail ≤ bytes ∧ avail ≤ 8192 - bo ∧ (avail = bytes ∨ avail = 8192 - bo))
    as Havail by (subst avail; case_decide; lia).
  clear Hav. rewrite Hidx. cbn [mbind option_bind].
  unfold peek. rewrite decide_True by lia. cbn [mbind option_bind].
  assert (Z.to_nat (block * 8192 + bo) = Z.to_nat block * Z.to_nat 8192 + Z.to_nat bo)%nat
    as Hpos by lia.
  rewrite <- (take_drop_concat_uniform (Z.to_nat 8192) blocks (Z.to_nat block) blk)
    by (done || lia).
  rewrite <- Hpos.
  remember (drop (Z.to_nat (block * 8192 + bo)) (concat blocks)) as L eqn:HL0.
  assert (bytes ≤ Z.of_nat (length L)) as HL.
  { rewrite HL0, length_drop.
    pose proof (length_concat_blocks _ Hblk). lia. }
  assert (length (take (Z.to_nat avail) L) = Z.to_nat avail) as Htk
    by (rewrite length_take; lia).
  unfold memcpy. rewrite Htk, decide_True by lia. cbn [mbind option_bind].
  rewrite decide_True by lia.
  rewrite IH; [| lia | done | lia | lia | lia | lia | lia |].
  2:{ rewrite !length_app, Htk, length_take, length_drop. lia. }
  f_equal. rewrite Z.add_0_r.
  rewrite (app_assoc (take (Z.to_nat dst) scratch)).
  assert (length (take (Z.to_nat dst) scratch ++ take (Z.to_nat avail) L)
          = Z.to_nat (dst + avail)) as Hpre
    by (rewrite length_app, Htk, length_take; lia).
  rewrite take_app_length' by done.
  replace (Z.to_nat (dst + avail + (bytes - avail)))
    with (length (take (Z.to_nat dst) scratch ++ take (Z.to_nat avail) L)
          + Z.to_nat (bytes - avail))%nat by lia.
  rewrite drop_app_add, drop_drop, <- !app_assoc.
  f_equal. rewrite !app_assoc. f_equal; [|f_equal; lia].
  destruct Havail as (Ha1 & Ha2 & [->| ->]).
  - by rewrite Z.sub_diag, Z2Nat.inj_0, take_0, app_nil_r.
  - replace (Z.to_nat ((block + 1) * 8192))
      with (Z.to_nat (block * 8192 + bo) + Z.to_nat (8192 - bo))%nat
      by (clear -Hbo Hblock; lia).
    rewrite <- drop_drop, <- HL0, take_take_drop. f_equal. lia.
Qed.

Lemma take_drop_take {A} (l : list A) (n o s : nat) :
  (o ≤ s)%nat → take n (drop o (take s l)) = take (n `min` (s - o)) (drop o l).
Proof.
  intros Hos. replace s with (o + (s - o))%nat at 1 by lia.
  by rewrite <- take_drop_commute, take_take.
Qed.

(** [Read] at an offset within the file; when the range does not end in the
    block where it starts, the scratch buffer must hold the clamped length. *)
Lemma Read_spec st offset n result scratch :
  fs_rep st → fs_upper st → size_ st < 2 ^ 64 →
  0 ≤ offset ≤ size_ st → 0 ≤ n →
  (Read_data offset (Z.min n (size_ st - offset)) = SliceScratch →
   Z.min n (size_ st - offset) ≤ Z.of_nat (length scratch)) →
  ∃ sl scratch',
    Read st offset n result scratch = Some (OK, sl, scratch') ∧
    slice_size sl = Z.min n (size_ st - offset) ∧
    data_ sl = Read_data offset (Z.min n (size_ st - offset)) ∧
    (data_ sl ≠ SliceScratch → scratch' = scratch) ∧
    slice_bytes st scratch' sl =
      Some (take (Z.to_nat n) (drop (Z.to_nat offset) (content st))).
Proof.
  intros [Hblk Hsz] Hup Hmax Hoff Hn Hcap. unfold fs_upper in Hup.
  pose proof (length_concat_blocks _ Hblk) as Hcat.
  assert (Z.min n (size_ st - offset) ≠ 0 →
          ¬ Z.min n (size_ st - offset) ≤ kBlockSize - offset `mod` kBlockSize →
          Z.min n (size_ st - offset) ≤ Z.of_nat (length scratch)) as Hcap'.
  { intros H1 H2. apply Hcap. unfold Read_data. by rewrite !decide_False. }
  clear Hcap.
  assert (take (Z.to_nat n) (drop (Z.to_nat offset) (content st)) =
          take (Z.to_nat (Z.min n (size_ st - offset)))
               (drop (Z.to_nat offset) (concat (blocks_ st)))) as ->.
  { unfold content, flat. rewrite take_drop_take by lia. f_equal. lia. }
  unfold Read, Read_data. rewrite decide_False by lia.
  rewrite wrap64_small by lia.
  remember (if decide (n > size_ st - offset) then size_ st - offset else n) as n' eqn:Hn'.
  assert (n' = Z.min n (size_ st - offset)) as -> by (subst n'; case_decide; lia).
  clear Hn'. set (n' := Z.min n (size_ st - offset)) in *.
  assert (0 ≤ n' ∧ offset + n' ≤ size_ st) as Hn' by (unfold n'; lia).
  clearbody n'.
  destruct (decide (n' = 0)) as [->|Hnz].
  { eexists _, _. by split_and!. }
  pose proof (Z.mod_pos_bound offset kBlockSize eq_refl) as Hbo.
  pose proof (Z.div_mod offset kBlockSize) as Hdm.
  remember (offset `mod` kBlockSize) as bo eqn:Ebo in *.
  remember (offset `div` kBlockSize) as q eqn:Eq in *.
  rewrite kBlockSize_eq in *. specialize (Hdm ltac:(done)). clear Ebo Eq.
  assert (Z.to_nat offset = Z.to_nat q * Z.to_nat 8192 + Z.to_nat bo)%nat as Hpos by lia.
  destruct (index_Some (blocks_ st) q) as (blk & Hidx & Hlk); [lia|].
  assert (length blk = Z.to_nat 8192) as Hlen by apply (Forall_lookup_1 _ _ _ _ Hblk Hlk).
  destruct (decide (n' ≤ 8192 - bo)) as [Hone|Hmany]; [|specialize (Hcap' Hnz Hmany)].
  - rewrite Hidx. cbn [mbind option_bind].
    eexists _, _. split_and!; try done.
    unfold slice_bytes, peek. cbn [data_ slice_size].
    rewrite Hidx. cbn [mbind option_bind]. rewrite decide_True by lia.
    f_equal. rewrite Hpos. symmetry.
    apply take_drop_concat_uniform; [done | done | lia].
  - rewrite (Read_loop_spec (Z.to_nat n'))
      by (rewrite ?kBlockSize_eq; first [done | lia]).
    cbn [mbind option_bind]. eexists _, _. split_and!; try done.
    unfold slice_bytes, peek. cbn [data_ slice_size].
    rewrite Z2Nat.inj_0, take_0, kBlockSize_eq. cbn [app].
    set (L := drop (Z.to_nat (q * 8192 + bo)) (concat (blocks_ st))).
    assert (length (take (Z.to_nat n') L) = Z.to_nat n') as Htk.
    { rewrite length_take. unfold L. rewrite length_drop. lia. }
    rewrite decide_True by (rewrite length_app, Htk; lia).
    f_equal. rewrite drop_0, take_app_length' by done.
    unfold L. do 2 f_equal. lia.
Qed.

Lemma AppendRaw_spec st src :
  fs_rep st → fs_upper st → size_ st + Z.of_nat (length src) < 2 ^ 64 →
  ∃ st', AppendRaw st src = Some (OK, st') ∧
    refs_ st' = refs_ st ∧
    size_ st' = size_ st + Z.of_nat (length src) ∧
    fs_rep st' ∧ fs_upper st' ∧
    (length (blocks_ st) ≤ length (blocks_ st'))%nat ∧
    take (Z.to_nat (size_ st)) (flat st') = content st ∧
    (fs_lower st → fs_lower st' ∧ content st' = content st ++ src).
Proof.
  intros Hrep Hup Hov.
  destruct (AppendRaw_loop_spec src st Hrep Hup Hov) as (st' & Hloop & H).
  exists st'. unfold AppendRaw. by rewrite Hloop.
Qed.

Lemma Append_spec st data :
  fs_rep st → fs_upper st → size_ st + Z.of_nat (length data) < 2 ^ 64 →
  ∃ st', Append st data = Some (OK, st') ∧
    refs_ st' = refs_ st ∧
    size_ st' = size_ st + Z.of_nat (length data) ∧
    fs_rep st' ∧ fs_upper st' ∧
    (length (blocks_ st) ≤ length (blocks_ st'))%nat ∧
    take (Z.to_nat (size_ st)) (flat st') = content st ∧
    (fs_lower st → fs_lower st' ∧ content st' = content st ++ (Some <$> data)).
Proof.
  intros Hrep Hup Hov. unfold Append.
  rewrite <- (length_fmap Some data) in *. by apply AppendRaw_spec.
Qed.

Lemma content_prefix st st' :
  fs_rep st → size_ st ≤ size_ st' →
  take (Z.to_nat (size_ st)) (flat st') = content st →
  take (Z.to_nat (size_ st)) (content st') = content st.
Proof.
  intros [_ Hsz] Hle Hpre. unfold content at 1. rewrite take_take.
  by replace (Z.to_nat (size_ st) `min` Z.to_nat (size_ st'))%nat
    with (Z.to_nat (size_ st)) by lia.
Qed.

Lemma AppendVector_spec data_vector : ∀ st,
  fs_rep st → fs_upper st →
  size_ st + Z.of_nat (length (concat data_vector)) < 2 ^ 64 →
  ∃ st', AppendVector st data_vector = Some (OK, st') ∧
    refs_ st' = refs_ st ∧
    size_ st' = size_ st + Z.of_nat (length (concat data_vector)) ∧
    fs_rep st' ∧ fs_upper st' ∧
    (length (blocks_ st) ≤ length (blocks_ st'))%nat ∧
    take (Z.to_nat (size_ st)) (flat st') = content st ∧
    (fs_lower st →
       fs_lower st' ∧ content st' = content st ++ (Some <$> concat data_vector)).
Proof.
  induction data_vector as [|data rest IH]; intros st Hrep Hup Hov.
  { exists st. cbn [AppendVector concat length fmap list_fmap].
    split_and!; try done; try lia. intros Hlow. by rewrite app_nil_r. }
  cbn [concat] in *. rewrite length_app in Hov.
  destruct (Append_spec st data Hrep Hup ltac:(lia))
    as (st1 & Happ & Hr1 & Hs1 & Hrep1 & Hup1 & Hl1 & Hpre1 & Hlow1).
  destruct (IH st1 Hrep1 Hup1 ltac:(lia))
    as (st' & Hvec & Hr & Hs & Hrep' & Hup' & Hl & Hpre & Hlow).
  exists st'. cbn [AppendVector]. rewrite Happ. cbn [mbind option_bind ok].
  split_and!; try done; try apply Hrep';
    [congruence | rewrite length_app; lia | lia | |].
  - pose proof Hrep as [_ Hsz].
    replace (Z.to_nat (size_ st)) with (Z.to_nat (size_ st) `min` Z.to_nat (size_ st1))%nat
      at 1 by lia.
    rewrite <- take_take, Hpre. apply content_prefix; [done | lia | done].
  - intros Hlow0. destruct (Hlow1 Hlow0) as [Hlow1' Hc1].
    destruct (Hlow Hlow1') as [Hlow' Hc]. split; [done|].
    by rewrite Hc, Hc1, fmap_app, <- app_assoc.
Qed.

(** [memset_first_byte] leaves an address as it is exactly when its low byte
    is zero. *)
Lemma memset_first_byte_id p : memset_first_byte p = p ↔ p `mod` 256 = 0.
Proof.
  unfold memset_first_byte. change 256 with (2 ^ 8).
  rewrite <- Z.land_ones by lia. change (Z.ones 8) with 255. split; intros H.
  - rewrite <- H. apply Z.bits_inj'. intros n Hn.
    rewrite Z.land_spec, Z.ldiff_spec, Z.bits_0.
    by destruct (Z.testbit p n), (Z.testbit 255 n).
  - apply Z.bits_inj'. intros n Hn. rewrite Z.ldiff_spec.
    assert (Z.testbit (Z.land p 255) n = false) as Hb by (by rewrite H, Z.bits_0).
    rewrite Z.land_spec in Hb.
    by destruct (Z.testbit p n), (Z.testbit 255 n).
Qed.

(** [PreAllocate] is undefined when the array is at an address whose low byte
    is not zero. *)
Lemma PreAllocate_misaligned st size padding :
  padding `mod` 256 ≠ 0 → PreAllocate st size padding = None.
Proof.
  intros Hp. unfold PreAllocate. rewrite decide_False; [done|].
  by rewrite memset_first_byte_id.
Qed.

Lemma PreAllocate_returned st size padding r :
  PreAllocate st size padding = Some r → padding `mod` 256 = 0.
Proof.
  intros H. destruct (decide (padding `mod` 256 = 0)) as [|Hp]; [done|].
  by rewrite (PreAllocate_misaligned _ _ _ Hp) in H.
Qed.

Lemma Writable_PreAllocate_returned wv size padding w r :
  Writable_PreAllocate wv size padding w = Some r → padding `mod` 256 = 0.
Proof.
  unfold Writable_PreAllocate, on_file. intros H.
  destruct (heap w !! wr_file_ wv) as [st|]; [|done]. cbn [mbind option_bind] in H.
  destruct (PreAllocate st size padding) as [r'|] eqn:Hpre; [|done].
  by apply (PreAllocate_returned _ _ _ _ Hpre).
Qed.

(** [PreAllocate] on a file whose size stays a [uint64_t], with the array at
    an address whose low byte is zero: the size and the bytes below it are as
    before, the blocks now cover [size_ + size] bytes. *)
Lemma PreAllocate_spec st size padding :
  fs_rep st → fs_upper st → 0 ≤ size → size_ st + size < 2 ^ 64 →
  padding `mod` 256 = 0 →
  ∃ st', PreAllocate st size padding = Some (OK, st') ∧
    refs_ st' = refs_ st ∧ size_ st' = size_ st ∧
    fs_rep st' ∧ fs_upper st' ∧
    (length (blocks_ st) ≤ length (blocks_ st'))%nat ∧
    size_ st + size ≤ Z.of_nat (length (blocks_ st')) * kBlockSize ∧
    content st' = content st.
Proof.
  intros Hrep Hup Hsize Hov Hp. unfold PreAllocate.
  rewrite decide_True by (by rewrite memset_first_byte_id).
  destruct (AppendRaw_spec st (replicate (Z.to_nat size) None) Hrep Hup)
    as (st1 & Happ & Hr1 & Hs1 & [Hblk1 Hsz1] & Hup1 & Hl1 & Hpre1 & _).
  { rewrite length_replicate. lia. }
  rewrite length_replicate in Hs1. destruct Hrep as [_ Hsz].
  rewrite Happ. cbn [mbind option_bind].
  eexists. split; [done|]. cbn [refs_ blocks_ size_].
  replace (size_ st1 - size) with (size_ st) by lia.
  rewrite wrap64_small by lia. unfold fs_rep, fs_upper, content, flat in *.
  cbn [refs_ blocks_ size_]. split_and!; try done; lia.
Qed.

Lemma append_op_spec op st :
  fs_rep st → fs_upper st → fs_lower st →
  size_ st + Z.of_nat (length (appended op)) < 2 ^ 64 →
  ∃ st', append_op op st = Some (OK, st') ∧
    refs_ st' = refs_ st ∧
    size_ st' = size_ st + Z.of_nat (length (appended op)) ∧
    fs_rep st' ∧ fs_upper st' ∧ fs_lower st' ∧
    content st' = content st ++ (Some <$> appended op).
Proof.
  intros Hrep Hup Hlow Hov. destruct op as [data|data_vector]; cbn [append_op appended] in *.
  - destruct (Append_spec st data Hrep Hup Hov)
      as (st' & ? & ? & ? & ? & ? & _ & _ & Hl).
    destruct (Hl Hlow). by exists st'.
  - destruct (AppendVector_spec data_vector st Hrep Hup Hov)
      as (st' & ? & ? & ? & ? & ? & _ & _ & Hl).
    destruct (Hl Hlow). by exists st'.
Qed.

Lemma appended_length_nonneg ops : 0 ≤ appended_length ops.
Proof.
  induction ops as [|op ops IH]; [done|].
  change (0 ≤ Z.of_nat (length (appended op)) + appended_length ops). lia.
Qed.

Lemma append_ops_spec ops : ∀ st,
  fs_rep st → fs_upper st → fs_lower st →
  size_ st + appended_length ops < 2 ^ 64 →
  ∃ ss st', append_ops ops st = Some (ss, st') ∧
    Forall (λ s, s = OK) ss ∧ length ss = length ops ∧
    refs_ st' = refs_ st ∧
    size_ st' = size_ st + appended_length ops ∧
    fs_rep st' ∧ fs_upper st' ∧ fs_lower st' ∧
    content st' = content st ++ (Some <$> concat (appended <$> ops)).
Proof.
  induction ops as [|op ops IH]; intros st Hrep Hup Hlow Hov.
  { exists [], st. cbn [append_ops appended_length foldr fmap list_fmap concat length].
    rewrite app_nil_r, Z.add_0_r. by split_and!. }
  cbn [appended_length foldr] in Hov. fold (appended_length ops) in Hov.
  pose proof (appended_length_nonneg ops) as Hnn.
  destruct (append_op_spec op st Hrep Hup Hlow ltac:(lia))
    as (st1 & Hop & Hr1 & Hs1 & Hrep1 & Hup1 & Hlow1 & Hc1).
  destruct (IH st1 Hrep1 Hup1 Hlow1 ltac:(lia))
    as (ss & st' & Hops & Hss & Hlen & Hr & Hs & Hrep' & Hup' & Hlow' & Hc).
  exists (OK :: ss), st'. cbn [append_ops]. rewrite Hop. cbn [mbind option_bind].
  rewrite Hops. cbn [mbind option_bind].
  split; [done|]. split; [by constructor|]. split; [cbn [length]; lia|].
  split; [congruence|].
  split; [cbn [appended_length foldr]; fold (appended_length ops); lia|].
  do 3 (split; [done|]).
  rewrite Hc, Hc1. cbn [fmap list_fmap concat]. by rewrite fmap_app, <- app_assoc.
Qed.

Lemma created_inv refs :
  fs_rep (created refs) ∧ fs_upper (created refs) ∧ fs_lower (created refs) ∧
  content (created refs) = [].
Proof.
  unfold fs_rep, fs_upper, fs_lower, content, flat. cbn [created refs_ blocks_ size_ length concat].
  by split_and!.
Qed.

Lemma AppendVector_append_each items : ∀ st,
  AppendVector st items = (λ st', (OK, st')) <$> append_each st items.
Proof.
  induction items as [|data rest IH]; intros st; [done|].
  cbn [AppendVector append_each]. unfold Append, AppendRaw.
  destruct (AppendRaw_loop st (Some <$> data)) as [st'|]; [|done].
  cbn [mbind option_bind ok]. apply IH.
Qed.

(** C9: starting from a newly created file, every call in a sequence of
    appends and batch appends returns OK, and the final size is the sum of
    the lengths of the inputs, provided that sum is a [uint64_t]; a batch
    append on any file does what one [Append] per item, in order, does. *)
Theorem appends_sum_of_lengths (ops : list AppendOp) (refs : Z) :
  appended_length ops < 2 ^ 64 →
  (∃ ss st', append_ops ops (created refs) = Some (ss, st') ∧
     Forall (λ s, s = OK) ss ∧ length ss = length ops ∧
     size_ st' = appended_length ops) ∧
  (∀ st items,
     AppendVector st items = (λ st', (OK, st')) <$> append_each st items).
Proof.
  intros Hov. destruct (created_inv refs) as (Hrep & Hup & Hlow & _).
  split; [|intros st items; apply AppendVector_append_each].
  destruct (append_ops_spec ops (created refs) Hrep Hup Hlow)
    as (ss & st' & Hops & Hss & Hlen & _ & Hs & _); [cbn [created size_]; lia|].
  exists ss, st'. cbn [created size_] in Hs. split_and!; first [done | lia].
Qed.

Lemma appends_sum_of_lengths_witness :
  appended_length sample_ops < 2 ^ 64 ∧
  ((∃ ss st', append_ops sample_ops (created 2) = Some (ss, st') ∧
      Forall (λ s, s = OK) ss ∧ length ss = length sample_ops ∧
      size_ st' = appended_length sample_ops) ∧
   (∀ st items,
      AppendVector st items = (λ st', (OK, st')) <$> append_each st items)).
Proof.
  split; [by vm_compute|]. apply (appends_sum_of_lengths sample_ops 2). by vm_compute.
Defined.

(** C1: on a file built from its creation by appends and batch appends,
    [Read] at an offset up to the size returns OK and a slice of exactly
    [min (n, size - offset)] bytes, which are the bytes appended at that
    range; the slice views the block holding [offset] when the range ends
    within that block (scratch is then untouched), and the scratch buffer
    otherwise, which must then hold the clamped length. *)
Theorem Read_returns_appended_bytes (ops : list AppendOp) (refs : Z)
    (offset n : Z) (result : Slice) (scratch : list cell) :
  appended_length ops < 2 ^ 64 →
  0 ≤ offset ≤ appended_length ops → 0 ≤ n →
  (Read_data offset (Z.min n (appended_length ops - offset)) = SliceScratch →
   Z.min n (appended_length ops - offset) ≤ Z.of_nat (length scratch)) →
  ∃ ss st' sl scratch',
    append_ops ops (created refs) = Some (ss, st') ∧
    size_ st' = appended_length ops ∧
    Read st' offset n result scratch = Some (OK, sl, scratch') ∧
    slice_size sl = Z.min n (size_ st' - offset) ∧
    slice_bytes st' scratch' sl =
      Some (Some <$> take (Z.to_nat n)
                          (drop (Z.to_nat offset) (concat (appended <$> ops)))) ∧
    data_ sl = Read_data offset (slice_size sl) ∧
    (data_ sl ≠ SliceScratch → scratch' = scratch).
Proof.
  intros Hov Hoff Hn Hcap. destruct (created_inv refs) as (Hrep & Hup & Hlow & Hnil).
  destruct (append_ops_spec ops (created refs) Hrep Hup Hlow)
    as (ss & st' & Hops & _ & _ & _ & Hs & Hrep' & Hup' & _ & Hc);
    [cbn [created size_]; lia|].
  cbn [created size_] in Hs. rewrite Z.add_0_l in Hs. rewrite Hnil in Hc. cbn [app] in Hc.
  destruct (Read_spec st' offset n result scratch Hrep' Hup')
    as (sl & scratch' & Hread & Hsz & Hdata & Hscr & Hbytes);
    [lia | lia | lia | by rewrite Hs |].
  exists ss, st', sl, scratch'. split_and!; try done.
  - by rewrite Hbytes, Hc, fmap_take, fmap_drop.
  - by rewrite Hsz.
Qed.

Lemma Read_returns_appended_bytes_witness :
  (appended_length sample_ops < 2 ^ 64 ∧
   0 ≤ 8188 ≤ appended_length sample_ops ∧ 0 ≤ 10 ∧
   (Read_data 8188 (Z.min 10 (appended_length sample_ops - 8188)) = SliceScratch →
    Z.min 10 (appended_length sample_ops - 8188)
      ≤ Z.of_nat (length (replicate 10 (None : cell))))) ∧
  ∃ ss st' sl scratch',
    append_ops sample_ops (created 2) = Some (ss, st') ∧
    size_ st' = appended_length sample_ops ∧
    Read st' 8188 10 (mkSlice SliceEmpty 0) (replicate 10 None)
      = Some (OK, sl, scratch') ∧
    slice_size sl = Z.min 10 (size_ st' - 8188) ∧
    slice_bytes st' scratch' sl =
      Some (Some <$> take (Z.to_nat 10)
                          (drop (Z.to_nat 8188) (concat (appended <$> sample_ops)))) ∧
    data_ sl = Read_data 8188 (slice_size sl) ∧
    (data_ sl ≠ SliceScratch → scratch' = replicate 10 None).
Proof.
  split; [by vm_compute|].
  apply (Read_returns_appended_bytes sample_ops 2 8188 10); by vm_compute.
Defined.

(** C2: [Read] at [offset = size] returns OK and an empty slice, for every
    length [n] of type [size_t]; [Read] at an offset greater than the size
    returns the IOError status and leaves [*result] and the scratch buffer as
    they were.  [Read] is a [const] method: it has no new file state to
    return. *)
Theorem Read_at_size_and_beyond (st : FileState) (offset n : Z)
    (result : Slice) (scratch : list cell) :
  0 ≤ n →
  Read st (size_ st) n result scratch
    = Some (OK, {| data_ := SliceEmpty; slice_size := 0 |}, scratch) ∧
  (size_ st < offset →
   Read st offset n result scratch
     = Some (IOError "Offset greater than file size." "", result, scratch)).
Proof.
  intros Hn. unfold Read. split.
  - rewrite decide_False by lia. rewrite Z.sub_diag.
    change (wrap64 0) with 0.
    destruct (decide (n > 0)); [done|]. by rewrite decide_True by lia.
  - intros Hoff. by rewrite decide_True by lia.
Qed.

Lemma Read_at_size_and_beyond_witness :
  0 ≤ 7 ∧
  Read (created 1) (size_ (created 1)) 7 (mkSlice SliceScratch 3) []
    = Some (OK, {| data_ := SliceEmpty; slice_size := 0 |}, []) ∧
  (size_ (created 1) < 1 →
   Read (created 1) 1 7 (mkSlice SliceScratch 3) []
     = Some (IOError "Offset greater than file size." "", mkSlice SliceScratch 3, [])).
Proof.
  split; [lia|]. apply (Read_at_size_and_beyond (created 1) 1 7). lia.
Defined.

(** The bounds under the content operations.  On a file whose blocks are
    whole and whose size stays a [uint64_t], [Append] and [AppendVector]
    return OK and preserve both [size <= blocks.length * blockSize] and, for
    non-empty [blocks], [size > (blocks.length - 1) * blockSize]; a
    [PreAllocate] that returns keeps the size and the first bound, and makes
    the blocks cover [size + n] bytes.  ([Read] is [const].) *)
Lemma content_operations_preserve_bounds (st : FileState)
    (data : list Byte.byte) (data_vector : list (list Byte.byte))
    (size padding : Z) :
  fs_rep st → fs_upper st →
  size_ st + Z.of_nat (length data) < 2 ^ 64 →
  size_ st + Z.of_nat (length (concat data_vector)) < 2 ^ 64 →
  0 ≤ size → size_ st + size < 2 ^ 64 →
  (∃ st', Append st data = Some (OK, st') ∧
     fs_rep st' ∧ fs_upper st' ∧ (fs_lower st → fs_lower st')) ∧
  (∃ st', AppendVector st data_vector = Some (OK, st') ∧
     fs_rep st' ∧ fs_upper st' ∧ (fs_lower st → fs_lower st')) ∧
  (∀ r, PreAllocate st size padding = Some r →
     ∃ st', r = (OK, st') ∧
       fs_rep st' ∧ fs_upper st' ∧ size_ st' = size_ st ∧
       size_ st + size ≤ Z.of_nat (length (blocks_ st')) * kBlockSize).
Proof.
  intros Hrep Hup Hov1 Hov2 Hsize Hov3. split_and!.
  - destruct (Append_spec st data Hrep Hup Hov1)
      as (st' & ? & _ & _ & ? & ? & _ & _ & Hl).
    exists st'. split_and!; try done. intros Hlow. by destruct (Hl Hlow).
  - destruct (AppendVector_spec data_vector st Hrep Hup Hov2)
      as (st' & ? & _ & _ & ? & ? & _ & _ & Hl).
    exists st'. split_and!; try done. intros Hlow. by destruct (Hl Hlow).
  - intros r Hr. pose proof (PreAllocate_returned _ _ _ _ Hr) as Hp.
    destruct (PreAllocate_spec st size padding Hrep Hup Hsize Hov3 Hp)
      as (st' & Hpre & _ & ? & ? & ? & _ & ? & _).
    exists st'. split; [congruence|]. by split_and!.
Qed.

(** C4: [PreAllocate] breaks the second bound.  A new file meets both bounds.
    [PreAllocate] of one byte on it, with the array at an address whose low
    byte is zero, returns OK and leaves one block and size 0: a wholly unused
    trailing block.  [AppendRaw] takes [size_ % kBlockSize == 0] to mean that
    the last block has no room, so the next [Append] pushes a second block
    and the three bytes appended are not the bytes read back at offset 0.
    With the array at any other address the call is undefined. *)
Theorem PreAllocate_leaves_unused_block :
  fs_rep FileState_new ∧ fs_upper FileState_new ∧ fs_lower FileState_new ∧
  (∃ st', PreAllocate FileState_new 1 4096 = Some (OK, st') ∧
          length (blocks_ st') = 1%nat ∧ size_ st' = 0 ∧ ¬ fs_lower st' ∧
          ∃ st'' sl scratch',
            Append st' [Byte.x62; Byte.x62; Byte.x62] = Some (OK, st'') ∧
            size_ st'' = 3 ∧ length (blocks_ st'') = 2%nat ∧
            Read st'' 0 3 (mkSlice SliceEmpty 0) [] = Some (OK, sl, scratch') ∧
            slice_bytes st'' scratch' sl = Some [None; None; None]) ∧
  PreAllocate FileState_new 1 4097 = None.
Proof.
  split; [done|]. split; [done|]. split; [done|]. split; [|by vm_compute].
  eexists. split; [by vm_compute|]. split; [done|]. split; [done|]. split.
  - unfold fs_lower. cbn [blocks_ size_ length]. intros H.
    specialize (H ltac:(done)). rewrite kBlockSize_eq in H. lia.
  - eexists _, _, _. split; [by vm_compute|]. split; [by vm_compute|].
    split; [by vm_compute|]. split; [by vm_compute|]. by vm_compute.
Qed.

(** C5: [PreAllocate] does not append zero bytes.  On a file holding the one
    byte 0x61, [PreAllocate(2)] with the array at an address whose low byte is
    zero returns OK and leaves the size at 1; the two bytes after the first
    are indeterminate, not zero.  With the array at any other address, here
    one that is 16-byte aligned, the call is undefined. *)
Theorem PreAllocate_padding_not_zero :
  ∃ st,
    Append (created 1) [Byte.x61] = Some (OK, st) ∧
    (∃ st', PreAllocate st 2 4096 = Some (OK, st') ∧
            size_ st' = 1 ∧
            take 3 (flat st') = [Some Byte.x61; None; None] ∧
            take 3 (flat st') ≠ [Some Byte.x61; Some Byte.x00; Some Byte.x00]) ∧
    PreAllocate st 2 4112 = None.
Proof.
  eexists. split; [by vm_compute|]. split; [|by vm_compute].
  eexists. split; [by vm_compute|].
  split; [done|]. split; [by vm_compute|]. by vm_compute.
Qed.

(** After [PreAllocate], [AppendRaw] writes into [blocks_.back()], which is
    the reserved block and not the block that holds position [size_]: the
    bytes appended are not the bytes read back. *)
Example Append_after_PreAllocate_misplaced :
  ∃ st st' sl scratch',
    PreAllocate (created 1) 3 4096 = Some (OK, st) ∧
    Append st [Byte.x62; Byte.x62; Byte.x62] = Some (OK, st') ∧
    size_ st' = 3 ∧ length (blocks_ st') = 2%nat ∧
    Read st' 0 3 (mkSlice SliceEmpty 0) [] = Some (OK, sl, scratch') ∧
    slice_bytes st' scratch' sl = Some [None; None; None].
Proof.
  eexists _, _, _, _. split; [by vm_compute|]. split; [by vm_compute|].
  split; [by vm_compute|]. split; [by vm_compute|].
  split; [by vm_compute|]. by vm_compute.
Qed.

(** * Properties of the file map *)

(** ** Strings *)

Lemma append_cons (x : ascii) (a b : string) : String x a +:+ b = String x (a +:+ b).
Proof. reflexivity. Qed.

Lemma append_nil (b : string) : "" +:+ b = b.
Proof. reflexivity. Qed.

Lemma string_app_assoc (a b c : string) : (a +:+ b) +:+ c = a +:+ (b +:+ c).
Proof. induction a as [|x a IH]; [done|]. rewrite !append_cons. by f_equal. Qed.

Lemma string_length_app (a b : string) :
  String.length (a +:+ b) = (String.length a + String.length b)%nat.
Proof.
  induction a as [|x a IH]; [done|]. rewrite append_cons. cbn [String.length]. lia.
Qed.

Lemma prefix_app (p r : string) : String.prefix p (p +:+ r) = true.
Proof.
  induction p as [|x p IH]; [by destruct r|].
  rewrite append_cons. cbn [String.prefix]. by destruct (ascii_dec x x).
Qed.

Lemma prefix_inv (p s : string) : String.prefix p s = true → ∃ r, s = p +:+ r.
Proof.
  revert s. induction p as [|x p IH]; intros s Hp; [by exists s|].
  destruct s as [|y s]; [done|]. cbn [String.prefix] in Hp.
  destruct (ascii_dec x y) as [->|]; [|done].
  destruct (IH s Hp) as [r ->]. by exists r.
Qed.

Lemma prefix_length (p s : string) :
  String.prefix p s = true → (String.length p ≤ String.length s)%nat.
Proof. intros [r ->]%prefix_inv. rewrite string_length_app. lia. Qed.

Lemma substring_all (s : string) : String.substring 0 (String.length s) s = s.
Proof. induction s as [|x s IH]; [done|]. cbn [String.length String.substring]. by rewrite IH. Qed.

Lemma substr_app (p r : string) : substr (p +:+ r) (String.length p) = r.
Proof.
  unfold substr. rewrite string_length_app.
  replace (String.length p + String.length r - String.length p)%nat
    with (String.length r) by lia.
  induction p as [|x p IH]; [apply substring_all|].
  rewrite append_cons. cbn [String.length String.substring]. apply IH.
Qed.

Lemma get_app (p r : string) : String.get (String.length p) (p +:+ r) = String.get 0 r.
Proof.
  induction p as [|x p IH]; [done|]. rewrite append_cons.
  cbn [String.length String.get]. apply IH.
Qed.

Lemma compare_refl (s : string) : String.compare s s = Eq.
Proof.
  induction s as [|x s IH]; [done|]. cbn [String.compare].
  unfold Ascii.compare. by rewrite N.compare_refl.
Qed.

Lemma compare_app (p a b : string) :
  String.compare (p +:+ a) (p +:+ b) = String.compare a b.
Proof.
  induction p as [|x p IH]; [done|]. rewrite !append_cons. cbn [String.compare].
  unfold Ascii.compare. by rewrite N.compare_refl.
Qed.

Lemma key_lt_trans (a b c : string) : key_lt a b → key_lt b c → key_lt a c.
Proof.
  unfold key_lt. intros Hab Hbc.
  assert (String.le a b) as Hle1 by (unfold String.le, String.leb; by rewrite Hab).
  assert (String.le b c) as Hle2 by (unfold String.le, String.leb; by rewrite Hbc).
  assert (String.le a c) as Hle by (by etrans).
  unfold String.le, String.leb in Hle.
  destruct (String.compare a c) eqn:Hac; [|done|done].
  apply String.compare_eq_iff in Hac as ->.
  rewrite String.compare_antisym, Hab in Hbc. done.
Qed.

Lemma key_lt_irrefl (a : string) : ¬ key_lt a a.
Proof. unfold key_lt. by rewrite compare_refl. Qed.

(** The test of [GetChildren] selects the names with prefix [dir + "/"]. *)
Lemma GetChildren_test (dir filename : string) :
  bool_decide (String.length dir + 1 ≤ String.length filename)%nat
  && bool_decide (String.get (String.length dir) filename = Some "/"%char)
  && starts_with filename dir
  = String.prefix (dir +:+ "/") filename.
Proof.
  unfold starts_with. destruct (String.prefix (dir +:+ "/") filename) eqn:Hp.
  - apply prefix_inv in Hp as [r ->]. rewrite string_app_assoc.
    rewrite prefix_app, get_app, !string_length_app, append_cons.
    cbn [String.get String.length].
    rewrite !bool_decide_true; [done..|lia].
  - destruct (String.prefix dir filename) eqn:Hd; [|by rewrite andb_false_r].
    apply prefix_inv in Hd as [r ->]. rewrite get_app, andb_true_r.
    destruct r as [|x r].
    { cbn [String.get]. rewrite (bool_decide_false (None = _)) by done.
      by rewrite andb_false_r. }
    cbn [String.get]. destruct (decide (x = "/"%char)) as [->|Hx].
    + exfalso. change (String "/" r) with ("/" +:+ r) in Hp.
      by rewrite <- string_app_assoc, prefix_app in Hp.
    + rewrite (bool_decide_false (Some x = _)) by congruence. by rewrite andb_false_r.
Qed.

(** ** The ordered map *)

Lemma fm_find_Some_elem k p (m : FileSystem) : fm_find k m = Some p → (k, p) ∈ m.
Proof.
  induction m as [|[k' v] m IH]; [done|]. cbn [fm_find].
  case_decide as Hk; [intros [= ->]; subst; left | intros; right; auto].
Qed.

Lemma fm_find_is_Some k (m : FileSystem) : is_Some (fm_find k m) ↔ k ∈ m.*1.
Proof.
  induction m as [|[k' v] m IH]; cbn [fm_find fmap list_fmap fst].
  - split; [by intros [? ?] | by intros ?%elem_of_nil].
  - rewrite elem_of_cons. case_decide as Hk; [by split; eauto|].
    rewrite IH. split; [by right | by intros [?|?]].
Qed.

Lemma fm_find_None k (m : FileSystem) : fm_find k m = None ↔ k ∉ m.*1.
Proof. rewrite <- fm_find_is_Some, eq_None_not_Some. done. Qed.

Lemma fm_find_insert k v k' (m : FileSystem) :
  fm_find k' (fm_insert k v m) = if decide (k' = k) then Some v else fm_find k' m.
Proof.
  induction m as [|[k0 v0] m IH]; cbn [fm_insert fm_find]; [done|].
  destruct (String.compare k k0) eqn:Hc; cbn [fm_find].
  - apply String.compare_eq_iff in Hc as ->. by repeat case_decide.
  - done.
  - rewrite IH. repeat case_decide; try done. subst. by rewrite compare_refl in Hc.
Qed.

Lemma fm_erase_absent k (m : FileSystem) : fm_find k m = None → fm_erase k m = m.
Proof.
  induction m as [|[k0 v0] m IH]; [done|]. cbn [fm_find fm_erase].
  case_decide; [done|]. intros Hf. by rewrite IH.
Qed.

Lemma fm_sorted_cons k v (m : FileSystem) :
  fm_sorted ((k, v) :: m) ↔ fm_sorted m ∧ Forall (key_lt k) m.*1.
Proof.
  unfold fm_sorted. cbn [fmap list_fmap fst]. split.
  - intros H. by inversion_clear H.
  - intros [? ?]. by constructor.
Qed.

Lemma fm_find_erase k k' (m : FileSystem) :
  fm_sorted m →
  fm_find k' (fm_erase k m) = if decide (k' = k) then None else fm_find k' m.
Proof.
  induction m as [|[k0 v0] m IH]; cbn [fm_erase fm_find].
  { intros _. by case_decide. }
  intros [Hm Hall]%fm_sorted_cons. destruct (decide (k = k0)) as [<-|Hk0].
  - destruct (decide (k' = k)) as [->|Hk']; [|done].
    apply fm_find_None. intros Hin.
    rewrite Forall_forall in Hall. by apply (key_lt_irrefl k), Hall.
  - cbn [fm_find]. rewrite IH by done. repeat case_decide; by subst.
Qed.

Lemma fm_keys_insert k v (m : FileSystem) k' :
  k' ∈ (fm_insert k v m).*1 ↔ k' = k ∨ k' ∈ m.*1.
Proof.
  rewrite <- !fm_find_is_Some, fm_find_insert. case_decide.
  - split; [by left | by eauto].
  - split; [by right | by intros [?|?]].
Qed.

Lemma fm_keys_erase k (m : FileSystem) k' :
  k' ∈ (fm_erase k m).*1 → k' ∈ m.*1.
Proof.
  induction m as [|[k0 v0] m IH]; [done|]. cbn [fm_erase].
  case_decide; cbn [fmap list_fmap fst]; rewrite ?elem_of_cons.
  - by right.
  - intros [?|?]; [by left | right; by apply IH].
Qed.

Lemma fm_sorted_insert k v (m : FileSystem) : fm_sorted m → fm_sorted (fm_insert k v m).
Proof.
  induction m as [|[k0 v0] m IH]; cbn [fm_insert].
  { intros _. apply fm_sorted_cons. split; [constructor | constructor]. }
  intros Hs. pose proof Hs as [Hm Hall]%fm_sorted_cons.
  destruct (String.compare k k0) eqn:Hc.
  - apply String.compare_eq_iff in Hc as ->. by apply fm_sorted_cons.
  - apply fm_sorted_cons. split; [done|]. cbn [fmap list_fmap fst].
    constructor; [done|]. eapply Forall_impl; [done|].
    intros k'. by apply key_lt_trans.
  - apply fm_sorted_cons. split; [by apply IH|].
    apply Forall_forall. intros k' [->|Hin]%fm_keys_insert.
    + unfold key_lt. by rewrite String.compare_antisym, Hc.
    + rewrite Forall_forall in Hall. by apply Hall.
Qed.

Lemma fm_sorted_erase k (m : FileSystem) : fm_sorted m → fm_sorted (fm_erase k m).
Proof.
  induction m as [|[k0 v0] m IH]; [done|]. cbn [fm_erase].
  intros [Hm Hall]%fm_sorted_cons. case_decide; [done|].
  apply fm_sorted_cons. split; [by apply IH|].
  apply Forall_forall. intros k' Hin%fm_keys_erase.
  rewrite Forall_forall in Hall. by apply Hall.
Qed.

(** The pointers in the map, up to order. *)
Lemma fm_values_erase k p (m : FileSystem) :
  fm_find k m = Some p → m.*2 ≡ₚ p :: (fm_erase k m).*2.
Proof.
  induction m as [|[k0 v0] m IH]; [done|]. cbn [fm_find fm_erase].
  case_decide; [by intros [= ->]|]. intros Hf.
  cbn [fmap list_fmap snd]. rewrite (IH Hf) at 1. apply Permutation_swap.
Qed.

Lemma fm_values_insert k v (m : FileSystem) :
  fm_find k m = None → (fm_insert k v m).*2 ≡ₚ v :: m.*2.
Proof.
  induction m as [|[k0 v0] m IH]; [done|]. cbn [fm_find fm_insert].
  case_decide as Hk; [done|]. intros Hf.
  destruct (String.compare k k0) eqn:Hc.
  - by apply String.compare_eq_iff in Hc.
  - done.
  - cbn [fmap list_fmap snd]. rewrite (IH Hf). apply Permutation_swap.
Qed.

Lemma fm_index_present k p (m : FileSystem) :
  fm_find k m = Some p → fm_index k m = (p, m).
Proof. intros Hf. unfold fm_index. by rewrite Hf. Qed.

(** ** GetChildren *)

Lemma GetChildren_loop_spec dir (m : FileSystem) : ∀ result,
  GetChildren_loop dir m result = result ++ listChildren_spec dir m.*1.
Proof.
  induction m as [|[filename file] m IH]; intros result.
  { cbn [GetChildren_loop]. unfold listChildren_spec. cbn [fmap list_fmap omap list_omap].
    by rewrite app_nil_r. }
  cbn [GetChildren_loop]. rewrite IH, GetChildren_test.
  unfold listChildren_spec. cbn [fmap list_fmap omap list_omap fst].
  rewrite string_length_app. cbn [String.length].
  destruct (String.prefix (dir +:+ "/") filename); [|done].
  by rewrite <- app_assoc.
Qed.

Lemma elem_of_listChildren_spec dir paths name :
  name ∈ listChildren_spec dir paths ↔ (dir +:+ "/") +:+ name ∈ paths.
Proof.
  unfold listChildren_spec. rewrite list_elem_of_omap. split.
  - intros (path & Hin & Hf).
    destruct (String.prefix (dir +:+ "/") path) eqn:Hp; [|done].
    apply prefix_inv in Hp as [r ->]. rewrite substr_app in Hf.
    injection Hf as <-. done.
  - intros Hin. eexists. split; [done|]. by rewrite prefix_app, substr_app.
Qed.

Lemma listChildren_spec_sorted dir paths :
  StronglySorted key_lt paths → StronglySorted key_lt (listChildren_spec dir paths).
Proof.
  induction 1 as [|path paths Hs IH Hall]; [constructor|].
  unfold listChildren_spec. cbn [omap list_omap].
  destruct (String.prefix (dir +:+ "/") path) eqn:Hp; [|done].
  constructor; [done|]. apply prefix_inv in Hp as [r ->]. rewrite substr_app.
  apply Forall_forall. intros name Hin%elem_of_listChildren_spec.
  rewrite Forall_forall in Hall. specialize (Hall _ Hin).
  unfold key_lt in *. by rewrite compare_app in Hall.
Qed.

(** C8, as stated, fails: with the one file "/a/" stored, [GetChildren("/a")]
    returns one child (the empty name), although no stored path has "/a/" as
    a strict prefix. *)
Lemma GetChildren_lists_the_prefix_itself :
  ∃ s, run [OpNewWritableFile "/a/"] System_new = Some s ∧
       GetChildren "/a" (world s) = (OK, [""]) ∧
       ∀ path, is_Some (fm_find path (file_map_ (world s))) →
               ¬ strict_prefix ("/a" +:+ "/") path.
Proof.
  eexists. split; [by vm_compute|]. split; [by vm_compute|].
  intros path [p Hp] [_ Hne]. cbn in Hp. by case_decide.
Qed.

(** C8, amended: [GetChildren(dir)] returns OK and, in the order of the keys
    of the map (so in lexicographic order), what follows [dir + "/"] in each
    stored path that has [dir + "/"] as a prefix, the path [dir + "/"] itself
    included (its child name is empty): a name is listed exactly when
    [dir + "/" + name] is a stored path. *)
Theorem GetChildren_lists_prefixed (dir : string) (w : World) :
  fm_sorted (file_map_ w) →
  GetChildren dir w = (OK, listChildren_spec dir (file_map_ w).*1) ∧
  (∀ name, name ∈ (GetChildren dir w).2 ↔
           is_Some (fm_find ((dir +:+ "/") +:+ name) (file_map_ w))) ∧
  StronglySorted key_lt (GetChildren dir w).2.
Proof.
  intros Hs. unfold GetChildren. rewrite GetChildren_loop_spec. cbn [app snd].
  split_and!; [done | |by apply listChildren_spec_sorted].
  intros name. by rewrite elem_of_listChildren_spec, fm_find_is_Some.
Qed.

Lemma GetChildren_lists_prefixed_witness :
  fm_sorted (file_map_ (world sample_system)) ∧
  (GetChildren "/a" (world sample_system)
     = (OK, listChildren_spec "/a" (file_map_ (world sample_system)).*1) ∧
   (∀ name, name ∈ (GetChildren "/a" (world sample_system)).2 ↔
            is_Some (fm_find (("/a" +:+ "/") +:+ name)
                             (file_map_ (world sample_system)))) ∧
   StronglySorted key_lt (GetChildren "/a" (world sample_system)).2).
Proof.
  split; [vm_compute; repeat constructor|].
  apply (GetChildren_lists_prefixed "/a" (world sample_system)).
  vm_compute; repeat constructor.
Defined.

(** The listing of the specification's example, {"/a/x", "/a/y", "/b/z"}. *)
Example GetChildren_example :
  ∃ s, run [OpNewWritableFile "/b/z"; OpNewWritableFile "/a/y"; OpNewWritableFile "/a/x"]
           System_new = Some s ∧
       (file_map_ (world s)).*1 = ["/a/x"; "/a/y"; "/b/z"] ∧
       GetChildren "/a" (world s) = (OK, ["x"; "y"]).
Proof. eexists. by vm_compute. Qed.

(** * Properties of the environment *)

(** ** Counting holders *)

Lemma occ_nil p : occ p [] = 0.
Proof. done. Qed.

Lemma occ_cons p q l : occ p (q :: l) = (if decide (q = p) then 1 else 0) + occ p l.
Proof.
  unfold occ. rewrite filter_cons. case_decide; cbn [length]; lia.
Qed.

Lemma occ_app p l1 l2 : occ p (l1 ++ l2) = occ p l1 + occ p l2.
Proof. unfold occ. rewrite filter_app, length_app. lia. Qed.

Lemma occ_nonneg p l : 0 ≤ occ p l.
Proof. unfold occ. lia. Qed.

Lemma occ_perm p l1 l2 : l1 ≡ₚ l2 → occ p l1 = occ p l2.
Proof. intros Hp. unfold occ. by rewrite Hp. Qed.

Lemma occ_elem p l : p ∈ l ↔ 0 < occ p l.
Proof.
  induction l as [|q l IH]; [rewrite occ_nil; split; [by intros ?%elem_of_nil | lia]|].
  rewrite occ_cons, elem_of_cons. pose proof (occ_nonneg p l).
  case_decide; [split; [lia | by left; subst]|].
  rewrite IH. split; [intros [?|?]; [by subst|lia] | intros; right; lia].
Qed.

Lemma occ_sublist p l1 l2 : l1 `sublist_of` l2 → occ p l1 ≤ occ p l2.
Proof.
  induction 1 as [|q l1 l2 _ IH|q l1 l2 _ IH]; rewrite ?occ_cons; [done | lia |].
  case_decide; lia.
Qed.

Lemma occ_NoDup p l : NoDup l → occ p l ≤ 1.
Proof.
  induction 1 as [|q l Hq _ IH]; [by rewrite occ_nil|].
  rewrite occ_cons. case_decide; [|lia]. subst q.
  assert (¬ 0 < occ p l) by (by rewrite <- occ_elem). lia.
Qed.

(** ** Reference counts *)

Lemma refs_ok_live e h held p :
  refs_ok e h held → p ∈ held → ∃ st, h !! p = Some st ∧ 1 ≤ refs_ st ∧ occ p held ≤ refs_ st.
Proof.
  intros Hok Hin%occ_elem. specialize (Hok p).
  destruct (h !! p) as [st|]; [|lia]. exists st. by destruct Hok as (? & ? & _).
Qed.

Lemma refs_ok_step e h held h' held' p :
  refs_ok e h held →
  (∀ q, q ≠ p → h' !! q = h !! q) →
  (∀ q, q ≠ p → occ q held' = occ q held) →
  match h' !! p with
  | Some st => 1 ≤ refs_ st ∧ occ p held' ≤ refs_ st ∧ (e = true → refs_ st = occ p held')
  | None => occ p held' = 0
  end →
  refs_ok e h' held'.
Proof.
  intros Hok Hh Hocc Hp q. destruct (decide (q = p)) as [->|Hq]; [done|].
  rewrite Hh, Hocc by done. apply Hok.
Qed.

Lemma refs_ok_perm e h held held' :
  held ≡ₚ held' → refs_ok e h held → refs_ok e h held'.
Proof. intros Hp Hok q. rewrite <- (occ_perm q _ _ Hp). apply Hok. Qed.

Lemma refs_ok_drop h held held' :
  (∀ p, occ p held' ≤ occ p held) → refs_ok false h held → refs_ok false h held'.
Proof.
  intros Hle Hok p. specialize (Hok p). specialize (Hle p).
  pose proof (occ_nonneg p held').
  destruct (h !! p) as [st|]; [|lia].
  destruct Hok as (? & ? & _). split_and!; [done | lia | done].
Qed.

(** ** Ref and Unref *)

Lemma files_ok_insert h p st :
  files_ok h → fs_rep st → fs_upper st → size_ st < 2 ^ 64 → files_ok (<[p := st]> h).
Proof.
  intros Hok ? ? ? q st'. rewrite lookup_insert. case_decide; [|apply Hok].
  by intros [= <-].
Qed.

Lemma files_ok_delete h p : files_ok h → files_ok (delete p h).
Proof. intros Hok q st'. rewrite lookup_delete. case_decide; [done|apply Hok]. Qed.

Lemma files_ok_with_refs h p st r :
  files_ok h → h !! p = Some st → files_ok (<[p := with_refs r st]> h).
Proof.
  intros Hok Hp. destruct (Hok p st Hp) as (? & ? & ?). by apply files_ok_insert.
Qed.

Lemma Ref_spec e w held p :
  world_inv e w held → p ∈ (file_map_ w).*2 ++ held →
  ∃ st, heap w !! p = Some st ∧
        Ref p w = Some (set_heap (<[p := with_refs (refs_ st + 1) st]> (heap w)) w) ∧
        world_inv e (set_heap (<[p := with_refs (refs_ st + 1) st]> (heap w)) w) (p :: held).
Proof.
  intros (Hs & Hnd & Hbrk & Hrefs & Hfiles) Hin.
  destruct (refs_ok_live _ _ _ _ Hrefs Hin) as (st & Hp & Hr1 & Hocc).
  exists st. split; [done|]. unfold Ref. rewrite Hp. split; [done|].
  split_and!; cbn [set_heap heap brk file_map_]; try done.
  - intros q Hq. rewrite lookup_insert_ne; [by apply Hbrk|].
    intros <-. by rewrite Hbrk in Hp.
  - apply (refs_ok_step _ _ _ _ _ p Hrefs).
    + intros q Hq. by rewrite lookup_insert_ne.
    + intros q Hq. rewrite !occ_app, occ_cons. by rewrite decide_False.
    + rewrite lookup_insert_eq. cbn [with_refs refs_].
      rewrite !occ_app, occ_cons, decide_True by done. rewrite occ_app in Hocc.
      specialize (Hrefs p). rewrite Hp, occ_app in Hrefs. destruct Hrefs as (_ & _ & Hex).
      split_and!; [lia | lia | intros He; specialize (Hex He); lia].
  - by apply files_ok_with_refs.
Qed.

Lemma Unref_eq p w st :
  heap w !! p = Some st → 1 ≤ refs_ st →
  Unref p w = Some (set_heap (heap_unref p st (heap w)) w).
Proof.
  intros Hp Hr. unfold Unref, heap_unref. rewrite Hp. cbn [mbind option_bind].
  rewrite decide_True by lia. by destruct (bool_decide (refs_ st - 1 ≤ 0)).
Qed.

Lemma files_ok_unref h p st : files_ok h → h !! p = Some st → files_ok (heap_unref p st h).
Proof.
  intros Hok Hp. unfold heap_unref. case_bool_decide.
  - by apply files_ok_delete.
  - by apply files_ok_with_refs.
Qed.

Lemma heap_unref_ne p st h q : q ≠ p → heap_unref p st h !! q = h !! q.
Proof.
  intros Hq. unfold heap_unref. case_bool_decide.
  - by rewrite lookup_delete_ne.
  - by rewrite lookup_insert_ne.
Qed.

Lemma heap_unref_eq p st h :
  heap_unref p st h !! p =
  if bool_decide (refs_ st - 1 ≤ 0) then None else Some (with_refs (refs_ st - 1) st).
Proof.
  unfold heap_unref. case_bool_decide.
  - by rewrite lookup_delete_eq.
  - by rewrite lookup_insert_eq.
Qed.

(** Releasing one of the references counted in [held]. *)
Lemma refs_ok_unref e h held held' p st :
  refs_ok e h held → held ≡ₚ p :: held' → h !! p = Some st →
  refs_ok e (heap_unref p st h) held'.
Proof.
  intros Hok Hperm Hp. apply (refs_ok_step _ _ _ _ _ p Hok).
  - intros q Hq. by apply heap_unref_ne.
  - intros q Hq. rewrite (occ_perm q _ _ Hperm), occ_cons. by rewrite decide_False.
  - specialize (Hok p). rewrite Hp, (occ_perm p _ _ Hperm), occ_cons, decide_True in Hok by done.
    destruct Hok as (Hr & Hocc & Hex). pose proof (occ_nonneg p held').
    rewrite heap_unref_eq. case_bool_decide; [lia|].
    cbn [with_refs refs_]. split_and!; [lia | lia | intros He; specialize (Hex He); lia].
Qed.

(** ** Heaps before and after a call *)

Lemma heap_same_le h h' : heap_same h h' → heap_le h h'.
Proof. intros Hs p st st' H1 H2. destruct (Hs p st st' H1 H2) as [_ ->]. lia. Qed.

Lemma heap_same_refl h : heap_same h h.
Proof. intros p st st' H1 H2. by simplify_eq. Qed.

Lemma heap_same_unref h p st : h !! p = Some st → heap_same h (heap_unref p st h).
Proof.
  intros Hp q st1 st2 H1 H2. destruct (decide (q = p)) as [->|Hq].
  - rewrite heap_unref_eq in H2. case_bool_decide; simplify_eq. done.
  - rewrite heap_unref_ne in H2 by done. by simplify_eq.
Qed.

Lemma heap_same_with_refs h p st r :
  h !! p = Some st → heap_same h (<[p := with_refs r st]> h).
Proof.
  intros Hp q st1 st2 H1 H2. rewrite lookup_insert in H2.
  case_decide; simplify_eq; done.
Qed.

Lemma heap_same_fresh h p st : h !! p = None → heap_same h (<[p := st]> h).
Proof.
  intros Hp q st1 st2 H1 H2. rewrite lookup_insert in H2.
  case_decide; simplify_eq. done.
Qed.

Lemma heap_same_trans_live h1 h2 h3 :
  heap_same h1 h2 → heap_same h2 h3 →
  (∀ p, is_Some (h1 !! p) → is_Some (h3 !! p) → is_Some (h2 !! p)) →
  heap_same h1 h3.
Proof.
  intros H12 H23 Hlive p st1 st3 Hp1 Hp3.
  destruct (Hlive p) as [st2 Hp2]; [by eauto..|].
  destruct (H12 p _ _ Hp1 Hp2) as [<- <-]. by apply (H23 p).
Qed.

(** ** The methods of the environment *)

Lemma set_file_map_id w : set_file_map (file_map_ w) w = w.
Proof. by destruct w. Qed.

Lemma world_inv_live e w held p :
  world_inv e w held → p ∈ (file_map_ w).*2 ++ held →
  ∃ st, heap w !! p = Some st ∧ 1 ≤ refs_ st ∧ (p < brk w)%nat.
Proof.
  intros (_ & _ & Hbrk & Hrefs & _) Hin.
  destruct (refs_ok_live _ _ _ _ Hrefs Hin) as (st & Hp & Hr & _).
  exists st. split_and!; [done..|].
  destruct (decide (p < brk w)%nat); [done|]. rewrite Hbrk in Hp by lia. done.
Qed.

Lemma fm_find_values k p (m : FileSystem) : fm_find k m = Some p → p ∈ m.*2.
Proof.
  intros Hin%fm_find_Some_elem. apply list_elem_of_fmap. by exists (k, p).
Qed.

(** [Unref] of a reference held by a view. *)
Lemma Unref_view_spec e w held held' p :
  world_inv e w held → held ≡ₚ p :: held' →
  ∃ st, heap w !! p = Some st ∧
        Unref p w = Some (set_heap (heap_unref p st (heap w)) w) ∧
        world_inv e (set_heap (heap_unref p st (heap w)) w) held'.
Proof.
  intros Hinv Hperm.
  destruct (world_inv_live e w held p Hinv) as (st & Hp & Hr & Hlt).
  { apply elem_of_app. right. rewrite Hperm. by left. }
  destruct Hinv as (Hs & Hnd & Hbrk & Hrefs & Hfiles).
  exists st. split; [done|]. split; [by apply Unref_eq|].
  split_and!; cbn [set_heap heap brk file_map_]; try done.
  - intros q Hq. rewrite heap_unref_ne by lia. by apply Hbrk.
  - apply (refs_ok_unref _ _ ((file_map_ w).*2 ++ held)); [done| |done].
    rewrite Hperm. by rewrite Permutation_middle.
  - by apply files_ok_unref.
Qed.

Lemma DeleteFileInternal_absent k w :
  fm_find k (file_map_ w) = None → DeleteFileInternal k w = Some w.
Proof. intros Hf. unfold DeleteFileInternal. by rewrite Hf. Qed.

(** [DeleteFileInternal] of a stored name: the map's reference is released
    and the entry erased. *)
Lemma DeleteFileInternal_present e w held k p :
  world_inv e w held → fm_find k (file_map_ w) = Some p →
  ∃ st w', heap w !! p = Some st ∧ 1 ≤ refs_ st ∧
    DeleteFileInternal k w = Some w' ∧
    heap w' = heap_unref p st (heap w) ∧ brk w' = brk w ∧
    file_map_ w' = fm_erase k (file_map_ w) ∧
    world_inv e w' held.
Proof.
  intros Hinv Hf. pose proof (fm_find_values _ _ _ Hf) as Hin.
  destruct (world_inv_live e w held p Hinv) as (st & Hp & Hr & Hlt).
  { apply elem_of_app. by left. }
  destruct Hinv as (Hs & Hnd & Hbrk & Hrefs & Hfiles).
  exists st. eexists. split; [done|]. split; [done|].
  unfold DeleteFileInternal. rewrite Hf, (fm_index_present _ _ _ Hf), set_file_map_id.
  rewrite (Unref_eq _ _ _ Hp Hr). cbn [mbind option_bind set_heap set_file_map heap brk file_map_].
  split; [done|]. unfold world_inv.
  cbn [set_heap set_file_map heap brk file_map_]. split_and!; try done.
  - by apply fm_sorted_erase.
  - rewrite (fm_values_erase _ _ _ Hf) in Hnd. by apply NoDup_cons in Hnd as [_ ?].
  - intros q Hq. rewrite heap_unref_ne by lia. by apply Hbrk.
  - apply (refs_ok_unref _ _ ((file_map_ w).*2 ++ held)); [done| |done].
    by rewrite (fm_values_erase _ _ _ Hf) at 1.
  - by apply files_ok_unref.
Qed.

(** In both cases. *)
Lemma DeleteFileInternal_spec e w held k :
  world_inv e w held →
  ∃ w', DeleteFileInternal k w = Some w' ∧
    brk w' = brk w ∧ file_map_ w' = fm_erase k (file_map_ w) ∧
    heap_same (heap w) (heap w') ∧
    (∀ q, fm_find k (file_map_ w) ≠ Some q → heap w' !! q = heap w !! q) ∧
    world_inv e w' held.
Proof.
  intros Hinv. destruct (fm_find k (file_map_ w)) as [p|] eqn:Hf.
  - destruct (DeleteFileInternal_present e w held k p Hinv Hf)
      as (st & w' & Hp & Hr & Hdel & Hh & Hb & Hm & Hinv').
    exists w'. split_and!; try done.
    + rewrite Hh. by apply heap_same_unref.
    + intros q Hq. rewrite Hh, heap_unref_ne; [done|congruence].
  - exists w. rewrite (DeleteFileInternal_absent _ _ Hf), (fm_erase_absent _ _ Hf).
    split_and!; try done. apply heap_same_refl.
Qed.

Lemma NewWritableFile_eq k w w1 :
  DeleteFileInternal k w = Some w1 →
  NewWritableFile k w =
    Some (OK, {| wr_file_ := brk w1 |},
          {| heap := <[brk w1 := created 2]> (heap w1);
             brk := S (brk w1);
             file_map_ := fm_insert k (brk w1) (file_map_ w1) |}).
Proof.
  intros Hdel. unfold NewWritableFile.
  assert ((if fm_find k (file_map_ w) is Some _ then DeleteFileInternal k w else Some w)
          = Some w1) as ->.
  { destruct (fm_find k (file_map_ w)) eqn:Hf; [done|].
    by rewrite <- Hdel, DeleteFileInternal_absent. }
  cbn [mbind option_bind]. unfold FileState_alloc, WritableFileImpl_new, Ref.
  cbn [heap brk file_map_ set_heap set_file_map].
  rewrite lookup_insert_eq. cbn [mbind option_bind heap brk file_map_ set_heap set_file_map].
  rewrite lookup_insert_eq. cbn [mbind option_bind heap brk file_map_ set_heap set_file_map].
  by rewrite !insert_insert_eq.
Qed.

Lemma created_ok refs : fs_rep (created refs) ∧ fs_upper (created refs) ∧ size_ (created refs) < 2 ^ 64.
Proof. destruct (created_inv refs) as (? & ? & _). by split_and!. Qed.

Lemma NewWritableFile_spec e w held k :
  world_inv e w held →
  ∃ w1 w',
    DeleteFileInternal k w = Some w1 ∧
    NewWritableFile k w = Some (OK, {| wr_file_ := brk w |}, w') ∧
    heap w' = <[brk w := created 2]> (heap w1) ∧ heap w1 !! brk w = None ∧
    brk w' = S (brk w) ∧
    file_map_ w' = fm_insert k (brk w) (fm_erase k (file_map_ w)) ∧
    heap_same (heap w) (heap w1) ∧
    world_inv e w' (brk w :: held).
Proof.
  intros Hinv.
  destruct (DeleteFileInternal_spec e w held k Hinv)
    as (w1 & Hdel & Hb & Hm & Hsame & _ & Hinv1).
  pose proof Hinv as (Hs0 & _).
  destruct Hinv1 as (Hs & Hnd & Hbrk & Hrefs & Hfiles).
  exists w1. eexists. split; [done|]. rewrite (NewWritableFile_eq _ _ _ Hdel), Hb.
  split; [done|]. cbn [heap brk file_map_].
  assert (heap w1 !! brk w = None) as Hfresh by (apply Hbrk; lia).
  assert (fm_find k (file_map_ w1) = None) as Hk.
  { rewrite Hm, fm_find_erase by done. by rewrite decide_True. }
  assert (occ (brk w) ((file_map_ w1).*2 ++ held) = 0) as Hocc.
  { specialize (Hrefs (brk w)). by rewrite Hfresh in Hrefs. }
  rewrite occ_app in Hocc.
  pose proof (occ_nonneg (brk w) (file_map_ w1).*2).
  pose proof (occ_nonneg (brk w) held).
  split_and!; try done; try (by rewrite Hm).
  unfold world_inv. cbn [heap brk file_map_]. split_and!.
  - by apply fm_sorted_insert.
  - rewrite (fm_values_insert _ _ _ Hk). apply NoDup_cons. split; [|done].
    rewrite occ_elem. lia.
  - intros q Hq. rewrite lookup_insert_ne by lia. apply Hbrk. lia.
  - apply (refs_ok_step _ _ _ _ _ (brk w) Hrefs).
    + intros q Hq. by rewrite lookup_insert_ne.
    + intros q Hq. rewrite !occ_app, (occ_perm q _ _ (fm_values_insert _ _ _ Hk)), !occ_cons.
      by rewrite !decide_False by done.
    + rewrite lookup_insert_eq. cbn [created refs_].
      rewrite !occ_app, (occ_perm _ _ _ (fm_values_insert _ _ _ Hk)), !occ_cons.
      rewrite !decide_True by done. split_and!; [lia | lia | intros _; lia].
  - apply files_ok_insert; [done | apply created_ok..].
Qed.

Lemma NewSequentialFile_absent k w :
  fm_find k (file_map_ w) = None →
  NewSequentialFile k w = Some (IOError k "File not found", None, w).
Proof. intros Hf. unfold NewSequentialFile. by rewrite Hf. Qed.

Lemma NewSequentialFile_present e w held k p :
  world_inv e w held → fm_find k (file_map_ w) = Some p →
  ∃ st, heap w !! p = Some st ∧
    NewSequentialFile k w =
      Some (OK, Some {| seq_file_ := p; pos_ := 0 |},
            set_heap (<[p := with_refs (refs_ st + 1) st]> (heap w)) w) ∧
    world_inv e (set_heap (<[p := with_refs (refs_ st + 1) st]> (heap w)) w) (p :: held).
Proof.
  intros Hinv Hf.
  destruct (Ref_spec e w held p Hinv) as (st & Hp & Href & Hinv').
  { apply elem_of_app. left. by eapply fm_find_values. }
  exists st. split; [done|]. split; [|done].
  unfold NewSequentialFile, SequentialFileImpl_new.
  by rewrite Hf, (fm_index_present _ _ _ Hf), set_file_map_id, Href.
Qed.

Lemma NewRandomAccessFile_absent k w :
  fm_find k (file_map_ w) = None →
  NewRandomAccessFile k w = Some (IOError k "File not found", None, w).
Proof. intros Hf. unfold NewRandomAccessFile. by rewrite Hf. Qed.

Lemma NewRandomAccessFile_present e w held k p :
  world_inv e w held → fm_find k (file_map_ w) = Some p →
  ∃ st, heap w !! p = Some st ∧
    NewRandomAccessFile k w =
      Some (OK, Some {| rand_file_ := p |},
            set_heap (<[p := with_refs (refs_ st + 1) st]> (heap w)) w) ∧
    world_inv e (set_heap (<[p := with_refs (refs_ st + 1) st]> (heap w)) w) (p :: held).
Proof.
  intros Hinv Hf.
  destruct (Ref_spec e w held p Hinv) as (st & Hp & Href & Hinv').
  { apply elem_of_app. left. by eapply fm_find_values. }
  exists st. split; [done|]. split; [|done].
  unfold NewRandomAccessFile, RandomAccessFileImpl_new.
  by rewrite Hf, (fm_index_present _ _ _ Hf), set_file_map_id, Href.
Qed.

Lemma DeleteFile_absent k w :
  fm_find k (file_map_ w) = None →
  DeleteFile k w = Some (IOError k "File not found", w).
Proof. intros Hf. unfold DeleteFile. by rewrite Hf. Qed.

Lemma DeleteFile_present e w held k p :
  world_inv e w held → fm_find k (file_map_ w) = Some p →
  ∃ st w', heap w !! p = Some st ∧ 1 ≤ refs_ st ∧
    DeleteFile k w = Some (OK, w') ∧
    heap w' = heap_unref p st (heap w) ∧ brk w' = brk w ∧
    file_map_ w' = fm_erase k (file_map_ w) ∧
    world_inv e w' held.
Proof.
  intros Hinv Hf.
  destruct (DeleteFileInternal_present e w held k p Hinv Hf)
    as (st & w' & Hp & Hr & Hdel & H).
  exists st, w'. split; [done|]. split; [done|]. split; [|done].
  unfold DeleteFile. by rewrite Hf, Hdel.
Qed.

Lemma fm_find_inj (m : FileSystem) k1 k2 p :
  NoDup m.*2 → fm_find k1 m = Some p → fm_find k2 m = Some p → k1 = k2.
Proof.
  induction m as [|[k0 v0] m IH]; [done|]. cbn [fmap list_fmap snd fm_find].
  intros [Hv0 Hnd]%NoDup_cons. repeat case_decide; intros H1 H2; simplify_eq.
  - done.
  - by apply fm_find_values in H2.
  - by apply fm_find_values in H1.
  - by apply IH.
Qed.

Lemma fm_insert_insert k v v' (m : FileSystem) :
  fm_insert k v (fm_insert k v' m) = fm_insert k v m.
Proof.
  induction m as [|[k0 v0] m IH]; cbn [fm_insert].
  { by rewrite compare_refl. }
  destruct (String.compare k k0) eqn:Hc; cbn [fm_insert].
  - by rewrite compare_refl.
  - by rewrite compare_refl.
  - by rewrite Hc, IH.
Qed.

Lemma fm_erase_insert k v (m : FileSystem) :
  fm_find k m = None → fm_erase k (fm_insert k v m) = m.
Proof.
  induction m as [|[k0 v0] m IH]; cbn [fm_find fm_insert fm_erase].
  { intros _. by rewrite decide_True. }
  case_decide as Hk; [done|]. intros Hf.
  destruct (String.compare k k0) eqn:Hc; cbn [fm_erase].
  - by apply String.compare_eq_iff in Hc.
  - by rewrite decide_True.
  - by rewrite decide_False, IH.
Qed.

Lemma RenameFile_absent src target w :
  fm_find src (file_map_ w) = None →
  RenameFile src target w = Some (IOError src "File not found", w).
Proof. intros Hf. unfold RenameFile. by rewrite Hf. Qed.

(** Renaming a stored file onto another name. *)
Lemma RenameFile_present e w held src target p :
  world_inv e w held → fm_find src (file_map_ w) = Some p → src ≠ target →
  ∃ w1 w',
    DeleteFileInternal target w = Some w1 ∧
    RenameFile src target w = Some (OK, w') ∧
    heap w' = heap w1 ∧ brk w' = brk w ∧
    file_map_ w' = fm_erase src (fm_insert target p (fm_erase target (file_map_ w))) ∧
    heap w' !! p = heap w !! p ∧
    heap_same (heap w) (heap w') ∧
    world_inv e w' held.
Proof.
  intros Hinv Hf Hne.
  destruct (DeleteFileInternal_spec e w held target Hinv)
    as (w1 & Hdel & Hb & Hm & Hsame & Hother & Hinv1).
  pose proof Hinv as (Hs0 & Hnd0 & _).
  destruct Hinv1 as (Hs & Hnd & Hbrk & Hrefs & Hfiles).
  assert (fm_find src (file_map_ w1) = Some p) as Hf1.
  { rewrite Hm, fm_find_erase by done. by rewrite decide_False. }
  assert (fm_find target (file_map_ w1) = None) as Ht1.
  { rewrite Hm, fm_find_erase by done. by rewrite decide_True. }
  set (m2 := fm_insert target p (file_map_ w1)).
  assert (fm_find src m2 = Some p) as Hf2.
  { unfold m2. rewrite fm_find_insert. by rewrite decide_False. }
  assert ((fm_erase src m2).*2 ≡ₚ (file_map_ w1).*2) as Hperm.
  { apply (Permutation_cons_inv (a := p)).
    rewrite <- (fm_values_erase _ _ _ Hf2). unfold m2.
    by rewrite (fm_values_insert _ _ _ Ht1). }
  exists w1. eexists. split; [done|].
  unfold RenameFile. rewrite Hf, Hdel. cbn [mbind option_bind].
  rewrite (fm_index_present _ _ _ Hf1). fold m2. split; [done|].
  cbn [set_file_map heap brk file_map_]. split_and!; try done.
  - unfold m2. by rewrite Hm.
  - apply Hother. intros Ht. apply Hne. by eapply fm_find_inj.
  - unfold world_inv. cbn [heap brk file_map_]. split_and!; try done.
    + by apply fm_sorted_erase, fm_sorted_insert.
    + by rewrite Hperm.
    + eapply refs_ok_perm; [|done]. by rewrite Hperm.
Qed.

(** Renaming a stored file onto its own name erases it. *)
Lemma RenameFile_self src w w1 :
  fm_sorted (file_map_ w) → is_Some (fm_find src (file_map_ w)) →
  DeleteFileInternal src w = Some w1 →
  file_map_ w1 = fm_erase src (file_map_ w) →
  RenameFile src src w = Some (OK, w1).
Proof.
  intros Hs [p Hf] Hdel Hm. unfold RenameFile. rewrite Hf, Hdel. cbn [mbind option_bind].
  assert (fm_find src (file_map_ w1) = None) as Hf1.
  { rewrite Hm, fm_find_erase by done. by rewrite decide_True. }
  unfold fm_index. rewrite Hf1, fm_insert_insert, fm_erase_insert by done.
  by rewrite set_file_map_id.
Qed.

(** In all cases. *)
Lemma RenameFile_spec e w held src target :
  world_inv e w held →
  ∃ s w', RenameFile src target w = Some (s, w') ∧
    brk w' = brk w ∧ heap_same (heap w) (heap w') ∧ world_inv e w' held.
Proof.
  intros Hinv. destruct (fm_find src (file_map_ w)) as [p|] eqn:Hf.
  - destruct (decide (src = target)) as [<-|Hne].
    + destruct (DeleteFileInternal_spec e w held src Hinv)
        as (w1 & Hdel & Hb & Hm & Hsame & _ & Hinv1).
      exists OK, w1. split; [|done].
      apply RenameFile_self; [apply Hinv | by eauto | done..].
    + destruct (RenameFile_present e w held src target p Hinv Hf Hne)
        as (w1 & w' & _ & Hren & _ & Hb & _ & _ & Hsame & Hinv').
      by exists OK, w'.
  - eexists _, w. rewrite (RenameFile_absent _ _ _ Hf). split_and!; try done.
    apply heap_same_refl.
Qed.

(** ** DeleteRecursively *)

Lemma DeleteRecursively_loop_sublist dir (m : FileSystem) :
  DeleteRecursively_loop dir m `sublist_of` m.
Proof.
  induction m as [|[filename file] m IH]; [done|]. cbn [DeleteRecursively_loop].
  destruct (_ && _); by constructor.
Qed.

Lemma fm_sorted_sublist (m1 m2 : FileSystem) :
  m1 `sublist_of` m2 → fm_sorted m2 → fm_sorted m1.
Proof.
  induction 1 as [|[k v] m1 m2 Hsub IH|[k v] m1 m2 Hsub IH]; [done|..].
  - intros [Hm Hall]%fm_sorted_cons. apply fm_sorted_cons. split; [by apply IH|].
    apply Forall_forall. intros k' Hin. rewrite Forall_forall in Hall. apply Hall.
    eapply elem_of_sublist; [done|]. by apply fmap_sublist.
  - intros [Hm _]%fm_sorted_cons. by apply IH.
Qed.

(** The loop erases exactly the entries whose name has prefix [dir]. *)
Lemma DeleteRecursively_loop_find dir (m : FileSystem) k :
  fm_find k (DeleteRecursively_loop dir m) =
  if String.prefix dir k then None else fm_find k m.
Proof.
  induction m as [|[filename file] m IH]; cbn [DeleteRecursively_loop fm_find].
  { by destruct (String.prefix dir k). }
  unfold starts_with. destruct (String.prefix dir filename) eqn:Hp.
  - rewrite bool_decide_true by (by apply prefix_length). cbn [andb].
    rewrite IH. destruct (String.prefix dir k) eqn:Hk; [done|].
    case_decide; [congruence|done].
  - rewrite andb_false_r. cbn [fm_find]. rewrite IH.
    destruct (String.prefix dir k) eqn:Hk; [|done].
    case_decide; [congruence|done].
Qed.

Lemma DeleteRecursively_eq dirname w :
  dirname ≠ "" →
  DeleteRecursively dirname w =
    Some (OK, set_file_map (DeleteRecursively_loop (normalize_dir dirname) (file_map_ w)) w).
Proof. intros Hne. unfold DeleteRecursively. by rewrite decide_False. Qed.

Lemma DeleteRecursively_spec w held dirname s w' :
  world_inv false w held → DeleteRecursively dirname w = Some (s, w') →
  heap w' = heap w ∧ brk w' = brk w ∧ world_inv false w' held.
Proof.
  intros (Hs & Hnd & Hbrk & Hrefs & Hfiles). unfold DeleteRecursively.
  case_decide; [done|]. intros [= <- <-]. cbn [set_file_map heap brk file_map_].
  split; [done|]. split; [done|].
  pose proof (DeleteRecursively_loop_sublist (normalize_dir dirname) (file_map_ w)) as Hsub.
  unfold world_inv. cbn [set_file_map heap brk file_map_]. split_and!; try done.
  - by eapply fm_sorted_sublist.
  - apply (sublist_NoDup _ (file_map_ w).*2); [done | by apply fmap_sublist].
  - eapply refs_ok_drop; [|done]. intros p. apply occ_sublist.
    apply sublist_app; [by apply fmap_sublist | done].
Qed.

(** * Serial runs *)

(** ** Reads and skips of a sequential view *)

Lemma Read_status st offset n result scratch s sl scratch' :
  0 ≤ offset ≤ size_ st → size_ st < 2 ^ 64 → 0 ≤ n →
  Read st offset n result scratch = Some (s, sl, scratch') →
  s = OK ∧ slice_size sl = Z.min n (size_ st - offset).
Proof.
  intros Hoff Hmax Hn. unfold Read. rewrite decide_False by lia.
  rewrite wrap64_small by lia.
  assert ((if decide (n > size_ st - offset) then size_ st - offset else n)
          = Z.min n (size_ st - offset)) as -> by (case_decide; lia).
  destruct (decide (Z.min n (size_ st - offset) = 0)) as [Hz|Hnz].
  { intros [= <- <- <-]. by rewrite Hz. }
  case_decide.
  - match goal with |- context [index ?a ?b] => destruct (index a b); [|done] end.
    by intros [= <- <- <-].
  - destruct (Read_loop _ _ _ _ _ _); [|done]. by intros [= <- <- <-].
Qed.

Lemma SequentialFileImpl_Read_pos st pos n result scratch s pos' sl scratch' :
  0 ≤ pos ≤ size_ st → size_ st < 2 ^ 64 → 0 ≤ n →
  SequentialFileImpl_Read st pos n result scratch = Some (s, pos', sl, scratch') →
  s = OK ∧ pos' = pos + Z.min n (size_ st - pos).
Proof.
  intros Hpos Hmax Hn. unfold SequentialFileImpl_Read.
  destruct (Read st pos n result scratch) as [[[s0 sl0] scr0]|] eqn:Hread; [|done].
  destruct (Read_status _ _ _ _ _ _ _ _ Hpos Hmax Hn Hread) as [-> Hsz].
  cbn [mbind option_bind ok]. intros [= <- <- <- <-]. split; [done|].
  rewrite Hsz. apply wrap64_small. lia.
Qed.

Lemma SequentialFileImpl_Skip_pos st pos n :
  0 ≤ pos ≤ size_ st → size_ st < 2 ^ 64 → 0 ≤ n →
  SequentialFileImpl_Skip st pos n = (OK, pos + Z.min n (size_ st - pos)).
Proof.
  intros Hpos Hmax Hn. unfold SequentialFileImpl_Skip, Size.
  rewrite decide_False by lia. rewrite (wrap64_small (size_ st - pos)) by lia.
  assert ((if decide (n > size_ st - pos) then size_ st - pos else n)
          = Z.min n (size_ st - pos)) as -> by (case_decide; lia).
  by rewrite wrap64_small by lia.
Qed.

(** ** The invariant along a run *)

Lemma world_inv_perm e w held held' :
  held ≡ₚ held' → world_inv e w held → world_inv e w held'.
Proof.
  intros Hp (? & ? & ? & Hrefs & ?). split_and!; try done.
  eapply refs_ok_perm; [|done]. by rewrite Hp.
Qed.

Lemma view_ok_heap_le h h' v :
  heap_le h h' → is_Some (h !! view_file v) → view_ok h v → view_ok h' v.
Proof.
  intros Hle [st Hst] Hok. destruct v as [v| |]; [|done..].
  cbn [view_ok view_file] in *. intros st' Hst'.
  specialize (Hok st Hst). specialize (Hle _ _ _ Hst Hst'). lia.
Qed.

Lemma views_live e w (vs : list View) v :
  world_inv e w (view_file <$> vs) → v ∈ vs → is_Some (heap w !! view_file v).
Proof.
  intros Hinv Hin. destruct (world_inv_live e w _ (view_file v) Hinv) as (st & ? & _); [|by eauto].
  apply elem_of_app. right. by apply list_elem_of_fmap_2.
Qed.

Lemma views_ok_heap_le e w (vs : list View) h' :
  world_inv e w (view_file <$> vs) → heap_le (heap w) h' →
  Forall (view_ok (heap w)) vs → Forall (view_ok h') vs.
Proof.
  intros Hinv Hle Hok. apply Forall_forall. intros v Hin.
  rewrite Forall_forall in Hok.
  eapply view_ok_heap_le; [done | by eapply views_live | by apply Hok].
Qed.

Lemma heap_le_insert h p st st' :
  h !! p = Some st → size_ st ≤ size_ st' → heap_le h (<[p := st']> h).
Proof.
  intros Hp Hle q st1 st2 H1 H2. rewrite lookup_insert in H2.
  case_decide; simplify_eq; lia.
Qed.

(** A content operation through a writable view. *)
Lemma on_file_spec e w held p f st s st' :
  world_inv e w held → heap w !! p = Some st → f st = Some (s, st') →
  refs_ st' = refs_ st → fs_rep st' → fs_upper st' → size_ st' < 2 ^ 64 →
  on_file p f w = Some (s, set_heap (<[p := st']> (heap w)) w) ∧
  world_inv e (set_heap (<[p := st']> (heap w)) w) held.
Proof.
  intros (Hs & Hnd & Hbrk & Hrefs & Hfiles) Hp Hf Hr Hrep Hup Hmax.
  unfold on_file. rewrite Hp. cbn [mbind option_bind]. rewrite Hf.
  split; [done|]. unfold world_inv. cbn [set_heap heap brk file_map_].
  split_and!; try done.
  - intros q Hq. rewrite lookup_insert_ne; [by apply Hbrk|].
    intros <-. by rewrite Hbrk in Hp.
  - apply (refs_ok_step _ _ _ _ _ p Hrefs); [|done|].
    + intros q Hq. by rewrite lookup_insert_ne.
    + rewrite lookup_insert_eq, Hr. specialize (Hrefs p). by rewrite Hp in Hrefs.
  - by apply files_ok_insert.
Qed.

Lemma heap_le_refl h : heap_le h h.
Proof. apply heap_same_le, heap_same_refl. Qed.

Lemma fmap_view_file_snoc (vs : list View) v :
  view_file v :: (view_file <$> vs) ≡ₚ view_file <$> (vs ++ [v]).
Proof. rewrite fmap_app. cbn [fmap list_fmap]. apply Permutation_cons_append. Qed.

Lemma fmap_view_file_insert (vs : list View) (h : nat) v v' :
  vs !! h = Some v → view_file v' = view_file v →
  view_file <$> <[h := v']> vs = view_file <$> vs.
Proof.
  intros Hh Hv. rewrite list_fmap_insert, Hv. apply list_insert_id.
  by rewrite list_lookup_fmap, Hh.
Qed.

(** Opening a view. *)
Lemma open_view_inv e w (vs : list View) p st v :
  world_inv e w (view_file <$> vs) → Forall (view_ok (heap w)) vs →
  heap w !! p = Some st → view_file v = p →
  (∀ sv, v = VSequential sv → pos_ sv = 0) →
  world_inv e (set_heap (<[p := with_refs (refs_ st + 1) st]> (heap w)) w) (p :: (view_file <$> vs)) →
  sys_inv e {| world := set_heap (<[p := with_refs (refs_ st + 1) st]> (heap w)) w;
               views := vs ++ [v] |}.
Proof.
  intros Hw Hv Hp Hfile Hpos Hw'. split; cbn [world views].
  - eapply world_inv_perm; [|done]. rewrite <- Hfile. apply fmap_view_file_snoc.
  - unfold views_ok. cbn [world views set_heap heap]. apply Forall_app. split.
    + apply (views_ok_heap_le e w); [done| |done].
      by apply heap_same_le, heap_same_with_refs.
    + apply Forall_singleton. destruct v as [sv| |]; [|done..].
      cbn [view_ok view_file] in *. subst p. rewrite lookup_insert_eq.
      intros st' [= <-]. rewrite (Hpos sv eq_refl). cbn [with_refs size_].
      destruct Hw as (_ & _ & _ & _ & Hfiles).
      destruct (Hfiles _ _ Hp) as ([_ ?] & _ & _). lia.
Qed.

(** A call that leaves the views as they are. *)
Lemma same_views_inv e w (vs : list View) w' :
  world_inv e w (view_file <$> vs) → Forall (view_ok (heap w)) vs →
  heap_le (heap w) (heap w') → world_inv e w' (view_file <$> vs) →
  sys_inv e {| world := w'; views := vs |}.
Proof.
  intros Hw Hv Hle Hw'. split; [done|]. unfold views_ok. cbn [world views].
  by apply (views_ok_heap_le e w).
Qed.

(** A read or a skip that moves the cursor of a view within its file. *)
Lemma move_cursor_inv e w (vs : list View) (h : nat) v pos' :
  world_inv e w (view_file <$> vs) → Forall (view_ok (heap w)) vs →
  vs !! h = Some (VSequential v) →
  (∀ st, heap w !! seq_file_ v = Some st → 0 ≤ pos' ≤ size_ st) →
  sys_inv e {| world := w;
               views := <[h := VSequential {| seq_file_ := seq_file_ v; pos_ := pos' |}]> vs |}.
Proof.
  intros Hw Hv Hh Hpos. split; cbn [world views].
  - by erewrite fmap_view_file_insert.
  - unfold views_ok. cbn [world views]. by apply Forall_insert.
Qed.

(** A content operation through the view named [h]. *)
Lemma write_inv e w (vs : list View) (h : nat) wv st f s w' st' :
  world_inv e w (view_file <$> vs) → Forall (view_ok (heap w)) vs →
  vs !! h = Some (VWritable wv) → heap w !! wr_file_ wv = Some st →
  on_file (wr_file_ wv) f w = Some (s, w') →
  f st = Some (OK, st') →
  refs_ st' = refs_ st → fs_rep st' → fs_upper st' → size_ st' < 2 ^ 64 →
  size_ st ≤ size_ st' →
  sys_inv e {| world := w'; views := vs |} ∧ heap_le (heap w) (heap w').
Proof.
  intros Hw Hv Hh Hp Hon Hf Hr Hrep Hup Hmax Hle.
  destruct (on_file_spec e w _ _ f st OK st' Hw Hp Hf Hr Hrep Hup Hmax) as [Heq Hw'].
  rewrite Heq in Hon. injection Hon as <- <-.
  assert (heap_le (heap w) (<[wr_file_ wv := st']> (heap w))) by by eapply heap_le_insert.
  split; [|done]. by apply (same_views_inv e w).
Qed.

(** Every call preserves the invariant, and no file shrinks.  With exact
    reference counts, the call must not be [DeleteRecursively]. *)
Lemma exec_inv e op s s' :
  sys_inv e s → (e = true → is_DeleteRecursively op = false) →
  exec op s = Some s' →
  sys_inv e s' ∧ heap_le (heap (world s)) (heap (world s')).
Proof.
  intros [Hw Hv] He Hex. destruct s as [w vs]. unfold views_ok in Hv.
  cbn [world views] in *.
  destruct op as [fname|fname|fname|h|h n result scratch|h n|h size padding|h data|h data_vector
                  |fname|dirname|src target]; cbn [exec world views] in Hex.
  - (* NewSequentialFile *)
    destruct (fm_find fname (file_map_ w)) as [p|] eqn:Hf.
    + destruct (NewSequentialFile_present e w _ fname p Hw Hf) as (st & Hp & Hnew & Hw').
      rewrite Hnew in Hex. injection Hex as <-. split.
      * by eapply open_view_inv; [..|done]; try done; intros ? [= <-].
      * by apply heap_same_le, heap_same_with_refs.
    + rewrite (NewSequentialFile_absent _ _ Hf) in Hex. injection Hex as <-.
      rewrite app_nil_r. split; [done | apply heap_le_refl].
  - (* NewRandomAccessFile *)
    destruct (fm_find fname (file_map_ w)) as [p|] eqn:Hf.
    + destruct (NewRandomAccessFile_present e w _ fname p Hw Hf) as (st & Hp & Hnew & Hw').
      rewrite Hnew in Hex. injection Hex as <-. split.
      * by eapply open_view_inv; [..|done]; try done.
      * by apply heap_same_le, heap_same_with_refs.
    + rewrite (NewRandomAccessFile_absent _ _ Hf) in Hex. injection Hex as <-.
      rewrite app_nil_r. split; [done | apply heap_le_refl].
  - (* NewWritableFile *)
    destruct (NewWritableFile_spec e w _ fname Hw)
      as (w1 & w' & Hdel & Hnew & Hh & Hfresh & Hb & Hm & Hsame & Hw').
    rewrite Hnew in Hex. injection Hex as <-.
    assert (heap_le (heap w) (heap w')) as Hle.
    { intros q st st' Hq Hq'. rewrite Hh in Hq'.
      destruct Hw as (_ & _ & Hbrk & _).
      rewrite lookup_insert_ne in Hq'; [|intros <-; by rewrite Hbrk in Hq].
      destruct (Hsame _ _ _ Hq Hq') as [_ ->]. lia. }
    split; [|done]. split; cbn [world views].
    + eapply world_inv_perm; [|done].
      apply (fmap_view_file_snoc vs (VWritable {| wr_file_ := brk w |})).
    + unfold views_ok. cbn [world views]. apply Forall_app. split; [|by apply Forall_singleton].
      by apply (views_ok_heap_le e w).
  - (* delete a view *)
    destruct (vs !! h) as [v|] eqn:Hh; [|done]. cbn [mbind option_bind] in Hex.
    destruct (Unref_view_spec e w _ (view_file <$> delete h vs) (view_file v) Hw)
      as (st & Hp & Hun & Hw').
    { rewrite (delete_Permutation _ _ _ Hh) at 1. done. }
    rewrite Hun in Hex. injection Hex as <-.
    assert (heap_le (heap w) (heap_unref (view_file v) st (heap w))) as Hle
      by by apply heap_same_le, heap_same_unref.
    split; [|done]. split; [done|]. unfold views_ok. cbn [world views set_heap heap].
    apply Forall_delete. by apply (views_ok_heap_le e w).
  - (* Read *)
    destruct (vs !! h) as [[v| |]|] eqn:Hh; try done. cbn [mbind option_bind] in Hex.
    case_decide as Hn; [|done].
    unfold Sequential_Read in Hex.
    destruct (heap w !! seq_file_ v) as [st|] eqn:Hp; [|done]. cbn [mbind option_bind] in Hex.
    destruct (SequentialFileImpl_Read st (pos_ v) n result scratch)
      as [[[[s pos'] sl] scr]|] eqn:Hread; [|done].
    injection Hex as <-. split; [|apply heap_le_refl].
    pose proof (Forall_lookup_1 _ _ _ _ Hv Hh) as Hok. cbn [view_ok] in Hok.
    destruct Hw as (? & ? & ? & ? & Hfiles). destruct (Hfiles _ _ Hp) as (_ & _ & Hmax).
    destruct (SequentialFileImpl_Read_pos _ _ _ _ _ _ _ _ _ (Hok _ Hp) Hmax Hn Hread) as [_ ->].
    apply move_cursor_inv; [by split_and! | done | done |].
    intros st0 Hst0. simplify_eq. specialize (Hok _ Hp). lia.
  - (* Skip *)
    destruct (vs !! h) as [[v| |]|] eqn:Hh; try done. cbn [mbind option_bind] in Hex.
    case_decide as Hn; [|done].
    unfold Sequential_Skip in Hex.
    destruct (heap w !! seq_file_ v) as [st|] eqn:Hp; [|done]. cbn [mbind option_bind] in Hex.
    pose proof (Forall_lookup_1 _ _ _ _ Hv Hh) as Hok. cbn [view_ok] in Hok.
    destruct Hw as (? & ? & ? & ? & Hfiles). destruct (Hfiles _ _ Hp) as (_ & _ & Hmax).
    rewrite (SequentialFileImpl_Skip_pos _ _ _ (Hok _ Hp) Hmax Hn) in Hex.
    injection Hex as <-. split; [|apply heap_le_refl].
    apply move_cursor_inv; [by split_and! | done | done |].
    intros st0 Hst0. simplify_eq. specialize (Hok _ Hp). lia.
  - (* PreAllocate *)
    unfold file_of in Hex. cbn [world views] in Hex.
    destruct (vs !! h) as [v|] eqn:Hh; [|done]. cbn [mbind option_bind] in Hex.
    destruct (heap w !! view_file v) as [st|] eqn:Hp; [|done]. cbn [mbind option_bind] in Hex.
    destruct v as [| |wv]; try done. case_decide as Hg; [|done]. destruct Hg as [Hsize Hov].
    destruct (Writable_PreAllocate wv size padding w) as [[s w']|] eqn:Hon; [|done].
    pose proof (Writable_PreAllocate_returned _ _ _ _ _ Hon) as Hpad.
    injection Hex as <-. cbn [view_file] in Hp.
    pose proof Hw as (_ & _ & _ & _ & Hfiles). destruct (Hfiles _ _ Hp) as (Hrep & Hup & Hmax).
    destruct (PreAllocate_spec st size padding Hrep Hup Hsize Hov Hpad)
      as (st' & Hpre & Hr & Hs & Hrep' & Hup' & _).
    eapply (write_inv e w vs h wv st _ s w' st'); try done; lia.
  - (* Append *)
    unfold file_of in Hex. cbn [world views] in Hex.
    destruct (vs !! h) as [v|] eqn:Hh; [|done]. cbn [mbind option_bind] in Hex.
    destruct (heap w !! view_file v) as [st|] eqn:Hp; [|done]. cbn [mbind option_bind] in Hex.
    destruct v as [| |wv]; try done. case_decide as Hov; [|done]. cbn [op_bytes] in Hov.
    destruct (Writable_Append wv data w) as [[s w']|] eqn:Hon; [|done].
    injection Hex as <-. cbn [view_file] in Hp.
    pose proof Hw as (_ & _ & _ & _ & Hfiles). destruct (Hfiles _ _ Hp) as (Hrep & Hup & Hmax).
    destruct (Append_spec st data Hrep Hup Hov)
      as (st' & Happ & Hr & Hs & Hrep' & Hup' & _).
    eapply (write_inv e w vs h wv st _ s w' st'); try done; lia.
  - (* AppendVector *)
    unfold file_of in Hex. cbn [world views] in Hex.
    destruct (vs !! h) as [v|] eqn:Hh; [|done]. cbn [mbind option_bind] in Hex.
    destruct (heap w !! view_file v) as [st|] eqn:Hp; [|done]. cbn [mbind option_bind] in Hex.
    destruct v as [| |wv]; try done. case_decide as Hov; [|done]. cbn [op_bytes] in Hov.
    destruct (Writable_AppendVector wv data_vector w) as [[s w']|] eqn:Hon; [|done].
    injection Hex as <-. cbn [view_file] in Hp.
    pose proof Hw as (_ & _ & _ & _ & Hfiles). destruct (Hfiles _ _ Hp) as (Hrep & Hup & Hmax).
    destruct (AppendVector_spec data_vector st Hrep Hup Hov)
      as (st' & Happ & Hr & Hs & Hrep' & Hup' & _).
    eapply (write_inv e w vs h wv st _ s w' st'); try done; lia.
  - (* DeleteFile *)
    destruct (fm_find fname (file_map_ w)) as [p|] eqn:Hf.
    + destruct (DeleteFile_present e w _ fname p Hw Hf)
        as (st & w' & Hp & Hr & Hdel & Hh & Hb & Hm & Hw').
      rewrite Hdel in Hex. injection Hex as <-.
      assert (heap_le (heap w) (heap w')) as Hle
        by (rewrite Hh; by apply heap_same_le, heap_same_unref).
      split; [|done]. by apply (same_views_inv e w).
    + rewrite (DeleteFile_absent _ _ Hf) in Hex. injection Hex as <-.
      split; [done | apply heap_le_refl].
  - (* DeleteRecursively *)
    destruct e; [by specialize (He eq_refl)|].
    destruct (DeleteRecursively dirname w) as [[s w']|] eqn:Hdel; [|done].
    injection Hex as <-.
    destruct (DeleteRecursively_spec w _ dirname s w' Hw Hdel) as (Hh & Hb & Hw').
    assert (heap_le (heap w) (heap w')) as Hle by (rewrite Hh; apply heap_le_refl).
    split; [|done]. by apply (same_views_inv false w).
  - (* RenameFile *)
    destruct (RenameFile_spec e w _ src target Hw) as (s & w' & Hren & Hb & Hsame & Hw').
    rewrite Hren in Hex. injection Hex as <-.
    assert (heap_le (heap w) (heap w')) as Hle by by apply heap_same_le.
    split; [|done]. by apply (same_views_inv e w).
Qed.

Lemma System_new_inv e : sys_inv e System_new.
Proof.
  split; [|by apply Forall_nil]. cbn [System_new world views fmap list_fmap].
  unfold world_inv. cbn [InMemoryEnv_new heap brk file_map_ fmap list_fmap app].
  split_and!; try done.
  - constructor.
  - constructor.
Qed.

Lemma run_inv e ops : ∀ s s',
  sys_inv e s →
  (e = true → Forall (λ op, is_DeleteRecursively op = false) ops) →
  run ops s = Some s' → sys_inv e s'.
Proof.
  induction ops as [|op ops IH]; intros s s' Hinv He; cbn [run].
  { by intros [= <-]. }
  destruct (exec op s) as [s1|] eqn:Hex; [|done]. cbn [mbind option_bind].
  apply IH.
  - eapply exec_inv; [done| |done]. intros Ht. specialize (He Ht).
    by apply Forall_cons in He as [? _].
  - intros Ht. specialize (He Ht). by apply Forall_cons in He as [_ ?].
Qed.

Lemma reachable_inv ops s : run ops System_new = Some s → sys_inv false s.
Proof. intros Hrun. eapply run_inv; [apply System_new_inv| |done]. done. Qed.

Lemma reachable_inv_exact ops s :
  Forall (λ op, is_DeleteRecursively op = false) ops →
  run ops System_new = Some s → sys_inv true s.
Proof. intros Hops Hrun. eapply run_inv; [apply System_new_inv| |done]. done. Qed.

Lemma sample_system_run : run sample_run System_new = Some sample_system.
Proof. by vm_compute. Qed.

(** ** The claims about views and the namespace *)

(** C10: in every state a client reaches by a serial run, the cursor of a
    sequential view is within the size of its file, so [Skip] returns OK for
    every argument, a [Read] through the view that returns, returns OK, and
    does return when the scratch buffer can hold what is copied into it; and
    no call makes the file of the view smaller. *)
Theorem sequential_cursor_within_file (ops : list Op) (s : System)
    (h : nat) (v : SequentialFileImpl) :
  run ops System_new = Some s →
  views s !! h = Some (VSequential v) →
  ∃ file, heap (world s) !! seq_file_ v = Some file ∧
    0 ≤ pos_ v ≤ size_ file ∧
    (∀ n, ∃ v', Sequential_Skip v n (world s) = Some (OK, v')) ∧
    (∀ n result scratch r,
       Sequential_Read v n result scratch (world s) = Some r → r.1.1.1 = OK) ∧
    (∀ n result scratch,
       0 ≤ n →
       (Read_data (pos_ v) (Z.min n (size_ file - pos_ v)) = SliceScratch →
        Z.min n (size_ file - pos_ v) ≤ Z.of_nat (length scratch)) →
       ∃ v' sl scratch',
         Sequential_Read v n result scratch (world s) = Some (OK, v', sl, scratch')) ∧
    (∀ op s' file',
       exec op s = Some s' → heap (world s') !! seq_file_ v = Some file' →
       size_ file ≤ size_ file').
Proof.
  intros Hrun Hh. pose proof (reachable_inv _ _ Hrun) as [Hw Hv].
  destruct (views_live false (world s) (views s) (VSequential v) Hw) as [file Hp].
  { by eapply list_elem_of_lookup_2. }
  cbn [view_file] in Hp. exists file. split; [done|].
  pose proof (Forall_lookup_1 _ _ _ _ Hv Hh) as Hok. cbn [view_ok] in Hok.
  specialize (Hok _ Hp). split; [done|].
  pose proof Hw as (_ & _ & _ & _ & Hfiles).
  destruct (Hfiles _ _ Hp) as (Hrep & Hup & Hmax).
  split_and!.
  - intros n. unfold Sequential_Skip, SequentialFileImpl_Skip, Size. rewrite Hp.
    cbn [mbind option_bind]. rewrite decide_False by lia. by eexists.
  - intros n result scratch r. unfold Sequential_Read, SequentialFileImpl_Read.
    rewrite Hp. cbn [mbind option_bind]. unfold Read. rewrite decide_False by lia.
    repeat case_decide; cbn [mbind option_bind];
      repeat match goal with
             | |- context [index ?a ?b] => destruct (index a b); [|done]
             | |- context [Read_loop ?a ?b ?c ?d ?e ?f] =>
                 destruct (Read_loop a b c d e f); [|done]
             end;
      cbn [mbind option_bind ok]; by intros [= <-].
  - intros n result scratch Hn Hcap.
    destruct (Read_spec file (pos_ v) n result scratch Hrep Hup Hmax Hok Hn Hcap)
      as (sl & scratch' & Hread & _).
    unfold Sequential_Read, SequentialFileImpl_Read. rewrite Hp. cbn [mbind option_bind].
    rewrite Hread. cbn [mbind option_bind]. by eexists _, _, _.
  - intros op s' file' Hex Hp'.
    destruct (exec_inv false op s s') as [_ Hle]; [done..|].
    by apply (Hle _ _ _ Hp Hp').
Qed.

Lemma sequential_cursor_within_file_witness :
  (run sample_run System_new = Some sample_system ∧
   views sample_system !! 2%nat
     = Some (VSequential {| seq_file_ := 2%nat; pos_ := 8192 |})) ∧
  ∃ file, heap (world sample_system) !! 2%nat = Some file ∧
    0 ≤ 8192 ≤ size_ file ∧
    (∀ n, ∃ v', Sequential_Skip {| seq_file_ := 2%nat; pos_ := 8192 |} n
                  (world sample_system) = Some (OK, v')) ∧
    (∀ n result scratch r,
       Sequential_Read {| seq_file_ := 2%nat; pos_ := 8192 |} n result scratch
         (world sample_system) = Some r → r.1.1.1 = OK) ∧
    (∀ n result scratch,
       0 ≤ n →
       (Read_data 8192 (Z.min n (size_ file - 8192)) = SliceScratch →
        Z.min n (size_ file - 8192) ≤ Z.of_nat (length scratch)) →
       ∃ v' sl scratch',
         Sequential_Read {| seq_file_ := 2%nat; pos_ := 8192 |} n result scratch
           (world sample_system) = Some (OK, v', sl, scratch')) ∧
    (∀ op s' file',
       exec op sample_system = Some s' → heap (world s') !! 2%nat = Some file' →
       size_ file ≤ size_ file').
Proof.
  split; [split; by vm_compute|].
  apply (sequential_cursor_within_file sample_run sample_system 2
           {| seq_file_ := 2%nat; pos_ := 8192 |}); by vm_compute.
Defined.

Lemma Read_with_refs r st offset n result scratch :
  Read (with_refs r st) offset n result scratch = Read st offset n result scratch.
Proof. reflexivity. Qed.

Lemma sys_inv_sorted e s : sys_inv e s → fm_sorted (file_map_ (world s)).
Proof. by intros [(? & _) _]. Qed.

(** The lifetime of a [FileState] in general.  In every state a client
    reaches by a serial run,
    - a pointer held by the map or by a view is the address of a live
      [FileState], whose count is at least the number of its holders;
    - [DeleteFile] of a stored path returns OK, after which [FileExists] is
      false and [GetChildren] of the parent does not list the name, while the
      object stays live for every view opened on it before, and [Read] on it
      returns what it returned before;
    - [Unref] of a live object destroys it exactly when its count is 1;
    - unless the run called [DeleteRecursively], the count of a live object
      is exactly the number of its holders. *)
Theorem file_state_outlives_deletion (ops : list Op) (s : System) :
  run ops System_new = Some s →
  (∀ p, p ∈ holders s →
        ∃ st, heap (world s) !! p = Some st ∧ occ p (holders s) ≤ refs_ st) ∧
  (∀ path p,
     fm_find path (file_map_ (world s)) = Some p →
     ∃ w', DeleteFile path (world s) = Some (OK, w') ∧
       FileExists path w' = false ∧
       (∀ dir name, path = (dir +:+ "/") +:+ name → name ∉ (GetChildren dir w').2) ∧
       (∀ h v, views s !! h = Some v → view_file v = p →
          ∃ st st', heap (world s) !! p = Some st ∧ heap w' !! p = Some st' ∧
            ∀ offset n result scratch,
              Read st' offset n result scratch = Read st offset n result scratch)) ∧
  (∀ p st, heap (world s) !! p = Some st →
           ∃ w', Unref p (world s) = Some w' ∧ (heap w' !! p = None ↔ refs_ st = 1)) ∧
  (Forall (λ op, is_DeleteRecursively op = false) ops →
   ∀ p st, heap (world s) !! p = Some st → refs_ st = occ p (holders s)).
Proof.
  intros Hrun. pose proof (reachable_inv _ _ Hrun) as [Hw Hv].
  pose proof Hw as (Hs & Hnd & Hbrk & Hrefs & Hfiles). split_and!.
  - intros p Hin. destruct (refs_ok_live _ _ _ _ Hrefs Hin) as (st & ? & _ & ?). by exists st.
  - intros path p Hf.
    destruct (DeleteFile_present false (world s) _ path p Hw Hf)
      as (st & w' & Hp & Hr & Hdel & Hh & Hb & Hm & Hw').
    exists w'. split; [done|].
    assert (fm_find path (file_map_ w') = None) as Hgone.
    { rewrite Hm, fm_find_erase by done. by rewrite decide_True. }
    split_and!.
    + unfold FileExists. rewrite Hgone. apply bool_decide_false. intros H. by apply H.
    + intros dir name ->.
      destruct (GetChildren_lists_prefixed dir w') as (_ & Hiff & _); [apply Hw'|].
      rewrite Hiff, Hgone. by intros [? ?].
    + intros h v Hh' Hv'. exists st. rewrite Hh, heap_unref_eq.
      assert (2 ≤ occ p (holders s)) as Hocc.
      { unfold holders. rewrite occ_app.
        assert (0 < occ p (file_map_ (world s)).*2)
          by (apply occ_elem; by eapply fm_find_values).
        assert (0 < occ p (view_file <$> views s)).
        { apply occ_elem. rewrite <- Hv'. apply list_elem_of_fmap_2.
          by eapply list_elem_of_lookup_2. }
        lia. }
      specialize (Hrefs p). rewrite Hp in Hrefs. destruct Hrefs as (_ & Hle & _).
      unfold holders in Hocc. rewrite bool_decide_false by lia.
      eexists. split; [done|]. split; [done|]. intros. apply Read_with_refs.
  - intros p st Hp. specialize (Hrefs p). rewrite Hp in Hrefs. destruct Hrefs as (Hr & _).
    rewrite (Unref_eq _ _ _ Hp Hr). eexists. split; [done|].
    cbn [set_heap heap]. rewrite heap_unref_eq. case_bool_decide; split; try done; lia.
  - intros Hops p st Hp. pose proof (reachable_inv_exact _ _ Hops Hrun) as [Hwe _].
    destruct Hwe as (_ & _ & _ & Hrefse & _). specialize (Hrefse p).
    rewrite Hp in Hrefse. destruct Hrefse as (_ & _ & Hex). by apply Hex.
Qed.

Lemma file_state_outlives_deletion_witness :
  run sample_run System_new = Some sample_system ∧
  ((∀ p, p ∈ holders sample_system →
         ∃ st, heap (world sample_system) !! p = Some st ∧
               occ p (holders sample_system) ≤ refs_ st) ∧
   (∀ path p,
      fm_find path (file_map_ (world sample_system)) = Some p →
      ∃ w', DeleteFile path (world sample_system) = Some (OK, w') ∧
        FileExists path w' = false ∧
        (∀ dir name, path = (dir +:+ "/") +:+ name → name ∉ (GetChildren dir w').2) ∧
        (∀ h v, views sample_system !! h = Some v → view_file v = p →
           ∃ st st', heap (world sample_system) !! p = Some st ∧ heap w' !! p = Some st' ∧
             ∀ offset n result scratch,
               Read st' offset n result scratch = Read st offset n result scratch)) ∧
   (∀ p st, heap (world sample_system) !! p = Some st →
            ∃ w', Unref p (world sample_system) = Some w' ∧
                  (heap w' !! p = None ↔ refs_ st = 1)) ∧
   (Forall (λ op, is_DeleteRecursively op = false) sample_run →
    ∀ p st, heap (world sample_system) !! p = Some st →
            refs_ st = occ p (holders sample_system))).
Proof.
  split; [by vm_compute|].
  apply (file_state_outlives_deletion sample_run sample_system). by vm_compute.
Defined.

(** C7: a [FileState] whose last reference is released is not always
    destroyed.  The file "/a/b" is created, written and opened for reading;
    [DeleteRecursively("/a")] erases its entry and both views are closed.  No
    view and no entry of the map holds the object then, and it is live with
    count 1: [DeleteRecursively] has erased the entry without the [Unref]
    that [DeleteFileInternal] does.  With [DeleteFile("/a/b")] in its place
    the same run destroys the object when the last view is closed. *)
Theorem DeleteRecursively_leaves_file_state :
  ∃ s st s',
    run [OpNewWritableFile "/a/b"; OpAppend 0 [Byte.x61];
         OpNewRandomAccessFile "/a/b"; OpDeleteRecursively "/a";
         OpDeleteView 1; OpDeleteView 0] System_new = Some s ∧
    holders s = [] ∧
    heap (world s) !! 1%nat = Some st ∧ refs_ st = 1 ∧
    run [OpNewWritableFile "/a/b"; OpAppend 0 [Byte.x61];
         OpNewRandomAccessFile "/a/b"; OpDeleteFile "/a/b";
         OpDeleteView 1; OpDeleteView 0] System_new = Some s' ∧
    holders s' = [] ∧
    heap (world s') !! 1%nat = None.
Proof.
  eexists _, _, _. split; [by vm_compute|]. split; [by vm_compute|].
  split; [by vm_compute|]. split; [by vm_compute|]. split; [by vm_compute|].
  split; by vm_compute.
Qed.

(** C6, as stated, fails when [src] and [target] are the same stored name:
    [RenameFile] returns OK, the name is gone, and the file cannot be opened
    under [target]; the object has lost the reference of the map. *)
Lemma RenameFile_onto_itself_erases :
  ∃ s w' st st',
    run [OpNewWritableFile "/f"; OpAppend 0 [Byte.x61]] System_new = Some s ∧
    fm_find "/f" (file_map_ (world s)) = Some 1%nat ∧
    RenameFile "/f" "/f" (world s) = Some (OK, w') ∧
    FileExists "/f" w' = false ∧
    NewRandomAccessFile "/f" w' = Some (IOError "/f" "File not found", None, w') ∧
    heap (world s) !! 1%nat = Some st ∧ heap w' !! 1%nat = Some st' ∧
    refs_ st = 2 ∧ refs_ st' = 1.
Proof. eexists _, _, _, _. split_and!; by vm_compute. Qed.

(** C6, amended: in every state a client reaches by a serial run,
    [RenameFile] of a name that is not stored returns the IOError status
    "File not found" and changes nothing; [RenameFile] of a stored name onto
    a different name returns OK, after which [target] maps to the object
    [src] mapped to, [src] is not stored, the other names are as before, the
    object is as it was (content and count), the object [target] mapped to
    before, if any, has gone through [Unref], and a view opened on [target]
    reads what the object of [src] held before. *)
Theorem RenameFile_moves_entry (ops : list Op) (s : System) (src target : string) :
  run ops System_new = Some s →
  match fm_find src (file_map_ (world s)) with
  | None =>
      RenameFile src target (world s)
        = Some (IOError src "File not found", world s)
  | Some p =>
      src ≠ target →
      ∃ w' st,
        RenameFile src target (world s) = Some (OK, w') ∧
        fm_find target (file_map_ w') = Some p ∧
        fm_find src (file_map_ w') = None ∧ FileExists src w' = false ∧
        (∀ k, k ≠ src → k ≠ target →
              fm_find k (file_map_ w') = fm_find k (file_map_ (world s))) ∧
        heap (world s) !! p = Some st ∧ heap w' !! p = Some st ∧
        match fm_find target (file_map_ (world s)) with
        | Some q => Unref q (world s) = Some (set_heap (heap w') (world s))
        | None => heap w' = heap (world s)
        end ∧
        ∃ v w'',
          NewRandomAccessFile target w' = Some (OK, Some v, w'') ∧
          ∀ offset n result scratch,
            RandomAccess_Read v offset n result scratch w''
              = Read st offset n result scratch
  end.
Proof.
  intros Hrun. pose proof (reachable_inv _ _ Hrun) as [Hw _].
  destruct (fm_find src (file_map_ (world s))) as [p|] eqn:Hf;
    [|by apply RenameFile_absent].
  intros Hne. pose proof Hw as (Hs & Hnd & _).
  destruct (RenameFile_present false (world s) _ src target p Hw Hf Hne)
    as (w1 & w' & Hdel & Hren & Hh & Hb & Hm & Hpp & Hsame & Hw').
  destruct (world_inv_live false (world s) _ p Hw) as (st & Hp & _).
  { apply elem_of_app. left. by eapply fm_find_values. }
  assert (fm_sorted (fm_insert target p (fm_erase target (file_map_ (world s))))) as Hs2
    by by apply fm_sorted_insert, fm_sorted_erase.
  assert (fm_find target (file_map_ w') = Some p) as Ht'.
  { rewrite Hm, fm_find_erase, decide_False, fm_find_insert, decide_True by done. done. }
  exists w', st.
  split; [done|]. split; [done|].
  split. { rewrite Hm, fm_find_erase by done. by rewrite decide_True. }
  split.
  { unfold FileExists. rewrite Hm, fm_find_erase, decide_True by done.
    apply bool_decide_false. intros H. by apply H. }
  split.
  { intros k Hk1 Hk2.
    rewrite Hm, fm_find_erase, decide_False, fm_find_insert, decide_False by done.
    rewrite fm_find_erase by done. by rewrite decide_False. }
  split; [done|]. split; [by rewrite Hpp|].
  split.
  { destruct (fm_find target (file_map_ (world s))) as [q|] eqn:Ht.
    - destruct (DeleteFileInternal_present false (world s) _ target q Hw Ht)
        as (stq & w1' & Hq & Hr & Hdel' & Hh1 & _).
      rewrite Hdel in Hdel'. injection Hdel' as <-.
      rewrite (Unref_eq _ _ _ Hq Hr). by rewrite Hh, Hh1.
    - rewrite (DeleteFileInternal_absent _ _ Ht) in Hdel. injection Hdel as <-. done. }
  destruct (NewRandomAccessFile_present false w' _ target p Hw' Ht')
    as (st' & Hp' & Hnew & _).
  rewrite Hpp, Hp in Hp'. injection Hp' as <-.
  eexists _, _. split; [done|]. intros offset n result scratch.
  unfold RandomAccess_Read. cbn [rand_file_ set_heap heap].
  by rewrite lookup_insert_eq.
Qed.

Lemma RenameFile_moves_entry_witness :
  run sample_run System_new = Some sample_system ∧
  ("/a/y" ≠ "/a/x" →
   ∃ w' st,
     RenameFile "/a/y" "/a/x" (world sample_system) = Some (OK, w') ∧
     fm_find "/a/x" (file_map_ w') = Some 2%nat ∧
     fm_find "/a/y" (file_map_ w') = None ∧ FileExists "/a/y" w' = false ∧
     (∀ k, k ≠ "/a/y" → k ≠ "/a/x" →
           fm_find k (file_map_ w') = fm_find k (file_map_ (world sample_system))) ∧
     heap (world sample_system) !! 2%nat = Some st ∧ heap w' !! 2%nat = Some st ∧
     Unref 3%nat (world sample_system)
       = Some (set_heap (heap w') (world sample_system)) ∧
     ∃ v w'',
       NewRandomAccessFile "/a/x" w' = Some (OK, Some v, w'') ∧
       ∀ offset n result scratch,
         RandomAccess_Read v offset n result scratch w''
           = Read st offset n result scratch).
Proof.
  split; [by vm_compute|].
  exact (RenameFile_moves_entry sample_run sample_system "/a/y" "/a/x"
           ltac:(by vm_compute)).
Defined.

(** C3: [DeleteRecursively] does not release the reference of the map.  With
    the file "/a/b" stored and no view open, [DeleteRecursively("/a")] erases
    the entry and leaves the object live with count 1, where [DeleteFile]
    destroys it. *)
Theorem DeleteRecursively_keeps_reference :
  ∃ s w' w'' st,
    run [OpNewWritableFile "/a/b"; OpDeleteView 0] System_new = Some s ∧
    fm_find "/a/b" (file_map_ (world s)) = Some 1%nat ∧
    DeleteRecursively "/a" (world s) = Some (OK, w') ∧
    file_map_ w' = [] ∧ heap w' !! 1%nat = Some st ∧ refs_ st = 1 ∧
    DeleteFile "/a/b" (world s) = Some (OK, w'') ∧
    file_map_ w'' = [] ∧ heap w'' !! 1%nat = None.
Proof. eexists _, _, _, _. split_and!; by vm_compute. Qed.

(** [DeleteRecursively] in general: the heap is as before, and the names
    left are those without the prefix. *)
Lemma DeleteRecursively_erases_prefixed dirname w :
  dirname ≠ "" →
  ∃ w', DeleteRecursively dirname w = Some (OK, w') ∧
    heap w' = heap w ∧
    ∀ k, fm_find k (file_map_ w') =
         if String.prefix (normalize_dir dirname) k then None
         else fm_find k (file_map_ w).
Proof.
  intros Hne. rewrite (DeleteRecursively_eq _ _ Hne). eexists. split; [done|].
  split; [done|]. intros k. apply DeleteRecursively_loop_find.
Qed.

(** The specification's example: "/a" erases "/a/b" and "/a/c/d", and leaves
    "/ab" and "/b". *)
Example DeleteRecursively_example :
  ∃ s w',
    run (OpNewWritableFile <$> ["/a/b"; "/a/c/d"; "/ab"; "/b"]) System_new = Some s ∧
    DeleteRecursively "/a" (world s) = Some (OK, w') ∧
    (file_map_ w').*1 = ["/ab"; "/b"].
Proof. eexists _, _. split_and!; by vm_compute. Qed.

(** * Further properties of FileState and of the views *)

(** ** Reading through a sequential view *)

Lemma take_add_split {A} (l : list A) (n1 n2 : nat) :
  take (n1 + n2) l = take n1 l ++ take n2 (drop n1 l).
Proof.
  revert l. induction n1 as [|n1 IH]; intros [|x l]; cbn; [done| done | |].
  - by rewrite take_nil.
  - by rewrite IH.
Qed.

Lemma length_content st :
  fs_rep st → fs_upper st → length (content st) = Z.to_nat (size_ st).
Proof.
  intros [Hblk Hsz] Hup. unfold fs_upper in Hup. unfold content, flat.
  pose proof (length_concat_blocks _ Hblk) as Hcat.
  rewrite kBlockSize_eq in Hup. rewrite length_take. lia.
Qed.

Lemma sample_file_inv :
  fs_rep sample_file ∧ fs_upper sample_file ∧ fs_lower sample_file ∧
  size_ sample_file = 16396.
Proof.
  destruct (created_inv 1) as (Hrep & Hup & Hlow & _).
  destruct (append_ops_spec sample_ops (created 1) Hrep Hup Hlow)
    as (ss & st' & Hops & _ & _ & _ & Hsz & Hrep' & Hup' & Hlow' & _);
    [by vm_compute|].
  unfold sample_file. rewrite Hops. cbn.
  split; [done|]. split; [done|]. split; [done|]. rewrite Hsz. by vm_compute.
Qed.

(** A read through a sequential view returns the bytes at the cursor and
    moves the cursor past them. *)
Lemma SequentialFileImpl_Read_spec st pos n result scratch :
  fs_rep st → fs_upper st → size_ st < 2 ^ 64 →
  0 ≤ pos ≤ size_ st → 0 ≤ n →
  (Read_data pos (Z.min n (size_ st - pos)) = SliceScratch →
   Z.min n (size_ st - pos) ≤ Z.of_nat (length scratch)) →
  ∃ sl scratch',
    SequentialFileImpl_Read st pos n result scratch
      = Some (OK, pos + Z.min n (size_ st - pos), sl, scratch') ∧
    slice_size sl = Z.min n (size_ st - pos) ∧
    slice_bytes st scratch' sl =
      Some (take (Z.to_nat n) (drop (Z.to_nat pos) (content st))).
Proof.
  intros Hrep Hup Hmax Hpos Hn Hcap.
  destruct (Read_spec st pos n result scratch Hrep Hup Hmax Hpos Hn Hcap)
    as (sl & scratch' & Hread & Hsz & _ & _ & Hbytes).
  exists sl, scratch'. unfold SequentialFileImpl_Read. rewrite Hread.
  cbn [mbind option_bind ok]. rewrite Hsz, wrap64_small by lia. done.
Qed.

(** X1: reading [n1] bytes and then [n2] bytes through a sequential view
    returns, one after the other, the bytes that a single read of [n1 + n2]
    bytes returns, which are the next bytes of the file at the cursor, and
    leaves the cursor where the single read leaves it; the scratch buffers
    hold the lengths asked for. *)
Theorem sequential_reads_concatenate (st : FileState) (pos n1 n2 : Z)
    (r1 r2 r12 : Slice) (s1 s2 s12 : list cell) :
  fs_rep st → fs_upper st → size_ st < 2 ^ 64 →
  0 ≤ pos ≤ size_ st → 0 ≤ n1 → 0 ≤ n2 →
  n1 ≤ Z.of_nat (length s1) → n2 ≤ Z.of_nat (length s2) →
  n1 + n2 ≤ Z.of_nat (length s12) →
  ∃ pos1 pos2 sl1 sl2 sl12 s1' s2' s12' b1 b2,
    SequentialFileImpl_Read st pos n1 r1 s1 = Some (OK, pos1, sl1, s1') ∧
    SequentialFileImpl_Read st pos1 n2 r2 s2 = Some (OK, pos2, sl2, s2') ∧
    SequentialFileImpl_Read st pos (n1 + n2) r12 s12 = Some (OK, pos2, sl12, s12') ∧
    pos2 = Z.min (pos + n1 + n2) (size_ st) ∧
    slice_bytes st s1' sl1 = Some b1 ∧
    slice_bytes st s2' sl2 = Some b2 ∧
    slice_bytes st s12' sl12 = Some (b1 ++ b2) ∧
    b1 ++ b2 = take (Z.to_nat (n1 + n2)) (drop (Z.to_nat pos) (content st)).
Proof.
  intros Hrep Hup Hmax Hpos Hn1 Hn2 Hc1 Hc2 Hc12.
  pose proof (length_content st Hrep Hup) as Hlen.
  destruct (SequentialFileImpl_Read_spec st pos n1 r1 s1)
    as (sl1 & s1' & Hr1 & _ & Hb1); [first [done | intros; lia] ..|].
  destruct (SequentialFileImpl_Read_spec st (pos + Z.min n1 (size_ st - pos)) n2 r2 s2)
    as (sl2 & s2' & Hr2 & _ & Hb2); [first [done | intros; lia] ..|].
  destruct (SequentialFileImpl_Read_spec st pos (n1 + n2) r12 s12)
    as (sl12 & s12' & Hr12 & _ & Hb12); [first [done | intros; lia] ..|].
  assert (take (Z.to_nat n1) (drop (Z.to_nat pos) (content st)) ++
          take (Z.to_nat n2)
            (drop (Z.to_nat (pos + Z.min n1 (size_ st - pos))) (content st))
          = take (Z.to_nat (n1 + n2)) (drop (Z.to_nat pos) (content st))) as Hcat.
  { rewrite (Z2Nat.inj_add n1 n2) by lia. rewrite take_add_split. f_equal. f_equal.
    rewrite drop_drop.
    destruct (decide (n1 ≤ size_ st - pos)) as [Hle|Hgt].
    - f_equal. lia.
    - rewrite !drop_ge; [done | lia | lia]. }
  eexists _, _, sl1, sl2, sl12, s1', s2', s12', _, _.
  split; [exact Hr1|]. split; [exact Hr2|].
  split.
  { rewrite Hr12.
    by replace (pos + Z.min (n1 + n2) (size_ st - pos))
      with (pos + Z.min n1 (size_ st - pos) +
            Z.min n2 (size_ st - (pos + Z.min n1 (size_ st - pos)))) by lia. }
  split; [lia|]. split; [exact Hb1|]. split; [exact Hb2|].
  split; [by rewrite Hb12, Hcat | exact Hcat].
Qed.

Lemma sequential_reads_concatenate_witness :
  (fs_rep sample_file ∧ fs_upper sample_file ∧ size_ sample_file < 2 ^ 64 ∧
   0 ≤ 8189 ≤ size_ sample_file ∧ 0 ≤ 2 ∧ 0 ≤ 5 ∧
   2 ≤ Z.of_nat (length [None; None : cell]) ∧
   5 ≤ Z.of_nat (length (replicate 5 (None : cell))) ∧
   2 + 5 ≤ Z.of_nat (length (replicate 7 (None : cell)))) ∧
  ∃ pos1 pos2 sl1 sl2 sl12 s1' s2' s12' b1 b2,
    SequentialFileImpl_Read sample_file 8189 2 (mkSlice SliceEmpty 0) [None; None]
      = Some (OK, pos1, sl1, s1') ∧
    SequentialFileImpl_Read sample_file pos1 5 (mkSlice SliceEmpty 0) (replicate 5 None)
      = Some (OK, pos2, sl2, s2') ∧
    SequentialFileImpl_Read sample_file 8189 (2 + 5) (mkSlice SliceEmpty 0)
        (replicate 7 None)
      = Some (OK, pos2, sl12, s12') ∧
    pos2 = Z.min (8189 + 2 + 5) (size_ sample_file) ∧
    slice_bytes sample_file s1' sl1 = Some b1 ∧
    slice_bytes sample_file s2' sl2 = Some b2 ∧
    slice_bytes sample_file s12' sl12 = Some (b1 ++ b2) ∧
    b1 ++ b2 = take (Z.to_nat (2 + 5)) (drop (Z.to_nat 8189) (content sample_file)).
Proof.
  split; [split; [apply sample_file_inv|]; split; [apply sample_file_inv|];
          split_and!; by vm_compute|].
  apply (sequential_reads_concatenate sample_file 8189 2 5);
    [apply sample_file_inv | apply sample_file_inv | by vm_compute ..].
Defined.

(** X2: [Skip] on a cursor within the file returns OK and moves the cursor to
    [min (pos + n, size)], never past the end of the file; that is where a
    read of [n] bytes leaves it, so a read of [m] bytes after the skip returns
    the bytes of the file [n] further on. *)
Theorem Skip_moves_like_Read (st : FileState) (pos n m : Z)
    (r1 r2 : Slice) (s1 s2 : list cell) :
  fs_rep st → fs_upper st → size_ st < 2 ^ 64 →
  0 ≤ pos ≤ size_ st → 0 ≤ n → 0 ≤ m →
  n ≤ Z.of_nat (length s1) → m ≤ Z.of_nat (length s2) →
  ∃ sl1 s1' sl2 s2',
    SequentialFileImpl_Skip st pos n = (OK, Z.min (pos + n) (size_ st)) ∧
    SequentialFileImpl_Read st pos n r1 s1
      = Some (OK, Z.min (pos + n) (size_ st), sl1, s1') ∧
    SequentialFileImpl_Read st (Z.min (pos + n) (size_ st)) m r2 s2
      = Some (OK, Z.min (pos + n + m) (size_ st), sl2, s2') ∧
    slice_bytes st s2' sl2
      = Some (take (Z.to_nat m) (drop (Z.to_nat (pos + n)) (content st))).
Proof.
  intros Hrep Hup Hmax Hpos Hn Hm Hc1 Hc2.
  pose proof (length_content st Hrep Hup) as Hlen.
  destruct (SequentialFileImpl_Read_spec st pos n r1 s1)
    as (sl1 & s1' & Hr1 & _ & _); [first [done | intros; lia] ..|].
  destruct (SequentialFileImpl_Read_spec st (Z.min (pos + n) (size_ st)) m r2 s2)
    as (sl2 & s2' & Hr2 & _ & Hb2); [first [done | intros; lia] ..|].
  exists sl1, s1', sl2, s2'.
  split.
  { rewrite SequentialFileImpl_Skip_pos by done. f_equal. lia. }
  split.
  { rewrite Hr1.
    by replace (pos + Z.min n (size_ st - pos)) with (Z.min (pos + n) (size_ st)) by lia. }
  split.
  { rewrite Hr2.
    by replace (Z.min (pos + n) (size_ st) +
                Z.min m (size_ st - Z.min (pos + n) (size_ st)))
      with (Z.min (pos + n + m) (size_ st)) by lia. }
  rewrite Hb2. f_equal.
  destruct (decide (pos + n ≤ size_ st)) as [Hle|Hgt].
  - do 2 f_equal. lia.
  - rewrite !drop_ge; [done | lia | lia].
Qed.

Lemma Skip_moves_like_Read_witness :
  (fs_rep sample_file ∧ fs_upper sample_file ∧ size_ sample_file < 2 ^ 64 ∧
   0 ≤ 10 ≤ size_ sample_file ∧ 0 ≤ 8180 ∧ 0 ≤ 4 ∧
   8180 ≤ Z.of_nat (length (replicate (Z.to_nat 8180) (None : cell))) ∧
   4 ≤ Z.of_nat (length (replicate 4 (None : cell)))) ∧
  ∃ sl1 s1' sl2 s2',
    SequentialFileImpl_Skip sample_file 10 8180
      = (OK, Z.min (10 + 8180) (size_ sample_file)) ∧
    SequentialFileImpl_Read sample_file 10 8180 (mkSlice SliceEmpty 0)
        (replicate (Z.to_nat 8180) None)
      = Some (OK, Z.min (10 + 8180) (size_ sample_file), sl1, s1') ∧
    SequentialFileImpl_Read sample_file (Z.min (10 + 8180) (size_ sample_file)) 4
        (mkSlice SliceEmpty 0) (replicate 4 None)
      = Some (OK, Z.min (10 + 8180 + 4) (size_ sample_file), sl2, s2') ∧
    slice_bytes sample_file s2' sl2
      = Some (take (Z.to_nat 4) (drop (Z.to_nat (10 + 8180)) (content sample_file))).
Proof.
  split; [split; [apply sample_file_inv|]; split; [apply sample_file_inv|];
          split_and!; by vm_compute|].
  apply (Skip_moves_like_Read sample_file 10 8180 4);
    [apply sample_file_inv | apply sample_file_inv | by vm_compute ..].
Defined.

(** ** What a read does to the scratch buffer *)

(** X3: a read within the file, into a scratch buffer that holds the clamped
    length, leaves the buffer with its length and changes none of its bytes
    past the length of the result; the result is either a view that leaves
    the buffer as it was, or the first bytes of the buffer, which are then
    the bytes of the file at [offset]. *)
Theorem Read_writes_only_result (st : FileState) (offset n : Z)
    (result : Slice) (scratch : list cell) :
  fs_rep st → fs_upper st → size_ st < 2 ^ 64 →
  0 ≤ offset ≤ size_ st → 0 ≤ n →
  Z.min n (size_ st - offset) ≤ Z.of_nat (length scratch) →
  ∃ sl scratch',
    Read st offset n result scratch = Some (OK, sl, scratch') ∧
    slice_size sl = Z.min n (size_ st - offset) ∧
    length scratch' = length scratch ∧
    drop (Z.to_nat (slice_size sl)) scratch'
      = drop (Z.to_nat (slice_size sl)) scratch ∧
    (data_ sl ≠ SliceScratch → scratch' = scratch) ∧
    (data_ sl = SliceScratch →
     take (Z.to_nat (slice_size sl)) scratch'
       = take (Z.to_nat n) (drop (Z.to_nat offset) (content st))).
Proof.
  intros Hrep Hup Hmax Hoff Hn Hcap.
  destruct (Read_spec st offset n result scratch Hrep Hup Hmax Hoff Hn)
    as (sl & scratch' & Hread & Hsz & Hdata & Hsame & Hbytes); [by intros _|].
  exists sl, scratch'. split; [done|]. split; [done|].
  assert (data_ sl ≠ SliceScratch ∨ data_ sl = SliceScratch) as [Hview|Hscr]
    by (destruct (data_ sl); [by left | by left | by right]).
  { rewrite (Hsame Hview). by split_and!. }
  assert (take (Z.to_nat (slice_size sl)) scratch'
          = take (Z.to_nat n) (drop (Z.to_nat offset) (content st))) as Htake.
  { unfold slice_bytes, peek in Hbytes. rewrite Hscr in Hbytes.
    case_decide; [|done]. rewrite drop_0 in Hbytes. by injection Hbytes. }
  (* the buffer after the copy loop *)
  destruct Hrep as [Hblk Hsize]. unfold fs_upper in Hup.
  pose proof (length_concat_blocks _ Hblk) as Hcat.
  pose proof (Z.mod_pos_bound offset kBlockSize eq_refl) as Hbo.
  pose proof (Z.div_mod offset kBlockSize) as Hdm.
  revert Hread. unfold Read. rewrite decide_False by lia.
  rewrite wrap64_small by lia.
  assert ((if decide (n > size_ st - offset) then size_ st - offset else n)
          = Z.min n (size_ st - offset)) as -> by (case_decide; lia).
  rewrite <- Hsz.
  destruct (decide (slice_size sl = 0)) as [Hz|Hnz].
  { intros [= <- <-]. done. }
  case_decide as Hone.
  { match goal with |- context [index ?a ?b] => destruct (index a b); [|done] end.
    cbn [mbind option_bind]. intros [= <- <-]. done. }
  rewrite kBlockSize_eq in *. specialize (Hdm ltac:(done)).
  assert (0 ≤ offset `div` 8192) as Hq by (apply Z.div_pos; lia).
  rewrite (Read_loop_spec (Z.to_nat (slice_size sl)))
    by (rewrite ?kBlockSize_eq; first [done | lia]).
  cbn [mbind option_bind]. intros [= _ <-].
  rewrite Z.add_0_l in *.
  remember (drop _ (concat (blocks_ st))) as L eqn:HL.
  rewrite kBlockSize_eq in HL.
  assert (length (take (Z.to_nat (slice_size sl)) L) = Z.to_nat (slice_size sl)) as Htk.
  { rewrite length_take, HL, length_drop. lia. }
  split; [rewrite length_app, Htk, length_drop; lia|].
  split; [by rewrite drop_app_length' by done|]. split; [done|].
  intros _. exact Htake.
Qed.

Lemma Read_writes_only_result_witness :
  (fs_rep sample_file ∧ fs_upper sample_file ∧ size_ sample_file < 2 ^ 64 ∧
   0 ≤ 8190 ≤ size_ sample_file ∧ 0 ≤ 4 ∧
   Z.min 4 (size_ sample_file - 8190)
     ≤ Z.of_nat (length (replicate 6 (Some Byte.x2a : cell)))) ∧
  ∃ sl scratch',
    Read sample_file 8190 4 (mkSlice SliceEmpty 0) (replicate 6 (Some Byte.x2a))
      = Some (OK, sl, scratch') ∧
    slice_size sl = Z.min 4 (size_ sample_file - 8190) ∧
    length scratch' = length (replicate 6 (Some Byte.x2a : cell)) ∧
    drop (Z.to_nat (slice_size sl)) scratch'
      = drop (Z.to_nat (slice_size sl)) (replicate 6 (Some Byte.x2a)) ∧
    (data_ sl ≠ SliceScratch → scratch' = replicate 6 (Some Byte.x2a)) ∧
    (data_ sl = SliceScratch →
     take (Z.to_nat (slice_size sl)) scratch'
       = take (Z.to_nat 4) (drop (Z.to_nat 8190) (content sample_file))).
Proof.
  split; [split; [apply sample_file_inv|]; split; [apply sample_file_inv|];
          split_and!; by vm_compute|].
  apply (Read_writes_only_result sample_file 8190 4);
    [apply sample_file_inv | apply sample_file_inv | by vm_compute ..].
Defined.

(** ** Appends compose *)

Lemma memcpy_Some (dst : list cell) (off : Z) (src : list cell) :
  0 ≤ off → off + Z.of_nat (length src) ≤ Z.of_nat (length dst) →
  memcpy dst off src
    = Some (take (Z.to_nat off) dst ++ src ++ drop (Z.to_nat off + length src) dst).
Proof. intros Hoff Hlen. unfold memcpy. by rewrite decide_True by lia. Qed.

(** Copying [x ++ y] is copying [x] and then [y] right after it. *)
Lemma memcpy_app (dst : list cell) (off : Z) (x y : list cell) :
  0 ≤ off →
  off + Z.of_nat (length x) + Z.of_nat (length y) ≤ Z.of_nat (length dst) →
  memcpy dst off (x ++ y) =
    dst' ← memcpy dst off x; memcpy dst' (off + Z.of_nat (length x)) y.
Proof.
  intros Hoff Hlen.
  rewrite (memcpy_Some dst off (x ++ y)) by (rewrite ?length_app; lia).
  rewrite (memcpy_Some dst off x) by lia. cbn [mbind option_bind].
  assert (length (take (Z.to_nat off) dst ++ x) = (Z.to_nat off + length x)%nat) as Hpre
    by (rewrite length_app, length_take; lia).
  rewrite memcpy_Some; [|lia|].
  2:{ rewrite !length_app, length_take, length_drop. lia. }
  f_equal.
  replace (Z.to_nat (off + Z.of_nat (length x))) with (Z.to_nat off + length x)%nat by lia.
  rewrite (app_assoc (take (Z.to_nat off) dst) x).
  rewrite take_app_length' by done.
  replace (Z.to_nat off + length x + length y)%nat
    with (length (take (Z.to_nat off) dst ++ x) + length y)%nat by lia.
  rewrite drop_app_add, drop_drop, length_app.
  rewrite <- !app_assoc. do 3 f_equal. f_equal. lia.
Qed.

Lemma last_set_back (bs : list (list cell)) blk :
  bs ≠ [] → last (set_back bs blk) = Some blk.
Proof.
  intros Hne. unfold set_back. rewrite last_lookup, length_insert.
  apply list_lookup_insert_eq. destruct bs; [done | cbn [length]; lia].
Qed.

Lemma set_back_set_back (bs : list (list cell)) blk blk' :
  set_back (set_back bs blk) blk' = set_back bs blk'.
Proof. unfold set_back. by rewrite length_insert, list_insert_insert_eq. Qed.

Lemma AppendRaw_loop_ne st src :
  src ≠ [] →
  AppendRaw_loop st src = '(st', src') ← AppendRaw_iter st src; AppendRaw_loop st' src'.
Proof. intros Hne. rewrite AppendRaw_loop_eq. by destruct src. Qed.

(** One turn of the append loop, with the block it writes. *)
Lemma AppendRaw_iter_eq st src off blocks avail :
  fs_rep st → fs_upper st → src ≠ [] →
  size_ st + Z.of_nat (length src) < 2 ^ 64 →
  off = size_ st `mod` kBlockSize →
  blocks = (if decide (off ≠ 0) then blocks_ st else blocks_ st ++ [new_block]) →
  avail = Z.min (kBlockSize - off) (Z.of_nat (length src)) →
  ∃ back back' st',
    last blocks = Some back ∧ length back = Z.to_nat kBlockSize ∧
    memcpy back off (take (Z.to_nat avail) src) = Some back' ∧
    st' = {| refs_ := refs_ st; blocks_ := set_back blocks back';
             size_ := size_ st + avail |} ∧
    AppendRaw_iter st src = Some (st', drop (Z.to_nat avail) src) ∧
    fs_rep st' ∧ fs_upper st'.
Proof.
  intros Hrep Hup Hne Hov -> -> ->.
  destruct (AppendRaw_iter_shape st src Hrep Hup Hne Hov)
    as (n & bs' & pre & suf & rest & Hit & Hn & Hbs' & Hlen & Hup' & _).
  assert (0 ≤ size_ st) as Hsz by apply Hrep.
  assert (fs_rep {| refs_ := refs_ st; blocks_ := bs'; size_ := size_ st + Z.of_nat n |}
          ∧ fs_upper {| refs_ := refs_ st; blocks_ := bs'; size_ := size_ st + Z.of_nat n |})
    as Hinv.
  { split; [split; cbn [blocks_ size_]; [done | lia] | done]. }
  revert Hit Hinv. destruct Hrep as [Hblk _]. unfold fs_upper in Hup.
  assert (0 < length src)%nat as Hlsrc by (destruct src; [done | cbn [length]; lia]).
  pose proof (Z.mod_pos_bound (size_ st) kBlockSize eq_refl) as Hoff.
  pose proof (Z.div_mod (size_ st) kBlockSize) as Hdm.
  unfold AppendRaw_iter.
  remember (size_ st `mod` kBlockSize) as off eqn:Eoff.
  remember (size_ st `div` kBlockSize) as q eqn:Eq.
  rewrite kBlockSize_eq in *. specialize (Hdm ltac:(done)). clear Eoff Eq.
  destruct (decide (off ≠ 0)) as [Hnz|Hz].
  - destruct (blocks_ st) as [|back bs _] using rev_ind.
    { cbn [length] in Hup. lia. }
    apply Forall_app in Hblk as [_ Hback]. rewrite Forall_singleton in Hback.
    assert ((if decide (8192 - off > Z.of_nat (length src))
             then Z.of_nat (length src) else 8192 - off)
            = Z.min (8192 - off) (Z.of_nat (length src))) as -> by (case_decide; lia).
    rewrite last_snoc. cbn [mbind option_bind].
    rewrite memcpy_Some; [|lia|rewrite length_take; lia].
    cbn [mbind option_bind]. rewrite wrap64_small by lia.
    intros Hit Hinv. injection Hit as Hb Hs _. rewrite <- Hb, <- Hs in Hinv.
    eexists back, _, _.
    split; [done|]. split; [done|].
    split; [apply memcpy_Some; [lia | rewrite length_take; lia]|].
    split; [reflexivity|]. split; [done|]. exact Hinv.
  - assert (off = 0) as -> by lia.
    assert ((if decide (8192 > Z.of_nat (length src))
             then Z.of_nat (length src) else 8192)
            = Z.min (8192 - 0) (Z.of_nat (length src))) as -> by (case_decide; lia).
    rewrite last_snoc. cbn [mbind option_bind].
    rewrite memcpy_Some;
      [|lia|rewrite length_take, length_new_block, kBlockSize_eq; lia].
    cbn [mbind option_bind]. rewrite wrap64_small by lia.
    intros Hit Hinv. injection Hit as Hb Hs _. rewrite <- Hb, <- Hs in Hinv.
    eexists new_block, _, _.
    split; [done|]. split; [by rewrite length_new_block, kBlockSize_eq|].
    split; [apply memcpy_Some;
            [lia | rewrite length_take, length_new_block, kBlockSize_eq; lia]|].
    split; [reflexivity|]. split; [done|]. exact Hinv.
Qed.

(** The append loop on [a ++ b] is the loop on [a] and then on [b]: the blocks
    and the size are the same, byte for byte. *)
Lemma AppendRaw_loop_app a : ∀ st b,
  fs_rep st → fs_upper st →
  size_ st + Z.of_nat (length a) + Z.of_nat (length b) < 2 ^ 64 →
  AppendRaw_loop st (a ++ b) = st1 ← AppendRaw_loop st a; AppendRaw_loop st1 b.
Proof.
  induction a as [a IH] using (induction_ltof1 _ (@length cell)). unfold ltof in IH.
  intros st b Hrep Hup Hov.
  destruct (decide (a = [])) as [->|Hna].
  { by rewrite (AppendRaw_loop_eq st []). }
  destruct (decide (b = [])) as [->|Hnb].
  { rewrite app_nil_r.
    destruct (AppendRaw_loop_spec a st) as (st1 & -> & _); [done | done | lia |].
    cbn [mbind option_bind]. by rewrite AppendRaw_loop_eq. }
  assert (0 < length a ∧ 0 < length b)%nat as [Hla Hlb]
    by (destruct a, b; cbn [length]; done || lia).
  assert (a ++ b ≠ []) as Hnab by (by destruct a).
  pose proof (Z.mod_pos_bound (size_ st) kBlockSize eq_refl) as Hoff.
  pose proof (Z.div_mod (size_ st) kBlockSize) as Hdm.
  destruct (AppendRaw_iter_eq st a _ _ _ Hrep Hup Hna ltac:(lia) eq_refl eq_refl eq_refl)
    as (back & back1 & st1 & Hlast & Hlen & Hmem1 & Hst1 & Hit1 & Hrep1 & Hup1).
  destruct (AppendRaw_iter_eq st (a ++ b) _ _ _ Hrep Hup Hnab
              ltac:(rewrite length_app; lia) eq_refl eq_refl eq_refl)
    as (back_ & back' & st' & Hlast' & _ & Hmem' & Hst' & Hit' & _).
  rewrite Hlast in Hlast'. injection Hlast' as <-.
  rewrite (AppendRaw_loop_ne st (a ++ b)), (AppendRaw_loop_ne st a) by done.
  rewrite Hit', Hit1. cbn [mbind option_bind].
  remember (size_ st `mod` kBlockSize) as off eqn:Eoff.
  remember (size_ st `div` kBlockSize) as q eqn:Eq.
  remember (if decide (off ≠ 0) then blocks_ st else blocks_ st ++ [new_block])
    as blocks eqn:Eblocks.
  rewrite length_app, Nat2Z.inj_add in *.
  rewrite kBlockSize_eq in *. specialize (Hdm ltac:(done)).
  destruct (decide (8192 - off ≤ Z.of_nat (length a))) as [Hfull|Hpart].
  - (* the first turn is filled from [a] alone *)
    rewrite (Z.min_l _ (Z.of_nat (length a))) in * by lia.
    rewrite (Z.min_l _ (Z.of_nat (length a) + Z.of_nat (length b))) in * by lia.
    rewrite take_app_le in Hmem' by lia.
    rewrite Hmem1 in Hmem'. injection Hmem' as <-. subst st'.
    rewrite drop_app_le by lia. rewrite <- Hst1.
    apply IH; [rewrite length_drop; lia | done | done |].
    rewrite Hst1, length_drop. cbn [size_]. lia.
  - (* [a] ends within the block of the first turn *)
    rewrite (Z.min_r _ (Z.of_nat (length a))) in * by lia.
    rewrite Nat2Z.id in *. rewrite take_ge in Hmem1 by lia.
    rewrite (drop_ge a) by lia. rewrite (AppendRaw_loop_eq st1 []).
    cbn [mbind option_bind].
    assert (blocks ≠ []) as Hbne by (intros ->; done).
    assert (size_ st1 `mod` 8192 = off + Z.of_nat (length a)) as Hoff1.
    { rewrite Hst1. cbn [size_]. symmetry.
      apply (Z.mod_unique_pos _ _ q); lia. }
    destruct (AppendRaw_iter_eq st1 b _ _ _ Hrep1 Hup1 Hnb
                ltac:(rewrite Hst1; cbn [size_]; lia) eq_refl eq_refl eq_refl)
      as (back1_ & back2 & st2 & Hlast1 & _ & Hmem2 & Hst2 & Hit2 & _).
    rewrite kBlockSize_eq, Hoff1 in *.
    rewrite decide_True in Hlast1, Hst2 by lia.
    rewrite Hst1 in Hlast1, Hst2. cbn [blocks_ size_ refs_] in Hlast1, Hst2.
    rewrite last_set_back in Hlast1 by done. injection Hlast1 as <-.
    rewrite set_back_set_back in Hst2.
    rewrite (AppendRaw_loop_ne st1 b), Hit2 by done. cbn [mbind option_bind].
    set (v := Z.min (8192 - (off + Z.of_nat (length a))) (Z.of_nat (length b))) in *.
    assert (Z.min (8192 - off) (Z.of_nat (length a) + Z.of_nat (length b))
            = Z.of_nat (length a) + v) as Hv by (unfold v; lia).
    assert (0 ≤ v ≤ 8192 - (off + Z.of_nat (length a))) as Hvb by (unfold v; lia).
    clearbody v. rewrite Hv in *.
    replace (Z.to_nat (Z.of_nat (length a) + v)) with (length a + Z.to_nat v)%nat
      in * by lia.
    rewrite take_app_add, drop_app_add in *.
    rewrite memcpy_app, Hmem1 in Hmem'; [|lia|rewrite length_take; lia].
    cbn [mbind option_bind] in Hmem'. rewrite Hmem2 in Hmem'. injection Hmem' as <-.
    subst st' st2. by rewrite Z.add_assoc.
Qed.

(** X4: a batch append leaves the file exactly as one [Append] of the
    concatenated items leaves it, the same blocks and the same size, and
    returns the same status, provided the content fits a [uint64_t]; so
    appending [a] and then [b] is appending [a ++ b]. *)
Theorem AppendVector_is_Append_of_concat (st : FileState)
    (data_vector : list (list Byte.byte)) :
  fs_rep st → fs_upper st →
  size_ st + Z.of_nat (length (concat data_vector)) < 2 ^ 64 →
  AppendVector st data_vector = Append st (concat data_vector).
Proof.
  revert st. induction data_vector as [|data rest IH]; intros st Hrep Hup Hov.
  { cbn [AppendVector concat]. unfold Append, AppendRaw. cbn [fmap list_fmap].
    by rewrite AppendRaw_loop_eq. }
  cbn [AppendVector concat] in *. rewrite length_app, Nat2Z.inj_add in Hov.
  destruct (Append_spec st data Hrep Hup) as (st1 & Happ & _ & Hsz & Hrep1 & Hup1 & _);
    [lia|].
  rewrite Happ. cbn [mbind option_bind ok]. rewrite IH by (done || lia).
  unfold Append, AppendRaw in *. rewrite fmap_app.
  rewrite AppendRaw_loop_app by (rewrite ?length_fmap; done || lia).
  destruct (AppendRaw_loop st (Some <$> data)) as [st1'|]; [|done].
  cbn [mbind option_bind] in *. by injection Happ as ->.
Qed.

Lemma AppendVector_is_Append_of_concat_witness :
  (fs_rep sample_file ∧ fs_upper sample_file ∧
   size_ sample_file
     + Z.of_nat (length (concat [[Byte.x61; Byte.x62]; []; [Byte.x63]])) < 2 ^ 64) ∧
  AppendVector sample_file [[Byte.x61; Byte.x62]; []; [Byte.x63]]
    = Append sample_file (concat [[Byte.x61; Byte.x62]; []; [Byte.x63]]).
Proof.
  split; [split; [apply sample_file_inv|]; split; [apply sample_file_inv|];
          by vm_compute|].
  apply (AppendVector_is_Append_of_concat sample_file);
    [apply sample_file_inv | apply sample_file_inv | by vm_compute].
Defined.

(** ** Appending after space has been reserved *)

(** One turn of the append loop writes at [write_pos] and moves it past the
    bytes written; the bytes before it stay as they are. *)
Lemma AppendRaw_iter_below st src :
  fs_rep st → fs_upper st → src ≠ [] →
  size_ st + Z.of_nat (length src) < 2 ^ 64 →
  ∃ st1 avail,
    AppendRaw_iter st src = Some (st1, drop (Z.to_nat avail) src) ∧
    0 < avail ≤ Z.of_nat (length src) ∧
    fs_rep st1 ∧ fs_upper st1 ∧ size_ st1 = size_ st + avail ∧
    0 ≤ write_pos st ∧
    write_pos st1 = write_pos st + avail ∧
    take (Z.to_nat (write_pos st)) (flat st1) = take (Z.to_nat (write_pos st)) (flat st).
Proof.
  intros Hrep Hup Hne Hov.
  destruct (AppendRaw_iter_eq st src _ _ _ Hrep Hup Hne Hov eq_refl eq_refl eq_refl)
    as (back & back' & st1 & Hlast & Hlen & Hmem & Hst1 & Hit & Hrep1 & Hup1).
  assert (0 < length src)%nat as Hlsrc by (destruct src; [done | cbn [length]; lia]).
  pose proof (Z.mod_pos_bound (size_ st) kBlockSize eq_refl) as Hoff.
  pose proof (Z.div_mod (size_ st) kBlockSize) as Hdm.
  destruct Hrep as [Hblk Hsz]. unfold fs_upper in Hup. unfold write_pos, flat.
  remember (size_ st `mod` kBlockSize) as off eqn:Eoff.
  remember (size_ st `div` kBlockSize) as q eqn:Eq.
  remember (Z.min (kBlockSize - off) (Z.of_nat (length src))) as avail eqn:Eavail.
  rewrite kBlockSize_eq in *. specialize (Hdm ltac:(done)).
  assert (0 < avail ≤ Z.of_nat (length src) ∧ avail ≤ 8192 - off) as Hav by lia.
  clear Eavail.
  rewrite memcpy_Some in Hmem by (rewrite ?length_take; lia).
  injection Hmem as <-. apply last_Some in Hlast as [bs Hbs].
  rewrite Hbs, set_back_snoc in Hst1.
  exists st1, avail. split; [done|]. split; [lia|]. split; [done|]. split; [done|].
  rewrite Hst1. cbn [size_ blocks_]. split; [done|].
  assert (length (take (Z.to_nat off) back) = Z.to_nat off) as Htk
    by (rewrite length_take; lia).
  destruct (decide (off ≠ 0)) as [Hnz|Hz].
  - rewrite Hbs in Hblk, Hup |- *. apply Forall_app in Hblk as [Hbs' _].
    pose proof (length_concat_blocks _ Hbs') as Hcat.
    rewrite !length_app. cbn [length].
    split; [lia|]. split.
    + destruct (decide (off + avail < 8192)) as [Hlt|Hge].
      * rewrite <- (Z.mod_unique_pos (size_ st + avail) 8192 q (off + avail)) by lia.
        rewrite decide_True by lia. lia.
      * rewrite <- (Z.mod_unique_pos (size_ st + avail) 8192 (q + 1) 0) by lia.
        rewrite decide_False by lia. lia.
    + rewrite !concat_app. cbn [concat]. rewrite !app_nil_r.
      replace (Z.to_nat ((Z.of_nat (length bs + 1) - 1) * 8192 + off))
        with (length (concat bs) + Z.to_nat off)%nat by lia.
      rewrite !take_app_add. f_equal. by rewrite take_app_length' by done.
  - assert (off = 0) as -> by lia.
    apply app_inj_tail in Hbs as [<- <-].
    pose proof (length_concat_blocks _ Hblk) as Hcat.
    rewrite !length_app. cbn [length].
    split; [lia|]. split.
    + destruct (decide (avail < 8192)) as [Hlt|Hge].
      * rewrite <- (Z.mod_unique_pos (size_ st + avail) 8192 q avail) by lia.
        rewrite decide_True by lia. lia.
      * rewrite <- (Z.mod_unique_pos (size_ st + avail) 8192 (q + 1) 0) by lia.
        rewrite decide_False by lia. lia.
    + rewrite concat_app.
      replace (Z.to_nat (Z.of_nat (length (blocks_ st)) * 8192))
        with (length (concat (blocks_ st))) by lia.
      by rewrite take_app_length, firstn_all.
Qed.

(** The append loop leaves the bytes before [write_pos] as they are. *)
Lemma AppendRaw_loop_below src : ∀ st st',
  fs_rep st → fs_upper st → size_ st + Z.of_nat (length src) < 2 ^ 64 →
  AppendRaw_loop st src = Some st' →
  take (Z.to_nat (write_pos st)) (flat st') = take (Z.to_nat (write_pos st)) (flat st).
Proof.
  induction src as [src IH] using (induction_ltof1 _ (@length cell)). unfold ltof in IH.
  intros st st' Hrep Hup Hov.
  destruct (decide (src = [])) as [->|Hne].
  { rewrite AppendRaw_loop_eq. by intros [= <-]. }
  rewrite AppendRaw_loop_ne by done.
  destruct (AppendRaw_iter_below st src Hrep Hup Hne Hov)
    as (st1 & avail & Hit & Hav & Hrep1 & Hup1 & Hsz1 & Hw0 & Hw1 & Htake).
  rewrite Hit. cbn [mbind option_bind]. intros Hloop.
  assert (length (drop (Z.to_nat avail) src) = length src - Z.to_nat avail)%nat as Hdrop
    by apply length_drop.
  pose proof (IH (drop (Z.to_nat avail) src) ltac:(lia) st1 st' Hrep1 Hup1 ltac:(lia) Hloop)
    as IH1.
  rewrite Hw1 in IH1. rewrite <- Htake.
  replace (Z.to_nat (write_pos st))
    with (Z.to_nat (write_pos st) `min` Z.to_nat (write_pos st + avail))%nat by lia.
  rewrite <- !take_take. by rewrite IH1.
Qed.

(** X5: on a file with no unused block, take a [PreAllocate] of [n] bytes
    that returns, which it does when the array it allocates is at an address
    whose low byte is zero, and then an [Append] of [data].  Both return OK
    and leave the size at the old size plus the length of [data], with the
    old content in place.  The data is the new content only when the space
    reserved fits the free part of the last block.  When [PreAllocate] has
    pushed a block, [Append] writes into the last block, which is not where
    [size_] points: the byte of the file at the old size is then an
    indeterminate byte of the reserved space, not the first byte of
    [data]. *)
Theorem Append_after_PreAllocate (st : FileState) (n padding : Z)
    (data : list Byte.byte) :
  fs_rep st → fs_upper st → fs_lower st →
  0 < n → data ≠ [] →
  size_ st + n + Z.of_nat (length data) < 2 ^ 64 →
  padding `mod` 256 = 0 →
  ∃ st1 st2,
    PreAllocate st n padding = Some (OK, st1) ∧
    Append st1 data = Some (OK, st2) ∧
    size_ st2 = size_ st + Z.of_nat (length data) ∧
    take (Z.to_nat (size_ st)) (content st2) = content st ∧
    if decide (0 < size_ st `mod` kBlockSize ∧ n ≤ kBlockSize - size_ st `mod` kBlockSize)
    then content st2 = content st ++ (Some <$> data)
    else content st2 !! Z.to_nat (size_ st) = Some None.
Proof.
  intros Hrep Hup Hlow Hn Hdata Hov Hpad.
  assert (0 < length data)%nat as Hld by (destruct data; [done | cbn [length]; lia]).
  pose proof (length_content st Hrep Hup) as Hlc.
  destruct (AppendRaw_spec st (replicate (Z.to_nat n) None) Hrep Hup)
    as (st0 & Happ0 & Hrefs0 & Hsz0 & Hrep0 & Hup0 & Hlen0 & Hbelow0 & Hlow0);
    [rewrite length_replicate; lia|].
  destruct (Hlow0 Hlow) as [Hlow0' Hcont0]. clear Hlow0.
  rewrite length_replicate, Z2Nat.id in Hsz0 by lia.
  unfold PreAllocate. rewrite decide_True by (by rewrite memset_first_byte_id).
  rewrite Happ0. cbn [mbind option_bind].
  rewrite Hsz0. replace (size_ st + n - n) with (size_ st) by lia.
  rewrite wrap64_small by (destruct Hrep; lia).
  set (st1 := {| refs_ := refs_ st0; blocks_ := blocks_ st0; size_ := size_ st |}).
  assert (fs_rep st1) as Hrep1 by (split; [apply Hrep0 | apply Hrep]).
  assert (fs_upper st1) as Hup1.
  { unfold fs_upper in *. cbn [st1 size_ blocks_]. lia. }
  assert (content st1 = content st) as Hc1.
  { unfold content at 1. cbn [st1 size_]. change (flat st1) with (flat st0).
    by rewrite Hbelow0. }
  destruct (Append_spec st1 data Hrep1 Hup1)
    as (st2 & Happ & _ & Hsz2 & Hrep2 & Hup2 & _ & Hbelow & Hlow2);
    [cbn [st1 size_]; lia|].
  cbn [st1 size_] in Hsz2, Hbelow. fold st1 in Hbelow.
  exists st1, st2. split; [done|]. split; [done|]. split; [done|].
  split.
  { rewrite <- Hc1. apply (content_prefix st1 st2); [done | cbn [st1 size_]; lia | done]. }
  (* the blocks after the reservation *)
  pose proof (Z.mod_pos_bound (size_ st) kBlockSize eq_refl) as Hoff.
  pose proof (Z.div_mod (size_ st) kBlockSize) as Hdm.
  assert (blocks_ st0 ≠ []) as Hne0.
  { intros Hnil. unfold fs_upper in Hup0. rewrite Hnil in Hup0. cbn [length] in Hup0.
    destruct Hrep as [_ ?]. lia. }
  specialize (Hlow0' Hne0). unfold fs_upper in Hup0.
  destruct Hrep as [_ Hsz].
  case_decide as Hfit.
  - (* the reservation fits the last block *)
    rewrite <- Hc1. apply Hlow2. intros _. cbn [st1 size_ blocks_].
    remember (size_ st `mod` kBlockSize) as off. remember (size_ st `div` kBlockSize) as q.
    rewrite kBlockSize_eq in *. specialize (Hdm ltac:(done)). lia.
  - (* a block has been pushed *)
    assert (size_ st < write_pos st1) as Hw.
    { unfold write_pos. cbn [st1 size_ blocks_].
      remember (size_ st `mod` kBlockSize) as off. remember (size_ st `div` kBlockSize) as q.
      rewrite kBlockSize_eq in *. specialize (Hdm ltac:(done)).
      case_decide; lia. }
    unfold Append, AppendRaw in Happ.
    destruct (AppendRaw_loop st1 (Some <$> data)) as [st2'|] eqn:Hloop; [|done].
    cbn [mbind option_bind] in Happ. injection Happ as ->.
    assert (size_ st1 + Z.of_nat (length (Some <$> data : list cell)) < 2 ^ 64) as Hov1
      by (rewrite length_fmap; cbn [st1 size_]; lia).
    pose proof (AppendRaw_loop_below _ st1 st2 Hrep1 Hup1 Hov1 Hloop) as Hkeep.
    unfold content. rewrite lookup_take_lt by lia.
    rewrite <- (lookup_take_lt (flat st2) (Z.to_nat (write_pos st1))) by lia.
    rewrite Hkeep, lookup_take_lt by lia. change (flat st1) with (flat st0).
    rewrite <- (lookup_take_lt (flat st0) (Z.to_nat (size_ st0))) by lia.
    fold (content st0). rewrite Hcont0, lookup_app_r by lia.
    rewrite Hlc, Nat.sub_diag. apply lookup_replicate_2. lia.
Qed.

Lemma Append_after_PreAllocate_witness :
  (fs_rep sample_file ∧ fs_upper sample_file ∧ fs_lower sample_file ∧
   0 < 9000 ∧ [Byte.x65; Byte.x66] ≠ [] ∧
   size_ sample_file + 9000 + Z.of_nat (length [Byte.x65; Byte.x66]) < 2 ^ 64 ∧
   4096 `mod` 256 = 0) ∧
  ∃ st1 st2,
    PreAllocate sample_file 9000 4096 = Some (OK, st1) ∧
    Append st1 [Byte.x65; Byte.x66] = Some (OK, st2) ∧
    size_ st2 = size_ sample_file + Z.of_nat (length [Byte.x65; Byte.x66]) ∧
    take (Z.to_nat (size_ sample_file)) (content st2) = content sample_file ∧
    if decide (0 < size_ sample_file `mod` kBlockSize ∧
               9000 ≤ kBlockSize - size_ sample_file `mod` kBlockSize)
    then content st2 = content sample_file ++ (Some <$> [Byte.x65; Byte.x66])
    else content st2 !! Z.to_nat (size_ sample_file) = Some None.
Proof.
  split; [split; [apply sample_file_inv|]; split; [apply sample_file_inv|];
          split; [apply sample_file_inv|]; split_and!; by vm_compute|].
  apply (Append_after_PreAllocate sample_file 9000 4096 [Byte.x65; Byte.x66]);
    [apply sample_file_inv | apply sample_file_inv | apply sample_file_inv
    | by vm_compute ..].
Defined.

(** ** A scratch buffer that is too short *)

(** The copy loop, asked for more bytes than the buffer has room for. *)
Lemma Read_loop_overflow (k : nat) : ∀ blocks scratch bytes_to_copy dst block block_offset,
  (Z.to_nat bytes_to_copy ≤ k)%nat → 0 < bytes_to_copy → 0 ≤ dst →
  Z.of_nat (length scratch) < dst + bytes_to_copy →
  Read_loop blocks scratch bytes_to_copy dst block block_offset = None.
Proof.
  induction k as [|k IH]; intros blocks scratch bytes dst block bo Hk Hbytes Hdst Hcap;
    [lia|].
  rewrite Read_loop_eq, decide_True by lia. unfold Read_iter.
  remember (if decide (wrap64 (kBlockSize - bo) > bytes)
            then bytes else wrap64 (kBlockSize - bo)) as avail eqn:Hav.
  assert (avail ≤ bytes) as Hle by (subst avail; case_decide; lia).
  clear Hav.
  destruct (index blocks block) as [blk|]; [|done]. cbn [mbind option_bind].
  destruct (peek blk bo avail) as [chunk|] eqn:Hpeek; [|done]. cbn [mbind option_bind].
  destruct (memcpy scratch dst chunk) as [scratch'|] eqn:Hm; [|done].
  cbn [mbind option_bind]. case_decide as Hpos; [|done].
  unfold peek in Hpeek. case_decide as Hin; [|done]. injection Hpeek as <-.
  unfold memcpy in Hm. case_decide as Hroom; [|done]. injection Hm as <-.
  rewrite length_take, length_drop in Hroom.
  apply IH; [lia | lia | lia |].
  rewrite !length_app, !length_take, !length_drop. lia.
Qed.

(** X6: [Read] does not check the scratch buffer.  When the clamped range of
    a read within the file passes the end of the block that holds [offset]
    and the scratch buffer is shorter than the clamped length, the copy loop
    writes past the end of the buffer: the call is undefined. *)
Theorem Read_needs_scratch (st : FileState) (offset n : Z)
    (result : Slice) (scratch : list cell) :
  0 ≤ offset ≤ size_ st → size_ st < 2 ^ 64 → 0 ≤ n →
  kBlockSize - offset `mod` kBlockSize < Z.min n (size_ st - offset) →
  Z.of_nat (length scratch) < Z.min n (size_ st - offset) →
  Read st offset n result scratch = None.
Proof.
  intros Hoff Hmax Hn Hspan Hcap.
  pose proof (Z.mod_pos_bound offset kBlockSize eq_refl) as Hbo.
  unfold Read. rewrite decide_False by lia. rewrite wrap64_small by lia.
  assert ((if decide (n > size_ st - offset) then size_ st - offset else n)
          = Z.min n (size_ st - offset)) as -> by (case_decide; lia).
  rewrite decide_False by lia. rewrite decide_False by lia.
  by rewrite (Read_loop_overflow (Z.to_nat (Z.min n (size_ st - offset)))) by lia.
Qed.

Lemma Read_needs_scratch_witness :
  (0 ≤ 8190 ≤ size_ sample_file ∧ size_ sample_file < 2 ^ 64 ∧ 0 ≤ 4 ∧
   kBlockSize - 8190 `mod` kBlockSize < Z.min 4 (size_ sample_file - 8190) ∧
   Z.of_nat (length [None; None : cell]) < Z.min 4 (size_ sample_file - 8190)) ∧
  Read sample_file 8190 4 (mkSlice SliceEmpty 0) [None; None] = None.
Proof.
  split; [split_and!; by vm_compute|].
  apply (Read_needs_scratch sample_file 8190 4); by vm_compute.
Defined.

(** ** Slices across later writes *)

(** X7: the slice that a read returns stays valid across a later write to
    the file.  After an [Append] on the file, or a [PreAllocate] that returns
    (the array it allocates is at an address whose low byte is zero), the
    slice, be it a view into a block of the file or the scratch buffer, still
    views the bytes the read returned: blocks are never moved or written
    below the size. *)
Theorem slice_survives_later_writes (st : FileState) (offset n : Z)
    (result : Slice) (scratch : list cell) (data : list Byte.byte)
    (size padding : Z) :
  fs_rep st → fs_upper st →
  0 ≤ offset ≤ size_ st → 0 ≤ n →
  Z.min n (size_ st - offset) ≤ Z.of_nat (length scratch) →
  0 ≤ size → size_ st + size < 2 ^ 64 →
  size_ st + Z.of_nat (length data) < 2 ^ 64 →
  padding `mod` 256 = 0 →
  ∃ sl scratch' st2 st3,
    Read st offset n result scratch = Some (OK, sl, scratch') ∧
    Append st data = Some (OK, st2) ∧
    PreAllocate st size padding = Some (OK, st3) ∧
    slice_bytes st scratch' sl
      = Some (take (Z.to_nat n) (drop (Z.to_nat offset) (content st))) ∧
    slice_bytes st2 scratch' sl = slice_bytes st scratch' sl ∧
    slice_bytes st3 scratch' sl = slice_bytes st scratch' sl.
Proof.
  intros Hrep Hup Hoff Hn Hcap Hsize Hov3 Hov2 Hpad.
  assert (size_ st < 2 ^ 64) as Hmax by lia.
  destruct (Read_spec st offset n result scratch Hrep Hup Hmax Hoff Hn)
    as (sl & scratch' & Hread & Hsz & Hdata & _ & Hbytes); [by intros _|].
  destruct (Append_spec st data Hrep Hup Hov2)
    as (st2 & Happ & _ & Hsz2 & Hrep2 & _ & Hlen2 & Hbelow2 & _).
  destruct (PreAllocate_spec st size padding Hrep Hup Hsize Hov3 Hpad)
    as (st3 & Hpre & _ & Hsz3 & Hrep3 & Hup3 & Hlen3 & _ & Hcont3).
  assert (take (Z.to_nat (size_ st)) (flat st3) = content st) as Hbelow3
    by (rewrite <- Hsz3; apply Hcont3).
  exists sl, scratch', st2, st3. split; [done|]. split; [done|]. split; [done|].
  split; [done|]. rewrite Hbytes.
  (* a view into a block, on a file whose first bytes are those of [st] *)
  assert (∀ st', fs_rep st' → (length (blocks_ st) ≤ length (blocks_ st'))%nat →
                 take (Z.to_nat (size_ st)) (flat st') = content st →
                 slice_bytes st' scratch' sl
                 = Some (take (Z.to_nat n) (drop (Z.to_nat offset) (content st)))) as Hview.
  { intros st' [Hblk' _] Hlen' Hbelow'. revert Hbytes.
    unfold slice_bytes. rewrite Hdata, Hsz. unfold Read_data.
    destruct Hrep as [Hblk Hsize0]. unfold fs_upper in Hup.
    pose proof (Z.mod_pos_bound offset kBlockSize eq_refl) as Hbo.
    pose proof (Z.div_mod offset kBlockSize) as Hdm.
    remember (Z.min n (size_ st - offset)) as n' eqn:En'.
    remember (offset `mod` kBlockSize) as bo eqn:Ebo.
    remember (offset `div` kBlockSize) as q eqn:Eq.
    rewrite kBlockSize_eq in *. specialize (Hdm ltac:(done)). clear Ebo Eq.
    repeat case_decide; [done | | done]. intros _.
    assert (0 ≤ q < Z.of_nat (length (blocks_ st))) as Hq by lia.
    destruct (index_Some (blocks_ st') q) as (blk & Hidx & Hlk); [lia|].
    assert (length blk = Z.to_nat 8192) as Hlb by apply (Forall_lookup_1 _ _ _ _ Hblk' Hlk).
    rewrite Hidx. cbn [mbind option_bind]. unfold peek. rewrite decide_True by lia.
    f_equal.
    rewrite <- (take_drop_concat_uniform (Z.to_nat 8192) (blocks_ st') (Z.to_nat q) blk)
      by (done || lia).
    rewrite <- Hbelow'. fold (flat st'). rewrite take_drop_take by lia.
    f_equal; [lia | f_equal; lia]. }
  split; [by apply Hview | by apply Hview].
Qed.

Lemma slice_survives_later_writes_witness :
  (fs_rep sample_file ∧ fs_upper sample_file ∧
   0 ≤ 8000 ≤ size_ sample_file ∧ 0 ≤ 100 ∧
   Z.min 100 (size_ sample_file - 8000) ≤ Z.of_nat (length (replicate 100 (None : cell))) ∧
   0 ≤ 9000 ∧ size_ sample_file + 9000 < 2 ^ 64 ∧
   size_ sample_file + Z.of_nat (length [Byte.x65; Byte.x66]) < 2 ^ 64 ∧
   4096 `mod` 256 = 0) ∧
  ∃ sl scratch' st2 st3,
    Read sample_file 8000 100 (mkSlice SliceEmpty 0) (replicate 100 None)
      = Some (OK, sl, scratch') ∧
    Append sample_file [Byte.x65; Byte.x66] = Some (OK, st2) ∧
    PreAllocate sample_file 9000 4096 = Some (OK, st3) ∧
    slice_bytes sample_file scratch' sl
      = Some (take (Z.to_nat 100) (drop (Z.to_nat 8000) (content sample_file))) ∧
    slice_bytes st2 scratch' sl = slice_bytes sample_file scratch' sl ∧
    slice_bytes st3 scratch' sl = slice_bytes sample_file scratch' sl.
Proof.
  split; [split; [apply sample_file_inv|]; split; [apply sample_file_inv|];
          split_and!; by vm_compute|].
  apply (slice_survives_later_writes sample_file 8000 100 _ _ _ 9000 4096);
    [apply sample_file_inv | apply sample_file_inv | by vm_compute ..].
Defined.

(** * Further properties of the environment *)

(** ** Lookups by name *)

Lemma GetFileSize_present k p st w :
  fm_find k (file_map_ w) = Some p → heap w !! p = Some st →
  GetFileSize k w = Some (OK, Some (size_ st)).
Proof.
  intros Hf Hp. unfold GetFileSize. rewrite Hf, (fm_index_present _ _ _ Hf).
  by rewrite Hp.
Qed.

Lemma GetFileSize_absent k w :
  fm_find k (file_map_ w) = None →
  GetFileSize k w = Some (IOError k "File not found", None).
Proof. intros Hf. unfold GetFileSize. by rewrite Hf. Qed.

Lemma FileExists_find k w : FileExists k w = bool_decide (is_Some (fm_find k (file_map_ w))).
Proof.
  unfold FileExists. destruct (fm_find k (file_map_ w)).
  - rewrite !bool_decide_true; [done | by eexists | done].
  - rewrite !bool_decide_false; [done | by intros [? ?] | by intros H; apply H].
Qed.

(** X8: in every state a client reaches by a serial run, the calls that look
    a name up succeed exactly on the names that [FileExists] reports.  On a
    name that exists, [NewSequentialFile] and [NewRandomAccessFile] return OK
    and a view of the mapped object (the sequential one at position 0),
    [GetFileSize] returns OK and the size of that object, and [DeleteFile]
    returns OK.  On any other name each of them, and [RenameFile] from that
    name, returns [IOError (name, "File not found")], hands out no view and
    leaves the environment as it was: no entry is created for the name. *)
Theorem lookups_succeed_on_existing_names (ops : list Op) (s : System)
    (fname : string) :
  run ops System_new = Some s →
  match fm_find fname (file_map_ (world s)) with
  | Some p =>
      FileExists fname (world s) = true ∧
      ∃ st, heap (world s) !! p = Some st ∧
        (∃ w', NewSequentialFile fname (world s)
                 = Some (OK, Some {| seq_file_ := p; pos_ := 0 |}, w')) ∧
        (∃ w', NewRandomAccessFile fname (world s)
                 = Some (OK, Some {| rand_file_ := p |}, w')) ∧
        GetFileSize fname (world s) = Some (OK, Some (size_ st)) ∧
        (∃ w', DeleteFile fname (world s) = Some (OK, w'))
  | None =>
      FileExists fname (world s) = false ∧
      NewSequentialFile fname (world s)
        = Some (IOError fname "File not found", None, world s) ∧
      NewRandomAccessFile fname (world s)
        = Some (IOError fname "File not found", None, world s) ∧
      GetFileSize fname (world s) = Some (IOError fname "File not found", None) ∧
      DeleteFile fname (world s) = Some (IOError fname "File not found", world s) ∧
      ∀ target, RenameFile fname target (world s)
                  = Some (IOError fname "File not found", world s)
  end.
Proof.
  intros Hrun. destruct (reachable_inv _ _ Hrun) as [Hw _].
  pose proof (FileExists_find fname (world s)) as Hex.
  destruct (fm_find fname (file_map_ (world s))) as [p|] eqn:Hf.
  - split; [rewrite Hex; apply bool_decide_true; by eexists|].
    destruct (NewSequentialFile_present false _ _ fname p Hw Hf) as (st & Hp & Hseq & _).
    destruct (NewRandomAccessFile_present false _ _ fname p Hw Hf) as (st' & _ & Hrand & _).
    destruct (DeleteFile_present false _ _ fname p Hw Hf) as (? & w' & _ & _ & Hdel & _).
    exists st. split; [done|]. split; [by eexists|]. split; [by eexists|].
    split; [by apply (GetFileSize_present _ p)|]. by eexists.
  - split; [rewrite Hex; apply bool_decide_false; by intros [? ?]|].
    split; [by apply NewSequentialFile_absent|].
    split; [by apply NewRandomAccessFile_absent|].
    split; [by apply GetFileSize_absent|].
    split; [by apply DeleteFile_absent|].
    intros target. by apply RenameFile_absent.
Qed.

Lemma lookups_succeed_on_existing_names_witness :
  run sample_run System_new = Some sample_system ∧
  match fm_find "/a/y" (file_map_ (world sample_system)) with
  | Some p =>
      FileExists "/a/y" (world sample_system) = true ∧
      ∃ st, heap (world sample_system) !! p = Some st ∧
        (∃ w', NewSequentialFile "/a/y" (world sample_system)
                 = Some (OK, Some {| seq_file_ := p; pos_ := 0 |}, w')) ∧
        (∃ w', NewRandomAccessFile "/a/y" (world sample_system)
                 = Some (OK, Some {| rand_file_ := p |}, w')) ∧
        GetFileSize "/a/y" (world sample_system) = Some (OK, Some (size_ st)) ∧
        (∃ w', DeleteFile "/a/y" (world sample_system) = Some (OK, w'))
  | None =>
      FileExists "/a/y" (world sample_system) = false ∧
      NewSequentialFile "/a/y" (world sample_system)
        = Some (IOError "/a/y" "File not found", None, world sample_system) ∧
      NewRandomAccessFile "/a/y" (world sample_system)
        = Some (IOError "/a/y" "File not found", None, world sample_system) ∧
      GetFileSize "/a/y" (world sample_system)
        = Some (IOError "/a/y" "File not found", None) ∧
      DeleteFile "/a/y" (world sample_system)
        = Some (IOError "/a/y" "File not found", world sample_system) ∧
      ∀ target, RenameFile "/a/y" target (world sample_system)
                  = Some (IOError "/a/y" "File not found", world sample_system)
  end.
Proof.
  split; [exact sample_system_run|].
  apply (lookups_succeed_on_existing_names sample_run sample_system "/a/y").
  exact sample_system_run.
Defined.

(** ** Opening and closing a view *)

Lemma with_refs_id st : with_refs (refs_ st) st = st.
Proof. by destruct st. Qed.

Lemma set_heap_id w : set_heap (heap w) w = w.
Proof. by destruct w. Qed.

(** Releasing the reference that [Ref] took puts the heap back. *)
Lemma Unref_after_Ref p w st :
  heap w !! p = Some st → 1 ≤ refs_ st →
  Unref p (set_heap (<[p := with_refs (refs_ st + 1) st]> (heap w)) w) = Some w.
Proof.
  intros Hp Hr. unfold Unref. cbn [set_heap heap brk file_map_].
  rewrite lookup_insert_eq. cbn [mbind option_bind with_refs refs_ blocks_ size_].
  rewrite decide_True by lia. rewrite bool_decide_false by lia.
  unfold with_refs. cbn [refs_ blocks_ size_]. rewrite insert_insert_eq.
  replace (refs_ st + 1 - 1) with (refs_ st) by lia.
  fold (with_refs (refs_ st) st). rewrite with_refs_id, insert_id by done.
  f_equal. by destruct w.
Qed.

(** X9: in every state a client reaches by a serial run, opening a file that
    exists for sequential or for random-access reading and then destroying
    the view leaves the environment exactly as it was before the file was
    opened: the same map, the same objects, the same reference counts. *)
Theorem open_then_close_restores (ops : list Op) (s : System) (fname : string) :
  run ops System_new = Some s →
  FileExists fname (world s) = true →
  ∃ sv w1 rv w2,
    NewSequentialFile fname (world s) = Some (OK, Some sv, w1) ∧
    SequentialFileImpl_delete sv w1 = Some (world s) ∧
    NewRandomAccessFile fname (world s) = Some (OK, Some rv, w2) ∧
    RandomAccessFileImpl_delete rv w2 = Some (world s).
Proof.
  intros Hrun Hex. destruct (reachable_inv _ _ Hrun) as [Hw _].
  rewrite FileExists_find in Hex. apply bool_decide_eq_true in Hex as [p Hf].
  destruct (world_inv_live false _ _ p Hw) as (st0 & Hp0 & Hr & _).
  { apply elem_of_app. left. by apply (fm_find_values fname). }
  destruct (NewSequentialFile_present false _ _ fname p Hw Hf) as (st & Hp & Hseq & _).
  destruct (NewRandomAccessFile_present false _ _ fname p Hw Hf) as (st' & Hp' & Hrand & _).
  assert (st = st0) as -> by congruence. assert (st' = st0) as -> by congruence.
  eexists _, _, _, _. split; [exact Hseq|].
  split; [by apply Unref_after_Ref|]. split; [exact Hrand|].
  by apply Unref_after_Ref.
Qed.

Lemma open_then_close_restores_witness :
  (run sample_run System_new = Some sample_system ∧
   FileExists "/a/y" (world sample_system) = true) ∧
  ∃ sv w1 rv w2,
    NewSequentialFile "/a/y" (world sample_system) = Some (OK, Some sv, w1) ∧
    SequentialFileImpl_delete sv w1 = Some (world sample_system) ∧
    NewRandomAccessFile "/a/y" (world sample_system) = Some (OK, Some rv, w2) ∧
    RandomAccessFileImpl_delete rv w2 = Some (world sample_system).
Proof.
  split; [split; [exact sample_system_run | by vm_compute]|].
  apply (open_then_close_restores sample_run sample_system "/a/y");
    [exact sample_system_run | by vm_compute].
Defined.

(** ** Creating a file *)

Lemma slice_bytes_with_refs r st scratch sl :
  slice_bytes (with_refs r st) scratch sl = slice_bytes st scratch sl.
Proof. done. Qed.

(** X10: in every state a client reaches by a serial run, [NewWritableFile]
    returns OK and a view of a new object, with no bytes and no blocks, that
    the name is mapped to from then on, whether or not the name existed
    ([GetFileSize] of the name is then 0); every other name keeps its
    mapping, and every view that was open keeps its object with the content
    it had, the views of a file that had that name included. *)
Theorem NewWritableFile_starts_empty (ops : list Op) (s : System) (fname : string) :
  run ops System_new = Some s →
  ∃ wv w',
    NewWritableFile fname (world s) = Some (OK, wv, w') ∧
    heap (world s) !! wr_file_ wv = None ∧
    heap w' !! wr_file_ wv = Some (created 2) ∧
    fm_find fname (file_map_ w') = Some (wr_file_ wv) ∧
    FileExists fname w' = true ∧
    GetFileSize fname w' = Some (OK, Some 0) ∧
    (∀ k, k ≠ fname →
          fm_find k (file_map_ w') = fm_find k (file_map_ (world s))) ∧
    (∀ v, v ∈ views s →
          ∃ st st', heap (world s) !! view_file v = Some st ∧
                    heap w' !! view_file v = Some st' ∧
                    blocks_ st' = blocks_ st ∧ size_ st' = size_ st).
Proof.
  intros Hrun. destruct (reachable_inv _ _ Hrun) as [Hw _].
  destruct (NewWritableFile_spec false _ _ fname Hw)
    as (w1 & w' & Hdel & Hnew & Hh & Hfresh & Hb & Hm & Hsame & Hw').
  pose proof Hw as (Hsorted & _ & Hbrk & _).
  assert (fm_find fname (file_map_ w') = Some (brk (world s))) as Hf.
  { rewrite Hm, fm_find_insert. by rewrite decide_True. }
  exists {| wr_file_ := brk (world s) |}, w'. cbn [wr_file_].
  split; [done|]. split; [by apply Hbrk|].
  split; [by rewrite Hh, lookup_insert_eq|]. split; [done|].
  split; [rewrite FileExists_find; apply bool_decide_true; by eexists|].
  split.
  { apply (GetFileSize_present _ (brk (world s)) (created 2)); [done|].
    by rewrite Hh, lookup_insert_eq. }
  split.
  { intros k Hk. rewrite Hm, fm_find_insert, decide_False by done.
    rewrite fm_find_erase by done. by rewrite decide_False. }
  intros v Hv.
  destruct (views_live false _ _ v Hw Hv) as [st Hst].
  destruct (world_inv_live false _ _ (view_file v) Hw') as (st' & Hst' & _).
  { apply elem_of_app. right. apply elem_of_cons. right.
    apply list_elem_of_fmap. by exists v. }
  exists st, st'. split; [done|]. split; [done|].
  rewrite Hh, lookup_insert_ne in Hst'.
  2:{ intros Heq. rewrite <- Heq, Hbrk in Hst; done. }
  by apply (Hsame _ _ _ Hst Hst').
Qed.

Lemma NewWritableFile_starts_empty_witness :
  run sample_run System_new = Some sample_system ∧
  ∃ wv w',
    NewWritableFile "/a/y" (world sample_system) = Some (OK, wv, w') ∧
    heap (world sample_system) !! wr_file_ wv = None ∧
    heap w' !! wr_file_ wv = Some (created 2) ∧
    fm_find "/a/y" (file_map_ w') = Some (wr_file_ wv) ∧
    FileExists "/a/y" w' = true ∧
    GetFileSize "/a/y" w' = Some (OK, Some 0) ∧
    (∀ k, k ≠ "/a/y" →
          fm_find k (file_map_ w') = fm_find k (file_map_ (world sample_system))) ∧
    (∀ v, v ∈ views sample_system →
          ∃ st st', heap (world sample_system) !! view_file v = Some st ∧
                    heap w' !! view_file v = Some st' ∧
                    blocks_ st' = blocks_ st ∧ size_ st' = size_ st).
Proof.
  split; [exact sample_system_run|].
  apply (NewWritableFile_starts_empty sample_run sample_system "/a/y").
  exact sample_system_run.
Defined.

(** ** Writing a file and reading it back by name *)

(** X11: in every state a client reaches by a serial run, creating a file,
    appending [data] through the writable view that is returned and then
    opening the file by its name reads the data back: both views and
    [GetFileSize] report the length of [data], and a random-access read at
    an offset within the data, into a scratch buffer of [n] bytes or more,
    returns OK and the [min (n, length - offset)] bytes of [data] at that
    offset. *)
Theorem written_file_reads_back_by_name (ops : list Op) (s : System)
    (fname : string) (data : list Byte.byte) (offset n : Z)
    (result : Slice) (scratch : list cell) :
  run ops System_new = Some s →
  Z.of_nat (length data) < 2 ^ 64 →
  0 ≤ offset ≤ Z.of_nat (length data) →
  0 ≤ n ≤ Z.of_nat (length scratch) →
  ∃ wv w1 w2 rv w3 file sl scratch',
    NewWritableFile fname (world s) = Some (OK, wv, w1) ∧
    Writable_Append wv data w1 = Some (OK, w2) ∧
    Writable_Size wv w2 = Some (Z.of_nat (length data)) ∧
    GetFileSize fname w2 = Some (OK, Some (Z.of_nat (length data))) ∧
    NewRandomAccessFile fname w2 = Some (OK, Some rv, w3) ∧
    RandomAccess_Size rv w3 = Some (OK, Z.of_nat (length data)) ∧
    RandomAccess_Read rv offset n result scratch w3 = Some (OK, sl, scratch') ∧
    slice_size sl = Z.min n (Z.of_nat (length data) - offset) ∧
    heap w3 !! rand_file_ rv = Some file ∧
    slice_bytes file scratch' sl
      = Some (Some <$> take (Z.to_nat n) (drop (Z.to_nat offset) data)).
Proof.
  intros Hrun Hmax Hoff Hn. destruct (reachable_inv _ _ Hrun) as [Hw _].
  destruct (NewWritableFile_spec false _ _ fname Hw)
    as (w0 & w1 & _ & Hnew & Hh & _ & _ & Hm & _ & Hw1).
  set (p := brk (world s)) in *.
  assert (heap w1 !! p = Some (created 2)) as Hp1 by (by rewrite Hh, lookup_insert_eq).
  destruct (created_inv 2) as (Hrep & Hup & Hlow & Hempty).
  destruct (Append_spec (created 2) data Hrep Hup)
    as (st & Happ & Hrefs & Hsz & Hrep' & Hup' & _ & _ & Hcont); [cbn [created size_]; lia|].
  destruct (Hcont Hlow) as [_ Hcontent]. rewrite Hempty in Hcontent. cbn [app] in Hcontent.
  cbn [created size_] in Hsz. rewrite Z.add_0_l in Hsz.
  destruct (on_file_spec false w1 _ p (λ file, Append file data) _ OK st Hw1 Hp1 Happ)
    as [Hon Hw2]; [done | done | done | lia |].
  set (w2 := set_heap (<[p := st]> (heap w1)) w1) in *.
  assert (heap w2 !! p = Some st) as Hp2 by apply lookup_insert_eq.
  assert (fm_find fname (file_map_ w2) = Some p) as Hf2.
  { cbn [w2 set_heap file_map_]. rewrite Hm, fm_find_insert. by rewrite decide_True. }
  destruct (NewRandomAccessFile_present false _ _ fname p Hw2 Hf2) as (st2 & Hp2' & Hrand & _).
  assert (st2 = st) as -> by congruence.
  set (w3 := set_heap (<[p := with_refs (refs_ st + 1) st]> (heap w2)) w2) in *.
  assert (heap w3 !! p = Some (with_refs (refs_ st + 1) st)) as Hp3 by apply lookup_insert_eq.
  destruct (Read_spec st offset n result scratch Hrep' Hup')
    as (sl & scratch' & Hread & Hslsz & _ & _ & Hbytes); [lia | lia | lia | intros _; lia |].
  exists {| wr_file_ := p |}, w1, w2, {| rand_file_ := p |}, w3,
    (with_refs (refs_ st + 1) st), sl, scratch'.
  split; [done|]. split; [done|].
  split.
  { unfold Writable_Size, Size. cbn [wr_file_]. rewrite Hp2. cbn [mbind option_bind].
    by rewrite Hsz. }
  split; [rewrite <- Hsz; by apply (GetFileSize_present _ p)|].
  split; [done|].
  split.
  { unfold RandomAccess_Size, Size. cbn [rand_file_]. rewrite Hp3.
    cbn [mbind option_bind with_refs size_]. by rewrite Hsz. }
  split.
  { unfold RandomAccess_Read. cbn [rand_file_]. rewrite Hp3. cbn [mbind option_bind].
    by rewrite Read_with_refs. }
  split; [by rewrite Hslsz, Hsz|]. split; [done|].
  by rewrite slice_bytes_with_refs, Hbytes, Hcontent, fmap_take, fmap_drop.
Qed.

Lemma written_file_reads_back_by_name_witness :
  (run sample_run System_new = Some sample_system ∧
   Z.of_nat (length [Byte.x68; Byte.x65; Byte.x6c; Byte.x6c; Byte.x6f]) < 2 ^ 64 ∧
   0 ≤ 1 ≤ Z.of_nat (length [Byte.x68; Byte.x65; Byte.x6c; Byte.x6c; Byte.x6f]) ∧
   0 ≤ 3 ≤ Z.of_nat (length [None; None; None : cell])) ∧
  ∃ wv w1 w2 rv w3 file sl scratch',
    NewWritableFile "/a/y" (world sample_system) = Some (OK, wv, w1) ∧
    Writable_Append wv [Byte.x68; Byte.x65; Byte.x6c; Byte.x6c; Byte.x6f] w1
      = Some (OK, w2) ∧
    Writable_Size wv w2
      = Some (Z.of_nat (length [Byte.x68; Byte.x65; Byte.x6c; Byte.x6c; Byte.x6f])) ∧
    GetFileSize "/a/y" w2
      = Some (OK, Some (Z.of_nat (length [Byte.x68; Byte.x65; Byte.x6c; Byte.x6c; Byte.x6f]))) ∧
    NewRandomAccessFile "/a/y" w2 = Some (OK, Some rv, w3) ∧
    RandomAccess_Size rv w3
      = Some (OK, Z.of_nat (length [Byte.x68; Byte.x65; Byte.x6c; Byte.x6c; Byte.x6f])) ∧
    RandomAccess_Read rv 1 3 (mkSlice SliceEmpty 0) [None; None; None] w3
      = Some (OK, sl, scratch') ∧
    slice_size sl
      = Z.min 3 (Z.of_nat (length [Byte.x68; Byte.x65; Byte.x6c; Byte.x6c; Byte.x6f]) - 1) ∧
    heap w3 !! rand_file_ rv = Some file ∧
    slice_bytes file scratch' sl
      = Some (Some <$> take (Z.to_nat 3)
                (drop (Z.to_nat 1) [Byte.x68; Byte.x65; Byte.x6c; Byte.x6c; Byte.x6f])).
Proof.
  split; [split; [exact sample_system_run | split_and!; by vm_compute]|].
  apply (written_file_reads_back_by_name sample_run sample_system "/a/y"
           [Byte.x68; Byte.x65; Byte.x6c; Byte.x6c; Byte.x6f] 1 3);
    [exact sample_system_run | by vm_compute ..].
Defined.

(** ** Renaming there and back *)

(** Two maps with the same lookups hold the same entries. *)
Lemma fm_ext (m1 : FileSystem) : ∀ m2 : FileSystem,
  fm_sorted m1 → fm_sorted m2 → (∀ k, fm_find k m1 = fm_find k m2) → m1 = m2.
Proof.
  induction m1 as [|[k1 v1] m1 IH]; intros [|[k2 v2] m2] Hs1 Hs2 Hfind.
  - done.
  - specialize (Hfind k2). cbn [fm_find] in Hfind. by rewrite decide_True in Hfind.
  - specialize (Hfind k1). cbn [fm_find] in Hfind. by rewrite decide_True in Hfind.
  - apply fm_sorted_cons in Hs1 as [Hs1 Hlt1]. apply fm_sorted_cons in Hs2 as [Hs2 Hlt2].
    rewrite Forall_forall in Hlt1, Hlt2.
    assert (k1 = k2) as <-.
    { destruct (decide (k1 = k2)) as [|Hne]; [done|]. exfalso.
      pose proof (Hfind k1) as H1. pose proof (Hfind k2) as H2.
      cbn [fm_find] in H1, H2.
      rewrite (decide_True (P := k1 = k1)) in H1 by done.
      rewrite (decide_False (P := k1 = k2)) in H1 by done.
      rewrite (decide_False (P := k2 = k1)) in H2 by done.
      rewrite (decide_True (P := k2 = k2)) in H2 by done.
      assert (k1 ∈ m2.*1) as Hin1 by (apply fm_find_is_Some; by rewrite <- H1).
      assert (k2 ∈ m1.*1) as Hin2 by (apply fm_find_is_Some; by rewrite H2).
      apply (key_lt_irrefl k1), (key_lt_trans _ k2); [by apply Hlt1 | by apply Hlt2]. }
    assert (v1 = v2) as <-.
    { specialize (Hfind k1). cbn [fm_find] in Hfind.
      rewrite !decide_True in Hfind by done. by injection Hfind. }
    f_equal. apply IH; [done | done |]. intros k.
    destruct (decide (k = k1)) as [->|Hne].
    + rewrite (proj2 (fm_find_None k1 m1)), (proj2 (fm_find_None k1 m2)); [done | |].
      * intros Hin. by apply (key_lt_irrefl k1), Hlt2.
      * intros Hin. by apply (key_lt_irrefl k1), Hlt1.
    + specialize (Hfind k). cbn [fm_find] in Hfind. by rewrite !decide_False in Hfind.
Qed.

Lemma World_eq (a b : World) :
  heap a = heap b → brk a = brk b → file_map_ a = file_map_ b → a = b.
Proof. destruct a, b. cbn. by intros -> -> ->. Qed.

(** X12: in every state a client reaches by a serial run, renaming a file that
    exists to a name that does not exist, and then renaming it back, returns
    OK both times and leaves the environment exactly as it was; in between,
    the file exists under the new name only. *)
Theorem RenameFile_there_and_back (ops : list Op) (s : System) (src target : string) :
  run ops System_new = Some s →
  FileExists src (world s) = true → FileExists target (world s) = false →
  ∃ w1,
    RenameFile src target (world s) = Some (OK, w1) ∧
    FileExists src w1 = false ∧ FileExists target w1 = true ∧
    RenameFile target src w1 = Some (OK, world s).
Proof.
  intros Hrun Hsrc Htgt. destruct (reachable_inv _ _ Hrun) as [Hw _].
  rewrite FileExists_find in Hsrc, Htgt.
  apply bool_decide_eq_true in Hsrc as [p Hf].
  apply bool_decide_eq_false in Htgt.
  assert (fm_find target (file_map_ (world s)) = None) as Ht
    by (destruct (fm_find target _); [by destruct Htgt | done]).
  assert (src ≠ target) as Hne by (intros ->; congruence).
  pose proof Hw as (Hs & _).
  destruct (RenameFile_present false _ _ src target p Hw Hf Hne)
    as (w0 & w1 & Hdel & Hren & Hheap & Hbrk & Hmap & _ & _ & Hw1).
  rewrite (DeleteFileInternal_absent _ _ Ht) in Hdel. injection Hdel as <-.
  rewrite (fm_erase_absent _ _ Ht) in Hmap.
  pose proof (fm_sorted_insert target p _ Hs) as Hs'.
  assert (fm_find target (file_map_ w1) = Some p) as Hft.
  { rewrite Hmap, fm_find_erase, decide_False by done.
    by rewrite fm_find_insert, decide_True. }
  assert (fm_find src (file_map_ w1) = None) as Hfs.
  { rewrite Hmap, fm_find_erase by done. by rewrite decide_True. }
  destruct (RenameFile_present false _ _ target src p Hw1 Hft ltac:(done))
    as (w0' & w2 & Hdel' & Hren' & Hheap' & Hbrk' & Hmap' & _).
  rewrite (DeleteFileInternal_absent _ _ Hfs) in Hdel'. injection Hdel' as <-.
  rewrite (fm_erase_absent _ _ Hfs) in Hmap'.
  pose proof Hw1 as (Hs1 & _).
  pose proof (fm_sorted_insert src p _ Hs1) as Hs1'.
  exists w1. split; [done|].
  split; [rewrite FileExists_find, Hfs; apply bool_decide_false; by intros [? ?]|].
  split; [rewrite FileExists_find, Hft; apply bool_decide_true; by eexists|].
  rewrite Hren'. do 2 f_equal. apply World_eq; [congruence | congruence |].
  rewrite Hmap'. apply fm_ext; [by apply fm_sorted_erase | done |].
  intros k. rewrite fm_find_erase, fm_find_insert by done.
  rewrite Hmap, fm_find_erase, fm_find_insert by done.
  destruct (decide (k = target)) as [->|Hkt]; [done|].
  by destruct (decide (k = src)) as [->|Hks].
Qed.

Lemma RenameFile_there_and_back_witness :
  (run sample_run System_new = Some sample_system ∧
   FileExists "/a/y" (world sample_system) = true ∧
   FileExists "/c" (world sample_system) = false) ∧
  ∃ w1,
    RenameFile "/a/y" "/c" (world sample_system) = Some (OK, w1) ∧
    FileExists "/a/y" w1 = false ∧ FileExists "/c" w1 = true ∧
    RenameFile "/c" "/a/y" w1 = Some (OK, world sample_system).
Proof.
  split; [split; [exact sample_system_run | split; by vm_compute]|].
  apply (RenameFile_there_and_back sample_run sample_system "/a/y" "/c");
    [exact sample_system_run | by vm_compute ..].
Defined.

(** ** Deleting a directory *)

Lemma DeleteRecursively_test (dir filename : string) :
  bool_decide (String.length dir ≤ String.length filename)%nat
  && starts_with filename dir
  = String.prefix dir filename.
Proof.
  unfold starts_with. destruct (String.prefix dir filename) eqn:Hp.
  - rewrite bool_decide_true; [done|]. by apply prefix_length.
  - by rewrite andb_false_r.
Qed.

Lemma DeleteRecursively_loop_keys dir (m : FileSystem) k :
  k ∈ (DeleteRecursively_loop dir m).*1 → String.prefix dir k = false.
Proof.
  induction m as [|[k' v] m IH]; cbn [DeleteRecursively_loop].
  { cbn. by intros ?%elem_of_nil. }
  rewrite DeleteRecursively_test.
  destruct (String.prefix dir k') eqn:Hp; [done|].
  cbn [fmap list_fmap fst]. intros [->|Hin]%elem_of_cons; [done | by apply IH].
Qed.

Lemma DeleteRecursively_loop_idemp dir (m : FileSystem) :
  DeleteRecursively_loop dir (DeleteRecursively_loop dir m)
  = DeleteRecursively_loop dir m.
Proof.
  induction m as [|[k' v] m IH]; cbn [DeleteRecursively_loop]; [done|].
  rewrite DeleteRecursively_test.
  destruct (String.prefix dir k') eqn:Hp; [done|].
  cbn [DeleteRecursively_loop]. by rewrite DeleteRecursively_test, Hp, IH.
Qed.

(** A name under [dirname + "/"] is under the normalised directory name. *)
Lemma prefix_normalize_dir (dirname path : string) :
  String.prefix (dirname +:+ "/") path = true →
  String.prefix (normalize_dir dirname) path = true.
Proof.
  intros Hp. unfold normalize_dir. case_bool_decide; [done|].
  apply prefix_inv in Hp as [r ->]. rewrite string_app_assoc. apply prefix_app.
Qed.

(** X13: [DeleteRecursively] of a name that is not empty returns OK and
    leaves no name under the normalised directory name, so that
    [GetChildren] of the same name then returns the empty list; the names
    that are not under it keep their mapping, a file named by the directory
    name without a separator included; and deleting once more changes
    nothing. *)
Theorem DeleteRecursively_empties_directory (dirname : string) (w : World) :
  dirname ≠ "" →
  ∃ w',
    DeleteRecursively dirname w = Some (OK, w') ∧
    GetChildren dirname w' = (OK, []) ∧
    (∀ fname, String.prefix (normalize_dir dirname) fname = true →
              FileExists fname w' = false) ∧
    (∀ fname, String.prefix (normalize_dir dirname) fname = false →
              fm_find fname (file_map_ w') = fm_find fname (file_map_ w)) ∧
    DeleteRecursively dirname w' = Some (OK, w').
Proof.
  intros Hne. rewrite (DeleteRecursively_eq _ _ Hne).
  eexists. split; [done|]. cbn [set_file_map file_map_ heap brk].
  split.
  { unfold GetChildren. cbn [set_file_map file_map_]. rewrite GetChildren_loop_spec. cbn [app].
    f_equal. apply elem_of_nil_inv. intros name Hin.
    apply elem_of_listChildren_spec in Hin.
    apply DeleteRecursively_loop_keys in Hin.
    rewrite prefix_normalize_dir in Hin; [done|]. apply prefix_app. }
  split.
  { intros fname Hp. rewrite FileExists_find. cbn [set_file_map file_map_].
    rewrite DeleteRecursively_loop_find, Hp. apply bool_decide_false. by intros [? ?]. }
  split.
  { intros fname Hp. by rewrite DeleteRecursively_loop_find, Hp. }
  rewrite (DeleteRecursively_eq _ _ Hne). cbn [set_file_map file_map_ heap brk].
  by rewrite DeleteRecursively_loop_idemp.
Qed.

Lemma DeleteRecursively_empties_directory_witness :
  "/a" ≠ "" ∧
  ∃ w',
    DeleteRecursively "/a" (world sample_system) = Some (OK, w') ∧
    GetChildren "/a" w' = (OK, []) ∧
    (∀ fname, String.prefix (normalize_dir "/a") fname = true →
              FileExists fname w' = false) ∧
    (∀ fname, String.prefix (normalize_dir "/a") fname = false →
              fm_find fname (file_map_ w') = fm_find fname (file_map_ (world sample_system))) ∧
    DeleteRecursively "/a" w' = Some (OK, w').
Proof.
  split; [done|].
  apply (DeleteRecursively_empties_directory "/a" (world sample_system)). done.
Defined.

(** ** Creating a file, in the listing and in memory *)

Lemma GetChildren_elem dir w name :
  name ∈ (GetChildren dir w).2 ↔
  is_Some (fm_find ((dir +:+ "/") +:+ name) (file_map_ w)).
Proof.
  unfold GetChildren. cbn [snd]. rewrite GetChildren_loop_spec. cbn [app].
  by rewrite elem_of_listChildren_spec, fm_find_is_Some.
Qed.

(** X14: in every state a client reaches by a serial run, creating a file
    adds its name to the listings and changes nothing else in them: after
    [NewWritableFile] of [fname], [GetChildren] of any directory lists a
    name exactly when it listed it before or when the directory, a
    separator and the name make up [fname]. *)
Theorem created_file_is_listed (ops : list Op) (s : System) (fname : string) :
  run ops System_new = Some s →
  ∃ wv w',
    NewWritableFile fname (world s) = Some (OK, wv, w') ∧
    ∀ dir name,
      name ∈ (GetChildren dir w').2 ↔
      (dir +:+ "/") +:+ name = fname ∨ name ∈ (GetChildren dir (world s)).2.
Proof.
  intros Hrun. destruct (reachable_inv _ _ Hrun) as [Hw _].
  destruct (NewWritableFile_spec false _ _ fname Hw)
    as (w1 & w' & _ & Hnew & _ & _ & _ & Hm & _).
  pose proof Hw as (Hsorted & _).
  eexists _, w'. split; [exact Hnew|]. intros dir name.
  rewrite !GetChildren_elem, Hm, fm_find_insert.
  case_decide as Hk.
  - split; [by left | by eexists].
  - rewrite fm_find_erase, decide_False by done. split; [by right | by intros [?|?]].
Qed.

Lemma created_file_is_listed_witness :
  run sample_run System_new = Some sample_system ∧
  ∃ wv w',
    NewWritableFile "/a/b/c" (world sample_system) = Some (OK, wv, w') ∧
    ∀ dir name,
      name ∈ (GetChildren dir w').2 ↔
      (dir +:+ "/") +:+ name = "/a/b/c" ∨ name ∈ (GetChildren dir (world sample_system)).2.
Proof.
  split; [exact sample_system_run|].
  apply (created_file_is_listed sample_run sample_system "/a/b/c").
  exact sample_system_run.
Defined.

(** X15: in every state a client reaches by a serial run, creating a file
    under a name that does not exist, destroying the writable view that is
    returned and then deleting the file returns OK at each step and leaves
    the map and the live objects exactly as they were before the file was
    created: the object of the file is destroyed, and nothing of it stays. *)
Theorem create_close_delete_leaves_nothing (ops : list Op) (s : System)
    (fname : string) :
  run ops System_new = Some s →
  FileExists fname (world s) = false →
  ∃ wv w1 w2 w3,
    NewWritableFile fname (world s) = Some (OK, wv, w1) ∧
    WritableFileImpl_delete wv w1 = Some w2 ∧
    DeleteFile fname w2 = Some (OK, w3) ∧
    heap w3 = heap (world s) ∧ file_map_ w3 = file_map_ (world s).
Proof.
  intros Hrun Hex. destruct (reachable_inv _ _ Hrun) as [Hw _].
  rewrite FileExists_find in Hex. apply bool_decide_eq_false in Hex.
  assert (fm_find fname (file_map_ (world s)) = None) as Hf
    by (destruct (fm_find fname _); [by destruct Hex | done]).
  pose proof Hw as (_ & _ & Hbrk & _).
  pose proof (Hbrk (brk (world s)) ltac:(lia)) as Hfresh.
  rewrite (NewWritableFile_eq fname (world s) (world s))
    by by apply DeleteFileInternal_absent.
  set (p := brk (world s)) in *.
  set (w1 := {| heap := <[p := created 2]> (heap (world s)); brk := S p;
                file_map_ := fm_insert fname p (file_map_ (world s)) |}).
  assert (Unref p w1 = Some (set_heap (<[p := created 1]> (heap (world s))) w1)) as Hun1.
  { rewrite (Unref_eq p w1 (created 2)); [|apply lookup_insert_eq | cbn; lia].
    unfold heap_unref. cbn [created refs_ w1 heap]. rewrite bool_decide_false by lia.
    by rewrite insert_insert_eq. }
  set (w2 := set_heap (<[p := created 1]> (heap (world s))) w1) in *.
  assert (fm_find fname (file_map_ w2) = Some p) as Hf2.
  { cbn [w2 w1 set_heap file_map_]. by rewrite fm_find_insert, decide_True. }
  assert (DeleteFile fname w2
          = Some (OK, {| heap := heap (world s); brk := S p;
                         file_map_ := file_map_ (world s) |})) as Hdel.
  { unfold DeleteFile, DeleteFileInternal. rewrite Hf2, (fm_index_present _ _ _ Hf2).
    rewrite set_file_map_id.
    rewrite (Unref_eq p w2 (created 1)); [|apply lookup_insert_eq | cbn; lia].
    cbn [mbind option_bind]. unfold heap_unref. cbn [created refs_ w2 w1 set_heap heap].
    rewrite bool_decide_true by lia.
    rewrite delete_insert_eq, delete_id by done.
    unfold set_file_map, set_heap. cbn [heap brk file_map_ w2 w1 set_heap].
    by rewrite fm_erase_insert. }
  eexists {| wr_file_ := p |}, w1, w2, _.
  split; [done|]. split; [exact Hun1|]. split; [exact Hdel|]. done.
Qed.

Lemma create_close_delete_leaves_nothing_witness :
  (run sample_run System_new = Some sample_system ∧
   FileExists "/c" (world sample_system) = false) ∧
  ∃ wv w1 w2 w3,
    NewWritableFile "/c" (world sample_system) = Some (OK, wv, w1) ∧
    WritableFileImpl_delete wv w1 = Some w2 ∧
    DeleteFile "/c" w2 = Some (OK, w3) ∧
    heap w3 = heap (world sample_system) ∧
    file_map_ w3 = file_map_ (world sample_system).
Proof.
  split; [split; [exact sample_system_run | by vm_compute]|].
  apply (create_close_delete_leaves_nothing sample_run sample_system "/c");
    [exact sample_system_run | by vm_compute].
Defined.

(** X16: in every state a client reaches by a serial run, renaming a file
    that exists to another name moves it in the listings and changes nothing
    else in them: afterwards [GetChildren] of any directory lists a name
    exactly when the directory, a separator and the name make up the new
    name, or when it listed the name before and they do not make up the old
    name. *)
Theorem renamed_file_is_listed (ops : list Op) (s : System) (src target : string) :
  run ops System_new = Some s →
  FileExists src (world s) = true → src ≠ target →
  ∃ w',
    RenameFile src target (world s) = Some (OK, w') ∧
    ∀ dir name,
      name ∈ (GetChildren dir w').2 ↔
      (dir +:+ "/") +:+ name = target ∨
      ((dir +:+ "/") +:+ name ≠ src ∧ name ∈ (GetChildren dir (world s)).2).
Proof.
  intros Hrun Hex Hne. destruct (reachable_inv _ _ Hrun) as [Hw _].
  rewrite FileExists_find in Hex. apply bool_decide_eq_true in Hex as [p Hf].
  destruct (RenameFile_present false _ _ src target p Hw Hf Hne)
    as (w1 & w' & _ & Hren & _ & _ & Hmap & _).
  pose proof Hw as (Hsorted & _).
  pose proof (fm_sorted_erase target _ Hsorted) as Hs1.
  pose proof (fm_sorted_insert target p _ Hs1) as Hs2.
  exists w'. split; [done|]. intros dir name.
  rewrite !GetChildren_elem, Hmap.
  rewrite fm_find_erase, fm_find_insert, fm_find_erase by done.
  destruct (decide ((dir +:+ "/") +:+ name = src)) as [Hk|Hk].
  - split; [by intros [? ?] | intros [?|[? _]]; congruence].
  - destruct (decide ((dir +:+ "/") +:+ name = target)) as [Hk'|Hk'].
    + split; [by left | by eexists].
    + split; [by right | by intros [?|[_ ?]]].
Qed.

Lemma renamed_file_is_listed_witness :
  (run sample_run System_new = Some sample_system ∧
   FileExists "/a/y" (world sample_system) = true ∧ "/a/y" ≠ "/b/y") ∧
  ∃ w',
    RenameFile "/a/y" "/b/y" (world sample_system) = Some (OK, w') ∧
    ∀ dir name,
      name ∈ (GetChildren dir w').2 ↔
      (dir +:+ "/") +:+ name = "/b/y" ∨
      ((dir +:+ "/") +:+ name ≠ "/a/y" ∧
       name ∈ (GetChildren dir (world sample_system)).2).
Proof.
  split; [split; [exact sample_system_run | split; [by vm_compute | done]]|].
  apply (renamed_file_is_listed sample_run sample_system "/a/y" "/b/y");
    [exact sample_system_run | by vm_compute | done].
Defined.

(** * Further properties of serial runs *)

(** ** Destroying the environment *)

(** An object that [Unref] leaves live was live, with the same content. *)
Lemma heap_unref_survivor p st h q st' :
  h !! p = Some st → heap_unref p st h !! q = Some st' →
  ∃ st0, h !! q = Some st0 ∧ blocks_ st' = blocks_ st0 ∧ size_ st' = size_ st0.
Proof.
  intros Hp Hq. destruct (decide (q = p)) as [->|Hne].
  - rewrite heap_unref_eq in Hq. case_bool_decide; [done|].
    injection Hq as <-. by exists st.
  - rewrite heap_unref_ne in Hq by done. by exists st'.
Qed.

(** The loop of the destructor releases one reference per entry. *)
Lemma InMemoryEnv_delete_loop_spec e (m : FileSystem) : ∀ w held,
  refs_ok e (heap w) (m.*2 ++ held) →
  ∃ w', InMemoryEnv_delete_loop m w = Some w' ∧
    refs_ok e (heap w') held ∧
    (∀ q st', heap w' !! q = Some st' →
       ∃ st, heap w !! q = Some st ∧ blocks_ st' = blocks_ st ∧ size_ st' = size_ st).
Proof.
  induction m as [|[k p] m IH]; intros w held Hrefs; cbn [InMemoryEnv_delete_loop].
  { exists w. split; [done|]. split; [done|]. intros q st' Hq. by exists st'. }
  cbn [fmap list_fmap snd app] in Hrefs.
  destruct (refs_ok_live e _ _ p Hrefs) as (st & Hp & Hr & _); [by left|].
  rewrite (Unref_eq p w st Hp Hr). cbn [mbind option_bind].
  destruct (IH (set_heap (heap_unref p st (heap w)) w) held) as (w' & Hloop & Hrefs' & Hsurv).
  { cbn [set_heap heap]. by apply (refs_ok_unref e _ (p :: m.*2 ++ held)). }
  exists w'. split; [done|]. split; [done|].
  intros q st' Hq. destruct (Hsurv q st' Hq) as (st1 & Hq1 & Hb1 & Hs1).
  cbn [set_heap heap] in Hq1.
  destruct (heap_unref_survivor p st _ q st1 Hp Hq1) as (st0 & Hq0 & Hb0 & Hs0).
  exists st0. split; [done|]. split; congruence.
Qed.

(** X17: in every state a client reaches by a serial run, destroying the
    environment is defined (no reference count falls below zero) and every
    object that a view still holds stays live, with the content it had and
    at least one reference per view that holds it.  When the run has no
    [DeleteRecursively], the objects that stay live are exactly those held
    by a view, each with one reference per view: nothing else is left
    behind. *)
Theorem InMemoryEnv_delete_releases_files (ops : list Op) (s : System) :
  run ops System_new = Some s →
  ∃ h',
    InMemoryEnv_delete (world s) = Some h' ∧
    (∀ v, v ∈ views s →
       ∃ st st', heap (world s) !! view_file v = Some st ∧
                 h' !! view_file v = Some st' ∧
                 blocks_ st' = blocks_ st ∧ size_ st' = size_ st ∧
                 occ (view_file v) (view_file <$> views s) ≤ refs_ st') ∧
    (Forall (λ op, is_DeleteRecursively op = false) ops →
     ∀ p st', h' !! p = Some st' →
       refs_ st' = occ p (view_file <$> views s) ∧
       ∃ v, v ∈ views s ∧ view_file v = p).
Proof.
  intros Hrun. destruct (reachable_inv _ _ Hrun) as [(_ & _ & _ & Hrefs & _) _].
  destruct (InMemoryEnv_delete_loop_spec false _ _ _ Hrefs) as (w' & Hloop & Hrefs' & Hsurv).
  exists (heap w'). unfold InMemoryEnv_delete. rewrite Hloop. split; [done|]. split.
  - intros v Hv.
    destruct (refs_ok_live false _ _ (view_file v) Hrefs') as (st' & Hp' & _ & Hocc).
    { apply list_elem_of_fmap. by exists v. }
    destruct (Hsurv _ _ Hp') as (st & Hp & Hb & Hs).
    exists st, st'. by split_and!.
  - intros Hops p st' Hp'.
    destruct (reachable_inv_exact _ _ Hops Hrun) as [(_ & _ & _ & Hexact & _) _].
    destruct (InMemoryEnv_delete_loop_spec true _ _ _ Hexact) as (w'' & Hloop' & Hexact' & _).
    rewrite Hloop in Hloop'. injection Hloop' as <-.
    specialize (Hexact' p). rewrite Hp' in Hexact'.
    destruct Hexact' as (Hone & _ & Heq). specialize (Heq eq_refl).
    split; [done|].
    assert (p ∈ view_file <$> views s) as Hin by (apply occ_elem; lia).
    apply list_elem_of_fmap in Hin as (v & -> & Hv). by exists v.
Qed.

Lemma InMemoryEnv_delete_releases_files_witness :
  run sample_run System_new = Some sample_system ∧
  ∃ h',
    InMemoryEnv_delete (world sample_system) = Some h' ∧
    (∀ v, v ∈ views sample_system →
       ∃ st st', heap (world sample_system) !! view_file v = Some st ∧
                 h' !! view_file v = Some st' ∧
                 blocks_ st' = blocks_ st ∧ size_ st' = size_ st ∧
                 occ (view_file v) (view_file <$> views sample_system) ≤ refs_ st') ∧
    (Forall (λ op, is_DeleteRecursively op = false) sample_run →
     ∀ p st', h' !! p = Some st' →
       refs_ st' = occ p (view_file <$> views sample_system) ∧
       ∃ v, v ∈ views sample_system ∧ view_file v = p).
Proof.
  split; [exact sample_system_run|].
  apply (InMemoryEnv_delete_releases_files sample_run sample_system).
  exact sample_system_run.
Defined.

(** ** Calls within the contract are defined *)

Lemma view_file_ok e s (h : nat) v :
  sys_inv e s → views s !! h = Some v →
  ∃ st, heap (world s) !! view_file v = Some st ∧ file_of h s = Some st ∧
        fs_rep st ∧ fs_upper st ∧ size_ st < 2 ^ 64 ∧ view_ok (heap (world s)) v.
Proof.
  intros [Hw Hv] Hh.
  destruct (views_live e _ _ v Hw) as [st Hst]; [by eapply list_elem_of_lookup_2|].
  pose proof Hw as (_ & _ & _ & _ & Hfiles). destruct (Hfiles _ _ Hst) as (? & ? & ?).
  exists st. unfold file_of. rewrite Hh. cbn [mbind option_bind].
  split_and!; try done. by apply (Forall_lookup_1 _ _ _ _ Hv Hh).
Qed.

(** X18: in every state a client reaches by a serial run, every call within
    the contract of the interface, [PreAllocate] apart, is defined: it
    dereferences no pointer to a destroyed object and no null pointer, fails
    no [assert] or [CHECK], and copies no byte outside a block or the
    scratch buffer.  [PreAllocate] within the contract is defined when the
    array it allocates is at an address whose low byte is zero, and is
    undefined at every other address: nothing the caller does makes it
    safe. *)
Theorem calls_in_contract_are_defined (ops : list Op) (s : System) (op : Op) :
  run ops System_new = Some s →
  in_contract op s →
  match op with
  | OpPreAllocate _ _ padding =>
      if decide (padding `mod` 256 = 0)
      then ∃ s', exec op s = Some s'
      else exec op s = None
  | _ => ∃ s', exec op s = Some s'
  end.
Proof.
  intros Hrun Hc. pose proof (reachable_inv _ _ Hrun) as Hinv.
  pose proof Hinv as [Hw Hv].
  destruct op as [fname|fname|fname|h|h n result scratch|h n|h size padding|h data|h data_vector
                  |fname|dirname|src target]; cbn [exec in_contract] in *.
  - destruct (fm_find fname (file_map_ (world s))) as [p|] eqn:Hf.
    + destruct (NewSequentialFile_present false _ _ fname p Hw Hf) as (st & _ & -> & _).
      by eexists.
    + rewrite (NewSequentialFile_absent _ _ Hf). by eexists.
  - destruct (fm_find fname (file_map_ (world s))) as [p|] eqn:Hf.
    + destruct (NewRandomAccessFile_present false _ _ fname p Hw Hf) as (st & _ & -> & _).
      by eexists.
    + rewrite (NewRandomAccessFile_absent _ _ Hf). by eexists.
  - destruct (NewWritableFile_spec false _ _ fname Hw) as (w1 & w' & _ & -> & _).
    by eexists.
  - destruct Hc as [v Hh]. rewrite Hh. cbn [mbind option_bind].
    destruct (Unref_view_spec false _ _ (view_file <$> delete h (views s)) (view_file v) Hw)
      as (st & _ & -> & _).
    { by rewrite (delete_Permutation _ _ _ Hh) at 1. }
    by eexists.
  - destruct Hc as [[v Hh] Hn]. rewrite Hh. cbn [mbind option_bind].
    rewrite decide_True by lia.
    destruct (view_file_ok false s h _ Hinv Hh) as (st & Hst & _ & Hrep & Hup & Hmax & Hok).
    cbn [view_file view_ok] in Hst, Hok.
    destruct (SequentialFileImpl_Read_spec st (pos_ v) n result scratch)
      as (sl & scratch' & Hread & _); [done | done | done | by apply Hok | lia | intros _; lia |].
    unfold Sequential_Read. rewrite Hst. cbn [mbind option_bind].
    rewrite Hread. by eexists.
  - destruct Hc as [[v Hh] Hn]. rewrite Hh. cbn [mbind option_bind].
    rewrite decide_True by lia.
    destruct (view_file_ok false s h _ Hinv Hh) as (st & Hst & _).
    cbn [view_file] in Hst. unfold Sequential_Skip. rewrite Hst. cbn [mbind option_bind].
    destruct (SequentialFileImpl_Skip st (pos_ v) n). by eexists.
  - destruct Hc as ([v Hh] & Hsize & Hfit). rewrite Hh. cbn [mbind option_bind].
    destruct (view_file_ok false s h _ Hinv Hh) as (st & Hst & Hfile & Hrep & Hup & Hmax & _).
    rewrite Hfile. cbn [mbind option_bind]. specialize (Hfit _ Hfile).
    rewrite (decide_True (P := 0 ≤ size ∧ size_ st + size < 2 ^ 64)) by done.
    cbn [view_file] in Hst. case_decide as Hpad.
    + destruct (PreAllocate_spec st size padding Hrep Hup Hsize Hfit Hpad)
        as (st' & Hpre & Hr & Hs & Hrep' & Hup' & _).
      destruct (on_file_spec false _ _ (wr_file_ v) (λ file, PreAllocate file size padding)
                  st OK st' Hw Hst Hpre) as [Hon _]; [done | done | done | lia |].
      unfold Writable_PreAllocate. rewrite Hon. by eexists.
    + unfold Writable_PreAllocate, on_file. rewrite Hst. cbn [mbind option_bind].
      by rewrite (PreAllocate_misaligned _ _ _ Hpad).
  - destruct Hc as ([v Hh] & Hfit). rewrite Hh. cbn [mbind option_bind].
    destruct (view_file_ok false s h _ Hinv Hh) as (st & Hst & Hfile & Hrep & Hup & Hmax & _).
    rewrite Hfile. cbn [mbind option_bind]. specialize (Hfit _ Hfile).
    rewrite decide_True by done. cbn [view_file op_bytes] in Hst, Hfit.
    destruct (Append_spec st data Hrep Hup Hfit)
      as (st' & Happ & Hr & Hs & Hrep' & Hup' & _).
    destruct (on_file_spec false _ _ (wr_file_ v) (λ file, Append file data)
                st OK st' Hw Hst Happ) as [Hon _]; [done | done | done | lia |].
    unfold Writable_Append. rewrite Hon. by eexists.
  - destruct Hc as ([v Hh] & Hfit). rewrite Hh. cbn [mbind option_bind].
    destruct (view_file_ok false s h _ Hinv Hh) as (st & Hst & Hfile & Hrep & Hup & Hmax & _).
    rewrite Hfile. cbn [mbind option_bind]. specialize (Hfit _ Hfile).
    rewrite decide_True by done. cbn [view_file op_bytes] in Hst, Hfit.
    destruct (AppendVector_spec data_vector st Hrep Hup Hfit)
      as (st' & Happ & Hr & Hs & Hrep' & Hup' & _).
    destruct (on_file_spec false _ _ (wr_file_ v) (λ file, AppendVector file data_vector)
                st OK st' Hw Hst Happ) as [Hon _]; [done | done | done | lia |].
    unfold Writable_AppendVector. rewrite Hon. by eexists.
  - destruct (fm_find fname (file_map_ (world s))) as [p|] eqn:Hf.
    + destruct (DeleteFile_present false _ _ fname p Hw Hf) as (st & w' & _ & _ & -> & _).
      by eexists.
    + rewrite (DeleteFile_absent _ _ Hf). by eexists.
  - rewrite (DeleteRecursively_eq _ _ Hc). by eexists.
  - destruct (RenameFile_spec false _ _ src target Hw) as (st & w' & -> & _).
    by eexists.
Qed.

Lemma calls_in_contract_are_defined_witness :
  (run sample_run System_new = Some sample_system ∧
   in_contract (OpPreAllocate 1 9000 4096) sample_system) ∧
  ∃ s', exec (OpPreAllocate 1 9000 4096) sample_system = Some s'.
Proof.
  assert (in_contract (OpPreAllocate 1 9000 4096) sample_system) as Hc.
  { split; [eexists; by vm_compute|]. split; [lia|]. intros file Hfile.
    assert (size_ <$> file_of 1 sample_system = Some 8194) as Hs by (by vm_compute).
    rewrite Hfile in Hs. injection Hs as ->. lia. }
  split; [split; [exact sample_system_run | exact Hc]|].
  exact (calls_in_contract_are_defined sample_run sample_system
           (OpPreAllocate 1 9000 4096) sample_system_run Hc).
Defined.

(** ** Files only grow *)

Lemma heap_same_prefix h h' : heap_same h h' → heap_prefix h h'.
Proof.
  intros Hs p st st' Hp Hp'. destruct (Hs _ _ _ Hp Hp') as [Hb Hsz].
  split; [lia|]. unfold content, flat. rewrite Hb, Hsz, take_take. f_equal. lia.
Qed.

Lemma heap_prefix_insert h p st st' :
  h !! p = Some st → size_ st ≤ size_ st' →
  take (Z.to_nat (size_ st)) (content st') = content st →
  heap_prefix h (<[p := st']> h).
Proof.
  intros Hp Hle Hc q st1 st2 H1 H2. rewrite lookup_insert in H2.
  case_decide; simplify_eq; [done|].
  by apply (heap_same_prefix h h (heap_same_refl h) q).
Qed.

Lemma DeleteFileInternal_dead e w held k w1 q :
  world_inv e w held → DeleteFileInternal k w = Some w1 →
  heap w !! q = None → heap w1 !! q = None.
Proof.
  intros Hw Hdel Hq.
  destruct (DeleteFileInternal_spec e w held k Hw) as (w1' & Hdel' & _ & _ & _ & Hother & _).
  rewrite Hdel in Hdel'. injection Hdel' as <-. rewrite Hother; [done|].
  intros Hf. destruct (world_inv_live e w held q Hw) as (st & Hst & _); [|congruence].
  apply elem_of_app. left. by apply (fm_find_values k).
Qed.

Lemma RenameFile_heap src target w st w' :
  RenameFile src target w = Some (st, w') →
  w' = w ∨ ∃ w1, DeleteFileInternal target w = Some w1 ∧ heap w' = heap w1.
Proof.
  unfold RenameFile. destruct (fm_find src (file_map_ w)); [|intros [= _ <-]; by left].
  destruct (DeleteFileInternal target w) as [w1|]; [|done]. cbn [mbind option_bind].
  destruct (fm_index src (file_map_ w1)) as [file m1]. intros [= _ <-].
  right. by exists w1.
Qed.

(** A content operation through a writable view, on the heap. *)
Lemma write_heap w p f st s0 s st' w' :
  heap w !! p = Some st → f st = Some (s0, st') → on_file p f w = Some (s, w') →
  fs_rep st → size_ st ≤ size_ st' →
  take (Z.to_nat (size_ st)) (flat st') = content st →
  heap_prefix (heap w) (heap w') ∧ brk w' = brk w ∧
  (∀ q, heap w !! q = None → heap w' !! q = None).
Proof.
  intros Hp Hf Hon Hrep Hle Hpre. unfold on_file in Hon. rewrite Hp in Hon.
  cbn [mbind option_bind] in Hon. rewrite Hf in Hon. injection Hon as _ <-.
  cbn [set_heap heap brk]. split; [|split; [done|]].
  - apply (heap_prefix_insert _ _ st); [done | done |]. by apply content_prefix.
  - intros q Hq. rewrite lookup_insert_ne; [done|]. intros ->. congruence.
Qed.

(** One call: live objects keep their bytes, the allocator moves forward,
    and an address that was given out and is no longer live stays so. *)
Lemma exec_heap op s s' :
  sys_inv false s → exec op s = Some s' →
  heap_prefix (heap (world s)) (heap (world s')) ∧
  (brk (world s) ≤ brk (world s'))%nat ∧
  (∀ p, heap (world s) !! p = None → (p < brk (world s))%nat →
        heap (world s') !! p = None).
Proof.
  intros [Hw Hv] Hex. destruct s as [w vs]. unfold views_ok in Hv.
  cbn [world views] in *.
  assert (∀ w', w' = w →
            heap_prefix (heap w) (heap w') ∧ (brk w ≤ brk w')%nat ∧
            (∀ p, heap w !! p = None → (p < brk w)%nat → heap w' !! p = None)) as Hid.
  { intros w' ->. split; [apply heap_same_prefix, heap_same_refl|]. by split. }
  assert (∀ p st h', heap w !! p = Some st → h' = heap_unref p st (heap w) →
            heap_prefix (heap w) h' ∧
            (∀ q, heap w !! q = None → (q < brk w)%nat → h' !! q = None)) as Hunref.
  { intros p st h' Hp ->. split; [by apply heap_same_prefix, heap_same_unref|].
    intros q Hq _. rewrite heap_unref_ne; [done|]. intros ->. congruence. }
  assert (∀ p st r h', heap w !! p = Some st → h' = <[p := with_refs r st]> (heap w) →
            heap_prefix (heap w) h' ∧
            (∀ q, heap w !! q = None → (q < brk w)%nat → h' !! q = None)) as Href.
  { intros p st r h' Hp ->. split; [by apply heap_same_prefix, heap_same_with_refs|].
    intros q Hq _. rewrite lookup_insert_ne; [done|]. intros ->. congruence. }
  destruct op as [fname|fname|fname|h|h n result scratch|h n|h size padding|h data|h data_vector
                  |fname|dirname|src target]; cbn [exec world views] in Hex.
  - (* NewSequentialFile *)
    destruct (fm_find fname (file_map_ w)) as [p|] eqn:Hf.
    + destruct (NewSequentialFile_present false w _ fname p Hw Hf) as (st & Hp & Hnew & _).
      rewrite Hnew in Hex. injection Hex as <-. cbn [world set_heap heap brk].
      destruct (Href p st (refs_ st + 1) _ Hp eq_refl). by split_and!.
    + rewrite (NewSequentialFile_absent _ _ Hf) in Hex. injection Hex as <-. by apply Hid.
  - (* NewRandomAccessFile *)
    destruct (fm_find fname (file_map_ w)) as [p|] eqn:Hf.
    + destruct (NewRandomAccessFile_present false w _ fname p Hw Hf) as (st & Hp & Hnew & _).
      rewrite Hnew in Hex. injection Hex as <-. cbn [world set_heap heap brk].
      destruct (Href p st (refs_ st + 1) _ Hp eq_refl). by split_and!.
    + rewrite (NewRandomAccessFile_absent _ _ Hf) in Hex. injection Hex as <-. by apply Hid.
  - (* NewWritableFile *)
    destruct (NewWritableFile_spec false w _ fname Hw)
      as (w1 & w' & Hdel & Hnew & Hh & Hfresh & Hb & Hm & Hsame & Hw').
    rewrite Hnew in Hex. injection Hex as <-. cbn [world].
    pose proof Hw as (_ & _ & Hbrk & _).
    split; [|split; [lia|]].
    + apply heap_same_prefix. intros q st st' Hq Hq'. rewrite Hh in Hq'.
      rewrite lookup_insert_ne in Hq'; [|intros <-; by rewrite Hbrk in Hq].
      by apply (Hsame _ _ _ Hq Hq').
    + intros q Hq Hlt. rewrite Hh, lookup_insert_ne by lia.
      by apply (DeleteFileInternal_dead false w (view_file <$> vs) fname).
  - (* delete a view *)
    destruct (vs !! h) as [v|] eqn:Hh; [|done]. cbn [mbind option_bind] in Hex.
    destruct (Unref_view_spec false w _ (view_file <$> delete h vs) (view_file v) Hw)
      as (st & Hp & Hun & _).
    { rewrite (delete_Permutation _ _ _ Hh) at 1. done. }
    rewrite Hun in Hex. injection Hex as <-. cbn [world set_heap heap brk].
    destruct (Hunref _ st _ Hp eq_refl). by split_and!.
  - (* Read *)
    destruct (vs !! h) as [[v| |]|] eqn:Hh; try done. cbn [mbind option_bind] in Hex.
    case_decide as Hn; [|done].
    destruct (Sequential_Read v n result scratch w) as [[[[? ?] ?] ?]|]; [|done].
    injection Hex as <-. by apply Hid.
  - (* Skip *)
    destruct (vs !! h) as [[v| |]|] eqn:Hh; try done. cbn [mbind option_bind] in Hex.
    case_decide as Hn; [|done].
    destruct (Sequential_Skip v n w) as [[? ?]|]; [|done].
    injection Hex as <-. by apply Hid.
  - (* PreAllocate *)
    unfold file_of in Hex. cbn [world views] in Hex.
    destruct (vs !! h) as [v|] eqn:Hh; [|done]. cbn [mbind option_bind] in Hex.
    destruct (heap w !! view_file v) as [st|] eqn:Hp; [|done]. cbn [mbind option_bind] in Hex.
    destruct v as [| |wv]; try done. case_decide as Hg; [|done]. destruct Hg as [Hsize Hov].
    destruct (Writable_PreAllocate wv size padding w) as [[s w']|] eqn:Hon; [|done].
    pose proof (Writable_PreAllocate_returned _ _ _ _ _ Hon) as Hpad.
    injection Hex as <-. cbn [view_file world] in *.
    pose proof Hw as (_ & _ & _ & _ & Hfiles). destruct (Hfiles _ _ Hp) as (Hrep & Hup & Hmax).
    destruct (PreAllocate_spec st size padding Hrep Hup Hsize Hov Hpad)
      as (st' & Hpre & Hr & Hs & Hrep' & Hup' & _ & _ & Hcont).
    destruct (write_heap w _ _ st OK s st' w' Hp Hpre Hon Hrep) as (? & -> & ?); [lia| |].
    { rewrite <- Hs. fold (content st'). by rewrite Hcont. }
    split_and!; [done | lia | by intros q Hq _; auto].
  - (* Append *)
    unfold file_of in Hex. cbn [world views] in Hex.
    destruct (vs !! h) as [v|] eqn:Hh; [|done]. cbn [mbind option_bind] in Hex.
    destruct (heap w !! view_file v) as [st|] eqn:Hp; [|done]. cbn [mbind option_bind] in Hex.
    destruct v as [| |wv]; try done. case_decide as Hov; [|done]. cbn [op_bytes] in Hov.
    destruct (Writable_Append wv data w) as [[s w']|] eqn:Hon; [|done].
    injection Hex as <-. cbn [view_file world] in *.
    pose proof Hw as (_ & _ & _ & _ & Hfiles). destruct (Hfiles _ _ Hp) as (Hrep & Hup & Hmax).
    destruct (Append_spec st data Hrep Hup Hov)
      as (st' & Happ & Hr & Hs & Hrep' & Hup' & _ & Hbelow & _).
    destruct (write_heap w _ _ st OK s st' w' Hp Happ Hon Hrep) as (? & -> & ?); [lia | done |].
    split_and!; [done | lia | by intros q Hq _; auto].
  - (* AppendVector *)
    unfold file_of in Hex. cbn [world views] in Hex.
    destruct (vs !! h) as [v|] eqn:Hh; [|done]. cbn [mbind option_bind] in Hex.
    destruct (heap w !! view_file v) as [st|] eqn:Hp; [|done]. cbn [mbind option_bind] in Hex.
    destruct v as [| |wv]; try done. case_decide as Hov; [|done]. cbn [op_bytes] in Hov.
    destruct (Writable_AppendVector wv data_vector w) as [[s w']|] eqn:Hon; [|done].
    injection Hex as <-. cbn [view_file world] in *.
    pose proof Hw as (_ & _ & _ & _ & Hfiles). destruct (Hfiles _ _ Hp) as (Hrep & Hup & Hmax).
    destruct (AppendVector_spec data_vector st Hrep Hup Hov)
      as (st' & Happ & Hr & Hs & Hrep' & Hup' & _ & Hbelow & _).
    destruct (write_heap w _ _ st OK s st' w' Hp Happ Hon Hrep) as (? & -> & ?); [lia | done |].
    split_and!; [done | lia | by intros q Hq _; auto].
  - (* DeleteFile *)
    destruct (fm_find fname (file_map_ w)) as [p|] eqn:Hf.
    + destruct (DeleteFile_present false w _ fname p Hw Hf)
        as (st & w' & Hp & Hr & Hdel & Hh & Hb & _).
      rewrite Hdel in Hex. injection Hex as <-. cbn [world]. rewrite Hb.
      destruct (Hunref _ st _ Hp Hh). by split_and!.
    + rewrite (DeleteFile_absent _ _ Hf) in Hex. injection Hex as <-. by apply Hid.
  - (* DeleteRecursively *)
    destruct (DeleteRecursively dirname w) as [[s w']|] eqn:Hdel; [|done].
    injection Hex as <-. cbn [world].
    destruct (DeleteRecursively_spec w _ dirname s w' Hw Hdel) as (Hh & Hb & _).
    rewrite Hh, Hb. destruct (Hid w eq_refl) as (? & ? & ?). by split_and!.
  - (* RenameFile *)
    destruct (RenameFile_spec false w _ src target Hw) as (s & w' & Hren & Hb & Hsame & _).
    rewrite Hren in Hex. injection Hex as <-. cbn [world].
    split; [by apply heap_same_prefix|]. split; [lia|]. intros q Hq _.
    destruct (RenameFile_heap _ _ _ _ _ Hren) as [->|(w1 & Hdel & ->)]; [done|].
    by apply (DeleteFileInternal_dead false w (view_file <$> vs) target).
Qed.

(** A run: the same, from its first state to its last. *)
Lemma run_heap ops : ∀ s s',
  sys_inv false s → run ops s = Some s' →
  heap_prefix (heap (world s)) (heap (world s')) ∧
  (brk (world s) ≤ brk (world s'))%nat ∧
  (∀ p, heap (world s) !! p = None → (p < brk (world s))%nat →
        heap (world s') !! p = None).
Proof.
  induction ops as [|op ops IH]; intros s s' Hinv; cbn [run].
  { intros [= <-]. split; [apply heap_same_prefix, heap_same_refl|]. by split. }
  destruct (exec op s) as [s1|] eqn:Hex; [|done]. cbn [mbind option_bind]. intros Hrun.
  destruct (exec_heap op s s1 Hinv Hex) as (Hpre1 & Hbrk1 & Hdead1).
  destruct (exec_inv false op s s1 Hinv ltac:(done) Hex) as [Hinv1 _].
  destruct (IH s1 s' Hinv1 Hrun) as (Hpre2 & Hbrk2 & Hdead2).
  split; [|split; [lia|]].
  - intros p st st' Hp Hp'.
    assert (p < brk (world s))%nat as Hlt.
    { destruct Hinv as [(_ & _ & Hbrk & _) _].
      destruct (decide (p < brk (world s))%nat) as [|Hge]; [done|].
      rewrite Hbrk in Hp by lia. done. }
    destruct (heap (world s1) !! p) as [st1|] eqn:Hp1.
    + destruct (Hpre1 _ _ _ Hp Hp1) as [Hle1 Hc1].
      destruct (Hpre2 _ _ _ Hp1 Hp') as [Hle2 Hc2].
      split; [lia|]. rewrite <- Hc1, <- Hc2, take_take. f_equal. lia.
    + rewrite (Hdead2 p Hp1) in Hp' by lia. done.
  - intros p Hp Hlt. apply Hdead2; [by apply Hdead1 | lia].
Qed.

(** X19: files only grow.  Between any two states of a serial run, an object
    that is live in both has not shrunk, and the bytes it held in the first
    state are the first bytes it holds in the second: no call, through any
    view or name, changes or removes a byte that is in a file. *)
Theorem files_keep_their_bytes (ops ops' : list Op) (s s' : System)
    (p : ptr) (st st' : FileState) :
  run ops System_new = Some s → run ops' s = Some s' →
  heap (world s) !! p = Some st → heap (world s') !! p = Some st' →
  size_ st ≤ size_ st' ∧
  take (Z.to_nat (size_ st)) (content st') = content st.
Proof.
  intros Hrun Hrun' Hp Hp'. pose proof (reachable_inv _ _ Hrun) as Hinv.
  destruct (run_heap ops' s s' Hinv Hrun') as (Hpre & _).
  by apply (Hpre p).
Qed.

Lemma files_keep_their_bytes_witness :
  (run sample_run System_new = Some sample_system ∧
   run sample_more sample_system = Some sample_later ∧
   heap (world sample_system) !! 2%nat = Some sample_y ∧
   heap (world sample_later) !! 2%nat = Some sample_y_later) ∧
  size_ sample_y ≤ size_ sample_y_later ∧
  take (Z.to_nat (size_ sample_y)) (content sample_y_later) = content sample_y.
Proof.
  split; [split; [exact sample_system_run | split_and!; by vm_compute]|].
  apply (files_keep_their_bytes sample_run sample_more sample_system sample_later 2%nat);
    [exact sample_system_run | by vm_compute ..].
Defined.

(** ** What a writer appends, every view sees *)

Lemma DeleteFileInternal_survivor e w held k w1 q st' :
  world_inv e w held → DeleteFileInternal k w = Some w1 →
  heap w1 !! q = Some st' →
  ∃ st, heap w !! q = Some st ∧ blocks_ st' = blocks_ st ∧ size_ st' = size_ st.
Proof.
  intros Hw Hdel Hq. destruct (fm_find k (file_map_ w)) as [p|] eqn:Hf.
  - destruct (DeleteFileInternal_present e w held k p Hw Hf)
      as (st & w1' & Hp & _ & Hdel' & Hh & _).
    rewrite Hdel in Hdel'. injection Hdel' as <-. rewrite Hh in Hq.
    by apply (heap_unref_survivor p st (heap w)).
  - rewrite (DeleteFileInternal_absent _ _ Hf) in Hdel. injection Hdel as <-.
    by exists st'.
Qed.

(** One call: an object that is live after it was live before it with the
    same content, or is new and empty, or is the object the call has written
    to through its view. *)
Lemma exec_survivor op s s' p st' :
  sys_inv false s → exec op s = Some s' → heap (world s') !! p = Some st' →
  (∃ st, heap (world s) !! p = Some st ∧
         blocks_ st' = blocks_ st ∧ size_ st' = size_ st) ∨
  (heap (world s) !! p = None ∧ blocks_ st' = [] ∧ size_ st' = 0) ∨
  (∃ st h wv, written_view op = Some h ∧
              views s !! h = Some (VWritable wv) ∧ wr_file_ wv = p ∧
              heap (world s) !! p = Some st ∧ write_of op st = Some (OK, st') ∧
              0 ≤ op_bytes op ∧ size_ st + op_bytes op < 2 ^ 64).
Proof.
  intros [Hw Hv] Hex Hp'. destruct s as [w vs]. cbn [world views] in *.
  assert (∀ q st r, heap w !! q = Some st →
            <[q := with_refs r st]> (heap w) !! p = Some st' →
            ∃ st0, heap w !! p = Some st0 ∧
                   blocks_ st' = blocks_ st0 ∧ size_ st' = size_ st0) as Href.
  { intros q st r Hq Hl. rewrite lookup_insert in Hl. case_decide; simplify_eq.
    - by exists st.
    - by exists st'. }
  assert (∀ q (f : FileState → option (Status * FileState)) st s0 w',
            heap w !! q = Some st → on_file q f w = Some (s0, w') →
            heap w' !! p = Some st' →
            (∃ st0, heap w !! p = Some st0 ∧
                    blocks_ st' = blocks_ st0 ∧ size_ st' = size_ st0) ∨
            (p = q ∧ ∃ s1, f st = Some (s1, st'))) as Hwrite.
  { intros q f st s0 w' Hq Hon Hl. unfold on_file in Hon. rewrite Hq in Hon.
    cbn [mbind option_bind] in Hon. destruct (f st) as [[s1 st1]|]; [|done].
    injection Hon as _ <-. cbn [set_heap heap] in Hl. rewrite lookup_insert in Hl.
    case_decide; simplify_eq.
    - right. split; [done|]. by exists s1.
    - left. by exists st'. }
  destruct op as [fname|fname|fname|h|h n result scratch|h n|h size padding|h data|h data_vector
                  |fname|dirname|src target]; cbn [exec world views] in Hex.
  - destruct (fm_find fname (file_map_ w)) as [q|] eqn:Hf.
    + destruct (NewSequentialFile_present false w _ fname q Hw Hf) as (st & Hq & Hnew & _).
      rewrite Hnew in Hex. injection Hex as <-. left. by apply (Href q st (refs_ st + 1)).
    + rewrite (NewSequentialFile_absent _ _ Hf) in Hex. injection Hex as <-.
      left. by exists st'.
  - destruct (fm_find fname (file_map_ w)) as [q|] eqn:Hf.
    + destruct (NewRandomAccessFile_present false w _ fname q Hw Hf) as (st & Hq & Hnew & _).
      rewrite Hnew in Hex. injection Hex as <-. left. by apply (Href q st (refs_ st + 1)).
    + rewrite (NewRandomAccessFile_absent _ _ Hf) in Hex. injection Hex as <-.
      left. by exists st'.
  - destruct (NewWritableFile_spec false w _ fname Hw)
      as (w1 & w' & Hdel & Hnew & Hh & _).
    rewrite Hnew in Hex. injection Hex as <-. cbn [world] in Hp'.
    rewrite Hh, lookup_insert in Hp'. case_decide; simplify_eq.
    + right. left. pose proof Hw as (_ & _ & Hbrk & _).
      split; [apply Hbrk; lia | done].
    + left. by apply (DeleteFileInternal_survivor false w (view_file <$> vs) fname w1).
  - destruct (vs !! h) as [v|] eqn:Hh; [|done]. cbn [mbind option_bind] in Hex.
    destruct (Unref_view_spec false w _ (view_file <$> delete h vs) (view_file v) Hw)
      as (st & Hq & Hun & _).
    { rewrite (delete_Permutation _ _ _ Hh) at 1. done. }
    rewrite Hun in Hex. injection Hex as <-. left.
    by apply (heap_unref_survivor (view_file v) st (heap w)).
  - destruct (vs !! h) as [[v| |]|] eqn:Hh; try done. cbn [mbind option_bind] in Hex.
    case_decide as Hn; [|done].
    destruct (Sequential_Read v n result scratch w) as [[[[? ?] ?] ?]|]; [|done].
    injection Hex as <-. left. by exists st'.
  - destruct (vs !! h) as [[v| |]|] eqn:Hh; try done. cbn [mbind option_bind] in Hex.
    case_decide as Hn; [|done].
    destruct (Sequential_Skip v n w) as [[? ?]|]; [|done].
    injection Hex as <-. left. by exists st'.
  - unfold file_of in Hex. cbn [world views] in Hex.
    destruct (vs !! h) as [v|] eqn:Hh; [|done]. cbn [mbind option_bind] in Hex.
    destruct (heap w !! view_file v) as [st|] eqn:Hq; [|done]. cbn [mbind option_bind] in Hex.
    destruct v as [| |wv]; try done. case_decide as Hg; [|done]. destruct Hg as [Hsize Hov].
    destruct (Writable_PreAllocate wv size padding w) as [[s w']|] eqn:Hon; [|done].
    pose proof (Writable_PreAllocate_returned _ _ _ _ _ Hon) as Hpad.
    injection Hex as <-. cbn [view_file world] in *.
    destruct (Hwrite _ _ st s w' Hq Hon Hp') as [?|[-> [s1 Hf]]]; [by left|].
    right. right. exists st, h, wv. cbn [write_of op_bytes written_view].
    split; [done|]. split; [done|]. split; [done|]. split; [done|].
    pose proof Hw as (_ & _ & _ & _ & Hfiles). destruct (Hfiles _ _ Hq) as (Hrep & Hup & _).
    destruct (PreAllocate_spec st size padding Hrep Hup Hsize Hov Hpad) as (? & Hpre & _).
    split; [congruence | done].
  - unfold file_of in Hex. cbn [world views] in Hex.
    destruct (vs !! h) as [v|] eqn:Hh; [|done]. cbn [mbind option_bind] in Hex.
    destruct (heap w !! view_file v) as [st|] eqn:Hq; [|done]. cbn [mbind option_bind] in Hex.
    destruct v as [| |wv]; try done. case_decide as Hov; [|done]. cbn [op_bytes] in Hov.
    destruct (Writable_Append wv data w) as [[s w']|] eqn:Hon; [|done].
    injection Hex as <-. cbn [view_file world] in *.
    destruct (Hwrite _ _ st s w' Hq Hon Hp') as [?|[-> [s1 Hf]]]; [by left|].
    right. right. exists st, h, wv. cbn [write_of op_bytes written_view].
    split; [done|]. split; [done|]. split; [done|]. split; [done|].
    pose proof Hw as (_ & _ & _ & _ & Hfiles). destruct (Hfiles _ _ Hq) as (Hrep & Hup & _).
    destruct (Append_spec st data Hrep Hup Hov) as (? & Happ & _).
    split; [congruence | lia].
  - unfold file_of in Hex. cbn [world views] in Hex.
    destruct (vs !! h) as [v|] eqn:Hh; [|done]. cbn [mbind option_bind] in Hex.
    destruct (heap w !! view_file v) as [st|] eqn:Hq; [|done]. cbn [mbind option_bind] in Hex.
    destruct v as [| |wv]; try done. case_decide as Hov; [|done]. cbn [op_bytes] in Hov.
    destruct (Writable_AppendVector wv data_vector w) as [[s w']|] eqn:Hon; [|done].
    injection Hex as <-. cbn [view_file world] in *.
    destruct (Hwrite _ _ st s w' Hq Hon Hp') as [?|[-> [s1 Hf]]]; [by left|].
    right. right. exists st, h, wv. cbn [write_of op_bytes written_view].
    split; [done|]. split; [done|]. split; [done|]. split; [done|].
    pose proof Hw as (_ & _ & _ & _ & Hfiles). destruct (Hfiles _ _ Hq) as (Hrep & Hup & _).
    destruct (AppendVector_spec data_vector st Hrep Hup Hov) as (? & Happ & _).
    split; [congruence | lia].
  - destruct (fm_find fname (file_map_ w)) as [q|] eqn:Hf.
    + destruct (DeleteFile_present false w _ fname q Hw Hf)
        as (st & w' & Hq & _ & Hdel & Hh & _).
      rewrite Hdel in Hex. injection Hex as <-. cbn [world] in Hp'. rewrite Hh in Hp'.
      left. by apply (heap_unref_survivor q st (heap w)).
    + rewrite (DeleteFile_absent _ _ Hf) in Hex. injection Hex as <-. left. by exists st'.
  - destruct (DeleteRecursively dirname w) as [[s w']|] eqn:Hdel; [|done].
    injection Hex as <-. cbn [world] in Hp'.
    destruct (DeleteRecursively_spec w _ dirname s w' Hw Hdel) as (Hh & _).
    rewrite Hh in Hp'. left. by exists st'.
  - destruct (RenameFile src target w) as [[s w']|] eqn:Hren; [|done].
    injection Hex as <-. cbn [world] in Hp'. left.
    destruct (RenameFile_heap _ _ _ _ _ Hren) as [->|(w1 & Hdel & Hh)]; [by exists st'|].
    rewrite Hh in Hp'.
    by apply (DeleteFileInternal_survivor false w (view_file <$> vs) target w1).
Qed.

(** Without [PreAllocate], no file has an unused block. *)
Lemma run_lower ops : ∀ s s',
  sys_inv false s → Forall (λ op, is_PreAllocate op = false) ops →
  (∀ p st, heap (world s) !! p = Some st → fs_lower st) →
  run ops s = Some s' →
  ∀ p st, heap (world s') !! p = Some st → fs_lower st.
Proof.
  induction ops as [|op ops IH]; intros s s' Hinv Hops Hlow; cbn [run].
  { by intros [= <-]. }
  destruct (exec op s) as [s1|] eqn:Hex; [|done]. cbn [mbind option_bind]. intros Hrun.
  apply Forall_cons in Hops as [Hop Hops].
  destruct (exec_inv false op s s1 Hinv ltac:(done) Hex) as [Hinv1 _].
  apply (IH s1 s' Hinv1 Hops); [|done]. intros p st1 Hp1.
  destruct (exec_survivor op s s1 p st1 Hinv Hex Hp1)
    as [(st & Hp & Hb & Hs)|[(_ & Hb & Hs)|(st & ? & ? & _ & _ & _ & Hp & Hwr & _ & Hov)]].
  - specialize (Hlow _ _ Hp). unfold fs_lower in *. by rewrite Hb, Hs.
  - unfold fs_lower. by rewrite Hb.
  - destruct Hinv as [(_ & _ & _ & _ & Hfiles) _].
    destruct (Hfiles _ _ Hp) as (Hrep & Hup & Hmax). specialize (Hlow _ _ Hp).
    destruct op; try done; cbn [write_of op_bytes] in Hwr, Hov.
    + destruct (Append_spec st data Hrep Hup Hov) as (st2 & Happ & _ & _ & _ & _ & _ & _ & Hl).
      rewrite Happ in Hwr. injection Hwr as <-. by apply Hl.
    + destruct (AppendVector_spec data_vector st Hrep Hup Hov)
        as (st2 & Happ & _ & _ & _ & _ & _ & _ & Hl).
      rewrite Happ in Hwr. injection Hwr as <-. by apply Hl.
Qed.

(** X20: in a serial run with no [PreAllocate], what a writer appends every
    view of the same object sees.  [Append] through a writable view returns
    and leaves the object with its content followed by the bytes appended,
    and that is the object any view bound to the same file reads from
    afterwards, whenever it was opened. *)
Theorem appended_bytes_are_seen_by_every_view (ops : list Op) (s : System)
    (h h' : nat) (wv : WritableFileImpl) (v' : View) (data : list Byte.byte) :
  run ops System_new = Some s →
  Forall (λ op, is_PreAllocate op = false) ops →
  views s !! h = Some (VWritable wv) →
  views s !! h' = Some v' → view_file v' = wr_file_ wv →
  (∀ st, file_of h s = Some st → size_ st + Z.of_nat (length data) < 2 ^ 64) →
  ∃ st s' st',
    file_of h s = Some st ∧
    exec (OpAppend h data) s = Some s' ∧
    file_of h' s' = Some st' ∧ file_of h s' = Some st' ∧
    size_ st' = size_ st + Z.of_nat (length data) ∧
    content st' = content st ++ (Some <$> data).
Proof.
  intros Hrun Hops Hh Hh' Hsame Hfit. pose proof (reachable_inv _ _ Hrun) as Hinv.
  destruct (view_file_ok false s h _ Hinv Hh) as (st & Hst & Hfile & Hrep & Hup & Hmax & _).
  cbn [view_file] in Hst. specialize (Hfit _ Hfile).
  assert (fs_lower st) as Hlow.
  { apply (run_lower ops System_new s (System_new_inv false) Hops) with (p := wr_file_ wv);
      [|done|done].
    intros p st0. cbn. by rewrite lookup_empty. }
  destruct (Append_spec st data Hrep Hup Hfit)
    as (st' & Happ & Hr & Hs & Hrep' & Hup' & _ & _ & Hl).
  destruct (Hl Hlow) as [_ Hcont].
  destruct Hinv as [Hw _].
  destruct (on_file_spec false _ _ (wr_file_ wv) (λ file, Append file data)
              st OK st' Hw Hst Happ) as [Hon _]; [done | done | done | lia |].
  eexists st, _, st'. split; [done|]. split.
  { cbn [exec]. rewrite Hh, Hfile. cbn [mbind option_bind op_bytes].
    rewrite decide_True by done. unfold Writable_Append. rewrite Hon. done. }
  unfold file_of. cbn [world views set_heap heap]. rewrite Hh, Hh'.
  cbn [mbind option_bind view_file]. rewrite Hsame, lookup_insert_eq. done.
Qed.

Lemma appended_bytes_are_seen_by_every_view_witness :
  (run sample_run System_new = Some sample_system ∧
   Forall (λ op, is_PreAllocate op = false) sample_run ∧
   views sample_system !! 1%nat = Some (VWritable {| wr_file_ := 2%nat |}) ∧
   views sample_system !! 3%nat = Some (VRandomAccess {| rand_file_ := 2%nat |}) ∧
   view_file (VRandomAccess {| rand_file_ := 2%nat |}) = wr_file_ {| wr_file_ := 2%nat |} ∧
   (∀ st, file_of 1 sample_system = Some st →
          size_ st + Z.of_nat (length [Byte.x68; Byte.x69]) < 2 ^ 64)) ∧
  ∃ st s' st',
    file_of 1 sample_system = Some st ∧
    exec (OpAppend 1 [Byte.x68; Byte.x69]) sample_system = Some s' ∧
    file_of 3 s' = Some st' ∧ file_of 1 s' = Some st' ∧
    size_ st' = size_ st + Z.of_nat (length [Byte.x68; Byte.x69]) ∧
    content st' = content st ++ (Some <$> [Byte.x68; Byte.x69]).
Proof.
  assert (Forall (λ op, is_PreAllocate op = false) sample_run) as Hops
    by (repeat constructor).
  assert (∀ st, file_of 1 sample_system = Some st →
                size_ st + Z.of_nat (length [Byte.x68; Byte.x69]) < 2 ^ 64) as Hfit.
  { intros st Hst.
    assert (size_ <$> file_of 1 sample_system = Some 8194) as Hsz by (by vm_compute).
    rewrite Hst in Hsz. injection Hsz as Hsz. rewrite Hsz. by vm_compute. }
  split; [split; [exact sample_system_run|]; split; [exact Hops|];
          split; [by vm_compute|]; split; [by vm_compute|]; split; [done | exact Hfit]|].
  apply (appended_bytes_are_seen_by_every_view sample_run sample_system 1 3
           {| wr_file_ := 2%nat |} (VRandomAccess {| rand_file_ := 2%nat |}));
    [exact sample_system_run | exact Hops | by vm_compute | by vm_compute | done
    | exact Hfit].
Defined.

(** X21: in every state a client reaches by a serial run, a call changes the
    content of no object but the one it writes to.  An object that is live
    before and after a call has the same blocks and the same size, unless
    the call is [PreAllocate], [Append] or [AppendVector] through a writable
    view bound to that object; it is then what the operation of [FileState]
    returns on it. *)
Theorem calls_change_only_the_file_written (ops : list Op) (s s' : System) (op : Op)
    (p : ptr) (st st' : FileState) :
  run ops System_new = Some s → exec op s = Some s' →
  heap (world s) !! p = Some st → heap (world s') !! p = Some st' →
  (blocks_ st' = blocks_ st ∧ size_ st' = size_ st) ∨
  (∃ h wv, written_view op = Some h ∧
           views s !! h = Some (VWritable wv) ∧ wr_file_ wv = p ∧
           write_of op st = Some (OK, st')).
Proof.
  intros Hrun Hex Hp Hp'. pose proof (reachable_inv _ _ Hrun) as Hinv.
  destruct (exec_survivor op s s' p st' Hinv Hex Hp')
    as [(st0 & Hp0 & Hb & Hs)|[(Hnone & _)|(st0 & h & wv & Hwv & Hh & Hfile & Hp0 & Hwr & _)]].
  - left. by simplify_eq.
  - congruence.
  - right. exists h, wv. by simplify_eq.
Qed.

Lemma calls_change_only_the_file_written_witness :
  (run sample_run System_new = Some sample_system ∧
   exec (OpAppend 1 [Byte.x66; Byte.x67]) sample_system = Some sample_appended ∧
   heap (world sample_system) !! 2%nat = Some sample_y ∧
   heap (world sample_appended) !! 2%nat = Some sample_y_appended) ∧
  ((blocks_ sample_y_appended = blocks_ sample_y ∧
    size_ sample_y_appended = size_ sample_y) ∨
   (∃ h wv, written_view (OpAppend 1 [Byte.x66; Byte.x67]) = Some h ∧
            views sample_system !! h = Some (VWritable wv) ∧ wr_file_ wv = 2%nat ∧
            write_of (OpAppend 1 [Byte.x66; Byte.x67]) sample_y
              = Some (OK, sample_y_appended))).
Proof.
  split; [split; [exact sample_system_run | split_and!; by vm_compute]|].
  apply (calls_change_only_the_file_written sample_run sample_system sample_appended
           (OpAppend 1 [Byte.x66; Byte.x67]) 2%nat);
    [exact sample_system_run | by vm_compute ..].
Defined.

(** ** Deleting a file that is open *)

(** X22: in a serial run with no [DeleteRecursively], [DeleteFile] of a name
    that exists destroys the object of the file, and frees its blocks, when
    no view is open on it, and only then; every other object is left as it
    is. *)
Theorem DeleteFile_reclaims_unless_open (ops : list Op) (s : System)
    (path : string) (p : ptr) :
  run ops System_new = Some s →
  Forall (λ op, is_DeleteRecursively op = false) ops →
  fm_find path (file_map_ (world s)) = Some p →
  ∃ w',
    DeleteFile path (world s) = Some (OK, w') ∧
    (heap w' !! p = None ↔ ∀ v, v ∈ views s → view_file v ≠ p) ∧
    (∀ q, q ≠ p → heap w' !! q = heap (world s) !! q).
Proof.
  intros Hrun Hops Hf. destruct (reachable_inv_exact _ _ Hops Hrun) as [Hw _].
  destruct (DeleteFile_present true _ _ path p Hw Hf)
    as (st & w' & Hp & Hr & Hdel & Hh & _).
  destruct Hw as (_ & Hnd & _ & Hrefs & _).
  specialize (Hrefs p). rewrite Hp in Hrefs. destruct Hrefs as (_ & _ & Hexact).
  specialize (Hexact eq_refl). rewrite occ_app in Hexact.
  assert (occ p (file_map_ (world s)).*2 = 1) as Hone.
  { pose proof (occ_NoDup p _ Hnd).
    pose proof (proj1 (occ_elem p _) (fm_find_values _ _ _ Hf)). lia. }
  exists w'. split; [done|]. rewrite Hh. split.
  - rewrite heap_unref_eq. split.
    + case_bool_decide as Hz; [|done]. intros _ v Hv Heq.
      assert (p ∈ view_file <$> views s) as Hin by (apply list_elem_of_fmap; by exists v).
      apply occ_elem in Hin. lia.
    + intros Hno. rewrite bool_decide_true; [done|].
      destruct (decide (0 < occ p (view_file <$> views s))) as [Hpos|]; [|lia].
      apply occ_elem, list_elem_of_fmap in Hpos as (v & Heq & Hv).
      by destruct (Hno v Hv).
  - intros q Hq. by apply heap_unref_ne.
Qed.

Lemma DeleteFile_reclaims_unless_open_witness :
  (run sample_run System_new = Some sample_system ∧
   Forall (λ op, is_DeleteRecursively op = false) sample_run ∧
   fm_find "/a/x" (file_map_ (world sample_system)) = Some 3%nat) ∧
  ∃ w',
    DeleteFile "/a/x" (world sample_system) = Some (OK, w') ∧
    (heap w' !! 3%nat = None ↔ ∀ v, v ∈ views sample_system → view_file v ≠ 3%nat) ∧
    (∀ q, q ≠ 3%nat → heap w' !! q = heap (world sample_system) !! q).
Proof.
  assert (Forall (λ op, is_DeleteRecursively op = false) sample_run) as Hops
    by (repeat constructor).
  split; [split; [exact sample_system_run | split; [exact Hops | by vm_compute]]|].
  apply (DeleteFile_reclaims_unless_open sample_run sample_system "/a/x" 3%nat);
    [exact sample_system_run | exact Hops | by vm_compute].
Defined.
